(** * zen-surfer: the configuration resolver of [src/utils/config.ts]

    A shallow embedding of the module that loads, defaults, validates and
    saves [gluon.json], together with the part of the JavaScript runtime
    the module leans on: strings of UTF-16 code units, IEEE-754 doubles,
    ordinary objects with their property order, [JSON.parse] and
    [JSON.stringify], property reads, object spread, [for ... in], loose
    equality against a string and template-literal conversion. *)

From Stdlib Require Import List ZArith NArith Lia Bool Ascii String.
From Stdlib Require Import Floats.SpecFloat DecimalN.
Import ListNotations.

(** ** JavaScript strings *)

Module JsString.

(** A JavaScript string is a sequence of UTF-16 code units. *)
Definition char := N.
Definition jsstring := list char.

(** Source literals are ASCII; [u "text"] is the corresponding string. *)
Definition u (s : string) : jsstring := map N_of_ascii (list_ascii_of_string s).

Fixpoint str_eqb (a b : jsstring) : bool :=
  match a, b with
  | [], [] => true
  | x :: a', y :: b' => N.eqb x y && str_eqb a' b'
  | _, _ => false
  end.

Definition is_digit (c : char) : bool := N.leb 48 c && N.leb c 57.

Definition digit_val (c : char) : N := (c - 48)%N.

(** Maximal run of decimal digits at the head of a text. *)
Fixpoint span_digits (t : jsstring) : list N * jsstring :=
  match t with
  | c :: t' =>
      if is_digit c
      then let '(ds, r) := span_digits t' in (digit_val c :: ds, r)
      else ([], t)
  | [] => ([], [])
  end.

Definition digits_value (ds : list N) : N :=
  fold_left (fun acc d => acc * 10 + d)%N ds 0%N.

(** The decimal numeral of a natural number, without leading zeros. *)
Fixpoint uint_chars (d : Decimal.uint) : jsstring :=
  match d with
  | Decimal.Nil => []
  | Decimal.D0 d' => 48%N :: uint_chars d'
  | Decimal.D1 d' => 49%N :: uint_chars d'
  | Decimal.D2 d' => 50%N :: uint_chars d'
  | Decimal.D3 d' => 51%N :: uint_chars d'
  | Decimal.D4 d' => 52%N :: uint_chars d'
  | Decimal.D5 d' => 53%N :: uint_chars d'
  | Decimal.D6 d' => 54%N :: uint_chars d'
  | Decimal.D7 d' => 55%N :: uint_chars d'
  | Decimal.D8 d' => 56%N :: uint_chars d'
  | Decimal.D9 d' => 57%N :: uint_chars d'
  end.

Definition decimal (n : N) : jsstring := uint_chars (N.to_uint n).

End JsString.
Export JsString.

(** ** Numbers: IEEE-754 binary64 *)

Module JsNumber.

Definition prec : Z := 53.
Definition emax : Z := 1024.

(** The Number type, as [spec_float] at binary64 precision. *)
Definition number := spec_float.

Definition number_eqb (x y : number) : bool :=
  match x, y with
  | S754_zero a, S754_zero b => Bool.eqb a b
  | S754_infinity a, S754_infinity b => Bool.eqb a b
  | S754_nan, S754_nan => true
  | S754_finite a m e, S754_finite b m' e' =>
      Bool.eqb a b && Pos.eqb m m' && Z.eqb e e'
  | _, _ => false
  end.

(** [of_decimal neg m e] is the double nearest to [(-1)^neg * m * 10^e]
    (round to nearest, ties to even), as StringToNumber and [JSON.parse]
    produce it from a decimal literal. *)
Definition of_decimal (neg : bool) (m : N) (e : Z) : number :=
  match m with
  | N0 => S754_zero neg
  | Npos p =>
      if Z.leb 0 e
      then binary_normalize prec emax
             (if neg then Z.opp (Zpos p * 10 ^ e) else Zpos p * 10 ^ e)%Z 0 false
      else SFdiv prec emax (S754_finite neg p 0)
             (S754_finite false (Z.to_pos (10 ^ (- e))) 0)
  end.

(** A number token of the JSON grammar: an optional minus sign, an integer
    part (a single zero, or a non-zero digit followed by digits), an
    optional fraction (a dot and at least one digit) and an optional
    exponent (e or E, an optional sign, at least one digit). *)
Record numtok := {
  nt_neg : bool;
  nt_int : list N;
  nt_frac : list N;
  nt_exp : option (bool * list N)
}.

Definition lex_sign (t : jsstring) : bool * jsstring :=
  match t with
  | c :: t' => if N.eqb c 45 then (true, t') else (false, t)
  | [] => (false, [])
  end.

Definition lex_int (t : jsstring) : option (list N * jsstring) :=
  match t with
  | c :: t' =>
      if N.eqb c 48 then Some ([0%N], t')
      else if is_digit c then Some (span_digits t)
      else None
  | [] => None
  end.

Definition lex_frac (t : jsstring) : option (list N * jsstring) :=
  match t with
  | c :: t' =>
      if N.eqb c 46 then
        match span_digits t' with
        | ([], _) => None
        | (ds, r) => Some (ds, r)
        end
      else Some ([], t)
  | [] => Some ([], [])
  end.

Definition lex_exp_digits (neg : bool) (t : jsstring)
  : option (option (bool * list N) * jsstring) :=
  match span_digits t with
  | ([], _) => None
  | (ds, r) => Some (Some (neg, ds), r)
  end.

Definition lex_exp (t : jsstring) : option (option (bool * list N) * jsstring) :=
  match t with
  | c :: t' =>
      if N.eqb c 101 || N.eqb c 69 then
        match t' with
        | s :: t'' =>
            if N.eqb s 43 then lex_exp_digits false t''
            else if N.eqb s 45 then lex_exp_digits true t''
            else lex_exp_digits false t'
        | [] => None
        end
      else Some (None, t)
  | [] => Some (None, [])
  end.

Definition lex_number (t : jsstring) : option (numtok * jsstring) :=
  let '(neg, t1) := lex_sign t in
  match lex_int t1 with
  | None => None
  | Some (i, t2) =>
      match lex_frac t2 with
      | None => None
      | Some (f, t3) =>
          match lex_exp t3 with
          | None => None
          | Some (e, t4) =>
              Some ({| nt_neg := neg; nt_int := i; nt_frac := f; nt_exp := e |}, t4)
          end
      end
  end.

Definition number_of_tok (k : numtok) : number :=
  let m := digits_value (nt_int k ++ nt_frac k) in
  let e := match nt_exp k with
           | None => 0%Z
           | Some (true, ds) => Z.opp (Z.of_N (digits_value ds))
           | Some (false, ds) => Z.of_N (digits_value ds)
           end in
  of_decimal (nt_neg k) m (e - Z.of_nat (List.length (nt_frac k))).

(** *** Number::toString, radix 10 *)

(** The value of a positive finite double as a fraction [num / den]. *)
Definition fraction (m : positive) (e : Z) : Z * Z :=
  if Z.leb 0 e then (Zpos m * 2 ^ e, 1)%Z else (Zpos m, 2 ^ (- e))%Z.

(** Number of decimal digits of a positive integer. *)
Definition ndigits (z : Z) : Z := Z.of_nat (List.length (decimal (Z.to_N z))).

(** Downward search of the [j >= 1] with [den <= num * 10^j < 10 * den]. *)
Fixpoint scale_up (fuel : nat) (num den : Z) (j : Z) : Z :=
  match fuel with
  | O => j
  | S f => if Z.leb den (num * 10 ^ j) then j else scale_up f num den (j + 1)
  end.

(** [decimal_exponent num den] is the [k] with [10^(k-1) <= num/den < 10^k]. *)
Definition decimal_exponent (num den : Z) : Z :=
  if Z.leb den num then ndigits (num / den)
  else (1 - scale_up 400 num den 1)%Z.

(** [floor (num/den * 10^p)]. *)
Definition scaled_floor (num den p : Z) : Z :=
  if Z.leb 0 p then (num * 10 ^ p / den)%Z else (num / (den * 10 ^ (- p)))%Z.

(** Sign of [s * 10^(-p) - num/den]. *)
Definition cmp_scaled (s p num den : Z) : comparison :=
  if Z.leb 0 p then Z.compare (s * den) (num * 10 ^ p)
  else Z.compare (s * 10 ^ (- p) * den) num.

(** Twice the value [num/den] compared with the sum of two candidates, to
    find the nearer one: sign of [(lo + hi) * 10^(-p) - 2 * num/den]. *)
Definition cmp_mid (lo hi p num den : Z) : comparison :=
  cmp_scaled (lo + hi) p (2 * num) den.

(** A candidate [s * 10^(k-n)] is acceptable when it reads back as [x]. *)
Definition reads_back (x : number) (s k n : Z) : bool :=
  number_eqb (of_decimal false (Z.to_N s) (k - n)) x.

(** The digits [s], with [n] digits, and the exponent [k] for the positive
    finite double [x = num/den], trying [n], [n+1], ... *)
Fixpoint shortest (fuel : nat) (x : number) (num den k n : Z) : option (Z * Z * Z) :=
  match fuel with
  | O => None
  | S f =>
      let lo := scaled_floor num den (n - k) in
      let hi := (lo + 1)%Z in
      let oklo := Z.leb (10 ^ (n - 1)) lo && reads_back x lo k n in
      let okhi := reads_back x hi k n in
      (* [hi = 10^n] is the [n]-digit number [10^(n-1)] one exponent higher *)
      let hi' := if Z.eqb hi (10 ^ n) then (10 ^ (n - 1), k + 1, n)%Z else (hi, k, n) in
      match oklo, okhi with
      | true, true =>
          match cmp_mid lo hi (n - k) num den with
          | Gt => Some (lo, k, n)
          | Lt => Some hi'
          | Eq => if Z.even lo then Some (lo, k, n) else Some hi'
          end
      | true, false => Some (lo, k, n)
      | false, true => Some hi'
      | false, false => shortest f x num den k (n + 1)
      end
  end.

Definition zeros (n : Z) : jsstring := repeat 48%N (Z.to_nat n).

Definition digit_chars (s : Z) : jsstring := decimal (Z.to_N s).

(** Steps 6 to 10 of Number::toString. *)
Definition format_digits (s k n : Z) : jsstring :=
  let ds := digit_chars s in
  if Z.leb n k && Z.leb k 21 then ds ++ zeros (k - n)
  else if Z.ltb 0 k && Z.leb k 21 then
    firstn (Z.to_nat k) ds ++ [46%N] ++ skipn (Z.to_nat k) ds
  else if Z.ltb (-6) k && Z.leb k 0 then
    [48%N; 46%N] ++ zeros (- k) ++ ds
  else
    let e := (k - 1)%Z in
    let es := (if Z.ltb e 0 then [45%N] else [43%N]) ++ decimal (Z.abs_N e) in
    match ds with
    | d :: (_ :: _) as rest => d :: 46%N :: rest ++ [101%N] ++ es
    | _ => ds ++ [101%N] ++ es
    end.

Definition positive_toString (m : positive) (e : Z) : jsstring :=
  let '(num, den) := fraction m e in
  let k := decimal_exponent num den in
  match shortest 17 (S754_finite false m e) num den k 1 with
  | Some (s, k', n) => format_digits s k' n
  | None => u "NaN"
  end.

Definition Number_toString (x : number) : jsstring :=
  match x with
  | S754_nan => u "NaN"
  | S754_zero _ => u "0"
  | S754_infinity false => u "Infinity"
  | S754_infinity true => u "-Infinity"
  | S754_finite false m e => positive_toString m e
  | S754_finite true m e => 45%N :: positive_toString m e
  end.

Definition is_finite (x : number) : bool :=
  match x with
  | S754_zero _ | S754_finite _ _ _ => true
  | _ => false
  end.

End JsNumber.
Export JsNumber.

(** ** JSON values and ordinary objects *)

Module Json.

(** What [JSON.parse] can return.  An object is the list of its own
    properties in the order [OrdinaryOwnPropertyKeys] lists them. *)
#[warnings="-register-all"]
Inductive value :=
| JNull
| JBool (b : bool)
| JNum (x : number)
| JStr (s : jsstring)
| JArr (l : list value)
| JObj (o : list (jsstring * value)).

Definition object := list (jsstring * value).

(** An array index is a canonical numeric string below [2^32 - 1]; such
    keys come first in an object, in ascending order. *)
Definition array_index (k : jsstring) : option N :=
  match k with
  | [] => None
  | c :: r =>
      if forallb is_digit k && (negb (N.eqb c 48) || match r with [] => true | _ => false end)
      then let n := digits_value (map digit_val k) in
           if N.ltb n 4294967295 then Some n else None
      else None
  end.

Fixpoint obj_lookup (k : jsstring) (o : object) : option value :=
  match o with
  | [] => None
  | (k', v) :: o' => if str_eqb k k' then Some v else obj_lookup k o'
  end.

Fixpoint obj_replace (k : jsstring) (v : value) (o : object) : object :=
  match o with
  | [] => []
  | (k', v') :: o' =>
      if str_eqb k k' then (k', v) :: o' else (k', v') :: obj_replace k v o'
  end.

(** [goes_before k k']: a new key [k] is listed before the existing [k']. *)
Definition goes_before (k k' : jsstring) : bool :=
  match array_index k, array_index k' with
  | Some i, Some j => N.ltb i j
  | Some _, None => true
  | None, _ => false
  end.

Fixpoint obj_insert (k : jsstring) (v : value) (o : object) : object :=
  match o with
  | [] => [(k, v)]
  | (k', v') :: o' =>
      if goes_before k k' then (k, v) :: o else (k', v') :: obj_insert k v o'
  end.

(** [CreateDataProperty]: an existing key keeps its place, a new one is
    added in property order. *)
Definition obj_set (k : jsstring) (v : value) (o : object) : object :=
  match obj_lookup k o with
  | Some _ => obj_replace k v o
  | None => obj_insert k v o
  end.

(** *** JSON.parse *)

Definition is_ws (c : char) : bool :=
  N.eqb c 32 || N.eqb c 9 || N.eqb c 10 || N.eqb c 13.

Fixpoint skip_ws (t : jsstring) : jsstring :=
  match t with
  | c :: t' => if is_ws c then skip_ws t' else t
  | [] => []
  end.

Definition hex_val (c : char) : option N :=
  if is_digit c then Some (c - 48)%N
  else if N.leb 97 c && N.leb c 102 then Some (c - 87)%N
  else if N.leb 65 c && N.leb c 70 then Some (c - 55)%N
  else None.

Definition hex4 (a b c d : char) : option char :=
  match hex_val a, hex_val b, hex_val c, hex_val d with
  | Some x, Some y, Some z, Some w => Some (((x * 16 + y) * 16 + z) * 16 + w)%N
  | _, _, _, _ => None
  end.

(** The character a single-character escape stands for. *)
Definition unescape (c : char) : option char :=
  if N.eqb c 34 then Some 34%N
  else if N.eqb c 92 then Some 92%N
  else if N.eqb c 47 then Some 47%N
  else if N.eqb c 98 then Some 8%N
  else if N.eqb c 102 then Some 12%N
  else if N.eqb c 110 then Some 10%N
  else if N.eqb c 114 then Some 13%N
  else if N.eqb c 116 then Some 9%N
  else None.

Definition cons_fst (c : char) (r : option (jsstring * jsstring))
  : option (jsstring * jsstring) :=
  match r with
  | Some (s, t) => Some (c :: s, t)
  | None => None
  end.

(** The characters of a string literal, after its opening quote. *)
Fixpoint parse_chars (t : jsstring) : option (jsstring * jsstring) :=
  match t with
  | [] => None
  | c :: t1 =>
      if N.eqb c 34 then Some ([], t1)
      else if N.eqb c 92 then
        match t1 with
        | [] => None
        | e :: t2 =>
            if N.eqb e 117 then
              match t2 with
              | h1 :: h2 :: h3 :: h4 :: t3 =>
                  match hex4 h1 h2 h3 h4 with
                  | Some x => cons_fst x (parse_chars t3)
                  | None => None
                  end
              | _ => None
              end
            else
              match unescape e with
              | Some x => cons_fst x (parse_chars t2)
              | None => None
              end
        end
      else if N.ltb c 32 then None
      else cons_fst c (parse_chars t1)
  end.

Fixpoint strip_prefix (p t : jsstring) : option jsstring :=
  match p, t with
  | [], _ => Some t
  | a :: p', b :: t' => if N.eqb a b then strip_prefix p' t' else None
  | _ :: _, [] => None
  end.

Definition parse_literal (p : jsstring) (v : value) (t : jsstring)
  : option (value * jsstring) :=
  match strip_prefix p t with
  | Some r => Some (v, r)
  | None => None
  end.

Definition parse_number (t : jsstring) : option (value * jsstring) :=
  match lex_number t with
  | Some (k, r) => Some (JNum (number_of_tok k), r)
  | None => None
  end.

(** Recursive descent; every call consumes a character before it
    recurses, so a fuel above the length of the text is never used up. *)
Fixpoint parse_value (fuel : nat) (t : jsstring) : option (value * jsstring) :=
  match fuel with
  | O => None
  | S f =>
      match skip_ws t with
      | [] => None
      | c :: t1 =>
          if N.eqb c 34 then
            match parse_chars t1 with
            | Some (s, r) => Some (JStr s, r)
            | None => None
            end
          else if N.eqb c 123 then
            match skip_ws t1 with
            | c' :: t2 =>
                if N.eqb c' 125 then Some (JObj [], t2)
                else match parse_members f [] t1 with
                     | Some (o, r) => Some (JObj o, r)
                     | None => None
                     end
            | [] => None
            end
          else if N.eqb c 91 then
            match skip_ws t1 with
            | c' :: t2 =>
                if N.eqb c' 93 then Some (JArr [], t2)
                else match parse_elements f t1 with
                     | Some (l, r) => Some (JArr l, r)
                     | None => None
                     end
            | [] => None
            end
          else if N.eqb c 116 then parse_literal (u "true") (JBool true) (c :: t1)
          else if N.eqb c 102 then parse_literal (u "false") (JBool false) (c :: t1)
          else if N.eqb c 110 then parse_literal (u "null") JNull (c :: t1)
          else parse_number (c :: t1)
      end
  end
with parse_members (fuel : nat) (acc : object) (t : jsstring)
  : option (object * jsstring) :=
  match fuel with
  | O => None
  | S f =>
      match skip_ws t with
      | c :: t1 =>
          if N.eqb c 34 then
            match parse_chars t1 with
            | Some (k, t2) =>
                match skip_ws t2 with
                | c2 :: t3 =>
                    if N.eqb c2 58 then
                      match parse_value f t3 with
                      | Some (v, t4) =>
                          match skip_ws t4 with
                          | c4 :: t5 =>
                              if N.eqb c4 44 then parse_members f (obj_set k v acc) t5
                              else if N.eqb c4 125 then Some (obj_set k v acc, t5)
                              else None
                          | [] => None
                          end
                      | None => None
                      end
                    else None
                | [] => None
                end
            | None => None
            end
          else None
      | [] => None
      end
  end
with parse_elements (fuel : nat) (t : jsstring) : option (list value * jsstring) :=
  match fuel with
  | O => None
  | S f =>
      match parse_value f t with
      | Some (v, t1) =>
          match skip_ws t1 with
          | c :: t2 =>
              if N.eqb c 44 then
                match parse_elements f t2 with
                | Some (l, r) => Some (v :: l, r)
                | None => None
                end
              else if N.eqb c 93 then Some ([v], t2)
              else None
          | [] => None
          end
      | None => None
      end
  end.

(** [JSON.parse text]: [None] stands for the SyntaxError it throws. *)
Definition JSON_parse (t : jsstring) : option value :=
  match parse_value (S (List.length t)) t with
  | Some (v, r) => match skip_ws r with [] => Some v | _ => None end
  | None => None
  end.

(** *** JSON.stringify *)

Definition hex_char (d : N) : char := if N.ltb d 10 then (d + 48)%N else (d + 87)%N.

(** [\uXXXX] with lower-case hexadecimal digits. *)
Definition unicode_escape (c : char) : jsstring :=
  [92; 117; hex_char (c / 4096 mod 16); hex_char (c / 256 mod 16);
   hex_char (c / 16 mod 16); hex_char (c mod 16)]%N.

Definition is_lead (c : char) : bool := N.leb 55296 c && N.leb c 56319.
Definition is_trail (c : char) : bool := N.leb 56320 c && N.leb c 57343.

Definition quote_char (c : char) : jsstring :=
  if N.eqb c 8 then [92; 98]%N
  else if N.eqb c 9 then [92; 116]%N
  else if N.eqb c 10 then [92; 110]%N
  else if N.eqb c 12 then [92; 102]%N
  else if N.eqb c 13 then [92; 114]%N
  else if N.eqb c 34 then [92; 34]%N
  else if N.eqb c 92 then [92; 92]%N
  else if N.ltb c 32 || is_lead c || is_trail c then unicode_escape c
  else [c].

(** QuoteJSONString walks the code points: a surrogate pair is copied, a
    lone surrogate is escaped. *)
Fixpoint quote_chars (s : jsstring) : jsstring :=
  match s with
  | [] => []
  | c :: s1 =>
      match s1 with
      | d :: s2 =>
          if is_lead c && is_trail d then c :: d :: quote_chars s2
          else quote_char c ++ quote_chars s1
      | [] => quote_char c
      end
  end.

Definition quote (s : jsstring) : jsstring := 34%N :: quote_chars s ++ [34%N].

(** A line feed and the current indentation. *)
Definition newline (ind : nat) : jsstring := 10%N :: repeat 32%N ind.

Definition stringify_number (x : number) : jsstring :=
  if is_finite x then Number_toString x else u "null".

(** The lines between the brackets: each part on a line of its own at
    the new indentation, a comma after all but the last. *)
Definition join_lines (ind : nat) (parts : list jsstring) : jsstring :=
  match parts with
  | [] => []
  | p :: ps => newline ind ++ p ++ flat_map (fun q => 44%N :: newline ind ++ q) ps
  end.

(** SerializeJSONProperty with a gap of two spaces. *)
Fixpoint stringify (ind : nat) (v : value) {struct v} : jsstring :=
  match v with
  | JNull => u "null"
  | JBool true => u "true"
  | JBool false => u "false"
  | JNum x => stringify_number x
  | JStr s => quote s
  | JArr l =>
      match l with
      | [] => u "[]"
      | _ =>
          91%N :: join_lines (2 + ind) (map (stringify (2 + ind)) l) ++
          newline ind ++ [93%N]
      end
  | JObj o =>
      match o with
      | [] => u "{}"
      | _ =>
          123%N ::
          join_lines (2 + ind)
            (map (fun kv => quote (fst kv) ++ [58%N; 32%N] ++ stringify (2 + ind) (snd kv)) o) ++
          newline ind ++ [125%N]
      end
  end.

(** [JSON.stringify(v, null, 2)]. *)
Definition JSON_stringify (v : value) : jsstring := stringify 0 v.

End Json.
Export Json.

(** ** The fragment of JavaScript the module uses *)

Module Js.

(** JSON texts are written with an apostrophe for the double quote:
    [js "{'name':'x'}"] is the text [{"name":"x"}]. *)
Definition js (s : string) : jsstring :=
  map (fun c => if N.eqb c 39 then 34%N else c) (u s).

(** A property read yields a value or [undefined] ([None]). *)
Abbreviation jsval := (option value).

Inductive exn := TypeError | SyntaxError.

(** Own enumerable string-keyed properties, in property order: what
    object spread copies and [for ... in] walks.  Strings and arrays
    expose their indices; [length] is not enumerable. *)
Fixpoint indexed {A : Type} (f : A -> value) (i : N) (l : list A) : object :=
  match l with
  | [] => []
  | x :: l' => (decimal i, f x) :: indexed f (N.succ i) l'
  end.

Definition own_props (v : jsval) : object :=
  match v with
  | Some (JObj o) => o
  | Some (JArr l) => indexed (fun x => x) 0 l
  | Some (JStr s) => indexed (fun c => JStr [c]) 0 s
  | _ => []
  end.

(** [v.k] and [v[k]].  Reading a property of [null] or [undefined] throws
    a TypeError.  The names this module reads are own properties or
    absent: none of them is a member of a built-in prototype, and
    [length] is never asked for. *)
Definition get (v : jsval) (k : jsstring) : exn + jsval :=
  match v with
  | None | Some JNull => inl TypeError
  | _ => inr (obj_lookup k (own_props v))
  end.

(** [{ ...a, ...b }]: CopyDataProperties from each source in turn;
    [null] and [undefined] contribute nothing. *)
Definition set_entry (acc : object) (kv : jsstring * value) : object :=
  obj_set (fst kv) (snd kv) acc.

Definition copy_props (target : object) (src : jsval) : object :=
  fold_left set_entry (own_props src) target.

Definition spread (sources : list jsval) : object :=
  fold_left copy_props sources [].

(** ToBoolean. *)
Definition truthy (v : jsval) : bool :=
  match v with
  | None | Some JNull => false
  | Some (JBool b) => b
  | Some (JNum x) =>
      match x with
      | S754_zero _ | S754_nan => false
      | _ => true
      end
  | Some (JStr s) => match s with [] => false | _ => true end
  | Some (JArr _) | Some (JObj _) => true
  end.

(** ToString of a parsed value.  An ordinary object answers
    ["[object Object]"] unless an own [toString] property (never callable
    here) hides [Object.prototype.toString], in which case
    OrdinaryToPrimitive finds no usable method and throws; an array is
    joined with commas, [null] elements giving the empty string. *)
Fixpoint value_toString (v : value) : option jsstring :=
  match v with
  | JNull => Some (u "null")
  | JBool true => Some (u "true")
  | JBool false => Some (u "false")
  | JNum x => Some (Number_toString x)
  | JStr s => Some s
  | JObj o =>
      match obj_lookup (u "toString") o with
      | Some _ => None
      | None => Some (u "[object Object]")
      end
  | JArr l =>
      match l with
      | [] => Some []
      | x :: xs =>
          let elem (y : value) : option jsstring :=
            match y with JNull => Some [] | _ => value_toString y end in
          match elem x with
          | None => None
          | Some sx =>
              (fix rest (xs : list value) (acc : jsstring) : option jsstring :=
                 match xs with
                 | [] => Some acc
                 | y :: ys =>
                     match (match y with JNull => Some [] | _ => value_toString y end) with
                     | None => None
                     | Some sy => rest ys (acc ++ 44%N :: sy)
                     end
                 end) xs sx
          end
      end
  end.

Definition toString (v : jsval) : exn + jsstring :=
  match v with
  | None => inr (u "undefined")
  | Some x =>
      match value_toString x with
      | Some s => inr s
      | None => inl TypeError
      end
  end.

(** [v == name] for a string literal [name] that is not numeric (its
    ToNumber is NaN), as the platform names are: a string compares by
    content, an object or array through ToPrimitive, anything else is
    unequal. *)
Definition loose_eq_name (v : jsval) (name : jsstring) : exn + bool :=
  match v with
  | Some (JStr s) => inr (str_eqb s name)
  | Some (JObj _ as x) | Some (JArr _ as x) =>
      match value_toString x with
      | Some s => inr (str_eqb s name)
      | None => inl TypeError
      end
  | _ => inr false
  end.

(** [list.includes(v)] on a list of strings (SameValueZero). *)
Definition includes (l : list jsstring) (v : jsval) : bool :=
  match v with
  | Some (JStr s) => existsb (str_eqb s) l
  | _ => false
  end.

End Js.
Export Js.

(** ** Effects: the file, the log and the end of the process *)

Module Effects.

Inductive event :=
| ExistsSync                       (* existsSync(configPath) *)
| ReadFileSync                     (* readFileSync(configPath) *)
| WriteFileSync (data : jsstring)  (* writeFileSync(configPath, data) *)
| LogWarning (msg : jsstring)
| LogError (msg : jsstring)
| LogErrorExn (e : exn).           (* log.error(e) with the caught error *)

(** What the module can see and change: the path and contents of the
    config file ([None] when it does not exist), its two module-level
    variables, and the effects performed so far, oldest first. *)
Record state := {
  configPath : jsstring;
  file : option jsstring;
  hasWarnedAboutConfig : bool;
  mockConfig : jsstring;
  trace : list event
}.

Inductive outcome (A : Type) :=
| Return (a : A)
| Exit (code : Z)       (* process.exit(code) *)
| Throw (e : exn).      (* an exception nobody catches *)

Arguments Return {A} a.
Arguments Exit {A} code.
Arguments Throw {A} e.

Definition M (A : Type) := state -> outcome A * state.

Definition ret {A} (a : A) : M A := fun s => (Return a, s).

Definition bind {A B} (m : M A) (k : A -> M B) : M B :=
  fun s =>
    match m s with
    | (Return a, s') => k a s'
    | (Exit c, s') => (Exit c, s')
    | (Throw e, s') => (Throw e, s')
    end.

Definition emit (e : event) : M unit :=
  fun s =>
    (Return tt,
     {| configPath := configPath s; file := file s;
        hasWarnedAboutConfig := hasWarnedAboutConfig s;
        mockConfig := mockConfig s; trace := trace s ++ [e] |}).

Definition process_exit {A} (code : Z) : M A := fun s => (Exit code, s).

Definition throw {A} (e : exn) : M A := fun s => (Throw e, s).

(** A pure step that may throw. *)
Definition lift {A} (r : exn + A) : M A :=
  match r with
  | inl e => throw e
  | inr a => ret a
  end.

Definition when (b : bool) (m : M unit) : M unit := if b then m else ret tt.

Fixpoint for_each {A} (l : list A) (body : A -> M unit) : M unit :=
  match l with
  | [] => ret tt
  | x :: l' => bind (body x) (fun _ => for_each l' body)
  end.

End Effects.
Export Effects.

Declare Scope monad_scope.
Delimit Scope monad_scope with monad.
Notation "x <- m ;; k" := (bind m (fun x => k))
  (at level 61, m at next level, right associativity) : monad_scope.
Notation "m ;; k" := (bind m (fun _ => k))
  (at level 61, right associativity) : monad_scope.
Open Scope monad_scope.

(** ** [src/utils/config.ts] *)

(** Modelled from the spec: the logger of [../log], which is not part of
    the sources at hand.  The spec's Diagnostics sink prints a warning or
    an error and goes on; only [process.exit] ends the process. *)
Module log.
Definition warning (msg : jsstring) : M unit := emit (LogWarning msg).
Definition error (msg : jsstring) : M unit := emit (LogError msg).
Definition error_exn (e : exn) : M unit := emit (LogErrorExn e).
End log.

Inductive SupportedProducts :=
| Firefox
| FirefoxESR
| FirefoxDev
| FirefoxBeta
| FirefoxNightly.

(** The string each member of the enum stands for. *)
Definition product_name (p : SupportedProducts) : jsstring :=
  match p with
  | Firefox => u "firefox"
  | FirefoxESR => u "firefox-esr"
  | FirefoxDev => u "firefox-dev"
  | FirefoxBeta => u "firefox-beta"
  | FirefoxNightly => u "firefox-nightly"
  end.

Definition validProducts : list jsstring :=
  map product_name [Firefox; FirefoxESR; FirefoxDev; FirefoxBeta; FirefoxNightly].

Definition defaultLicenseConfig : value :=
  JObj [(u "ignoredFiles", JArr [JStr (u ".*\.json")]);
        (u "licenseType", JStr (u "MPL-2.0"))].

Definition defaultConfig : value :=
  JObj [(u "name", JStr (u "Unknown gluon build"));
        (u "vendor", JStr (u "Unknown"));
        (u "appId", JStr (u "unknown.appid"));
        (u "binaryName", JStr (u "firefox"));
        (u "version", JObj [(u "product", JStr (product_name Firefox))]);
        (u "buildOptions",
         JObj [(u "generateBranding", JBool true);
               (u "windowsUseSymbolicLinks", JBool false)]);
        (u "addons", JObj []);
        (u "brands", JObj []);
        (u "license", defaultLicenseConfig)].

Definition hasConfig : M bool :=
  emit ExistsSync ;;
  fun s => (Return (match file s with Some _ => true | None => false end), s).

Definition setMockRawConfig (config : jsstring) : M unit :=
  fun s =>
    (Return tt,
     {| configPath := configPath s; file := file s;
        hasWarnedAboutConfig := hasWarnedAboutConfig s;
        mockConfig := config; trace := trace s |}).

Definition set_hasWarnedAboutConfig (b : bool) : M unit :=
  fun s =>
    (Return tt,
     {| configPath := configPath s; file := file s;
        hasWarnedAboutConfig := b;
        mockConfig := mockConfig s; trace := trace s |}).

(** [readFileSync(configPath).toString()], called only after [existsSync]
    answered true. *)
Definition readFileSync : M jsstring :=
  emit ReadFileSync ;;
  fun s => (Return (match file s with Some c => c | None => [] end), s).

Definition missing_config_warning (path : jsstring) : jsstring :=
  u "Config file not found at " ++ path ++
  u ". It is recommended to create one by running |melon setup-project|".

Definition rawConfig : M jsstring :=
  fun s =>
    (if negb (str_eqb (mockConfig s) [])
     then ret (mockConfig s)
     else
       configExists <- hasConfig ;;
       if configExists : bool
       then readFileSync
       else
         (fun s' =>
            when (negb (hasWarnedAboutConfig s'))
              (log.warning (missing_config_warning (configPath s')) ;;
               set_hasWarnedAboutConfig true) s') ;;
         ret (u "{}")) s.

Definition binaryName_warning : jsstring :=
  u "It is recommended that you provide a `binaryName` field in your config file, otherwise packaging may get messed up".

Definition missing_property (prop addonKey : jsstring) : jsstring :=
  u "The '" ++ prop ++ u "' property was not provided for addon " ++ addonKey.

(** [if (!addon.prop) log.error(...)]. *)
Definition require_prop (addon : jsval) (prop addonKey : jsstring) : M unit :=
  p <- lift (get addon prop) ;;
  when (negb (truthy p)) (log.error (missing_property prop addonKey)).

(** The body of the loop over [fileParsed.addons]. *)
Definition check_addon (addons : jsval) (addonKey : jsstring) : M unit :=
  addon <- lift (get addons addonKey) ;;
  require_prop addon (u "id") addonKey ;;
  platform <- lift (get addon (u "platform")) ;;
  is_url <- lift (loose_eq_name platform (u "url")) ;;
  if is_url : bool then
    require_prop addon (u "url") addonKey
  else
    platform <- lift (get addon (u "platform")) ;;
    is_amo <- lift (loose_eq_name platform (u "amo")) ;;
    if is_amo : bool then
      require_prop addon (u "amoId") addonKey ;;
      require_prop addon (u "version") addonKey
    else
      platform <- lift (get addon (u "platform")) ;;
      is_github <- lift (loose_eq_name platform (u "github")) ;;
      if is_github : bool then
        require_prop addon (u "repo") addonKey ;;
        require_prop addon (u "version") addonKey ;;
        require_prop addon (u "fileGlob") addonKey
      else
        platform <- lift (get addon (u "platform")) ;;
        p <- lift (toString platform) ;;
        log.error (u "Unknown addon platform " ++ p).

(** Lines 233 and 235: the parsed file over the defaults, one level deep,
    then [license] over the default license. *)
Definition merge_defaults (fileParsed : value) : object :=
  let fileParsed := spread [Some defaultConfig; Some fileParsed] in
  obj_set (u "license")
    (JObj (spread [Some defaultLicenseConfig; obj_lookup (u "license") fileParsed]))
    fileParsed.

(** Config validation, lines 240 to 293. *)
Definition validate (fileParsed : object) : M value :=
  version <- lift (get (Some (JObj fileParsed)) (u "version")) ;;
  product <- lift (get version (u "product")) ;;
  when (negb (includes validProducts product))
    (p <- lift (toString product) ;;
     log.error (p ++ u " is not a valid product") ;;
     process_exit 1) ;;
  addons <- lift (get (Some (JObj fileParsed)) (u "addons")) ;;
  for_each (map fst (own_props addons)) (check_addon addons) ;;
  ret (JObj fileParsed).

(** Everything [getConfig] does with the text [rawConfig] handed it: the
    spec's [resolve]. *)
Definition resolve (fileContents : jsstring) : M value :=
  fileParsed <-
    match JSON_parse fileContents with
    | Some v => ret v
    | None =>
        (fun s =>
           log.error (u "Error parsing melon config file located at " ++ configPath s) s) ;;
        log.error_exn SyntaxError ;;
        process_exit 1
    end ;;
  binaryName <- lift (get (Some fileParsed) (u "binaryName")) ;;
  when (negb (truthy binaryName)) (log.warning binaryName_warning) ;;
  validate (merge_defaults fileParsed).

Definition getConfig : M value :=
  fileContents <- rawConfig ;;
  resolve fileContents.

(** [saveConfig] writes the module constant [config]. *)
Definition saveConfig (config : value) : M unit :=
  let data := JSON_stringify config in
  emit (WriteFileSync data) ;;
  fun s =>
    (Return tt,
     {| configPath := configPath s; file := Some data;
        hasWarnedAboutConfig := hasWarnedAboutConfig s;
        mockConfig := mockConfig s; trace := trace s |}).

(** ** The module in a running process *)

Module Process.

(** The state in which the module is evaluated: [hasWarnedAboutConfig]
    and [mockConfig] hold their initialisers. *)
Definition fresh (path : jsstring) (contents : option jsstring) : state :=
  {| configPath := path; file := contents; hasWarnedAboutConfig := false;
     mockConfig := []; trace := [] |}.

(** What the rest of the program can do with the module once it is
    loaded.  [ReadConfig] reads the exported constant [config];
    [FileChanged] is somebody else writing or deleting the file. *)
Inductive call :=
| GetConfig
| RawConfig
| SetMockRawConfig (config : jsstring)
| HasConfig
| SaveConfig
| ReadConfig
| FileChanged (contents : option jsstring).

Inductive answer :=
| AValue (v : value)
| AText (t : jsstring)
| ABool (b : bool)
| AUnit.

Definition file_changed (contents : option jsstring) : M unit :=
  fun s =>
    (Return tt,
     {| configPath := configPath s; file := contents;
        hasWarnedAboutConfig := hasWarnedAboutConfig s;
        mockConfig := mockConfig s; trace := trace s |}).

Definition perform (config : value) (c : call) : M answer :=
  match c with
  | GetConfig => v <- getConfig ;; ret (AValue v)
  | RawConfig => t <- rawConfig ;; ret (AText t)
  | SetMockRawConfig x => setMockRawConfig x ;; ret AUnit
  | HasConfig => b <- hasConfig ;; ret (ABool b)
  | SaveConfig => saveConfig config ;; ret AUnit
  | ReadConfig => ret (AValue config)
  | FileChanged contents => file_changed contents ;; ret AUnit
  end.

Fixpoint perform_all (config : value) (cs : list call) : M (list answer) :=
  match cs with
  | [] => ret []
  | c :: cs' =>
      a <- perform config c ;;
      l <- perform_all config cs' ;;
      ret (a :: l)
  end.

(** Line 300, [export const config = getConfig()], runs when the module
    is loaded; the calls come after. *)
Definition run (path : jsstring) (contents : option jsstring) (cs : list call)
  : outcome (value * list answer) * state :=
  (config <- getConfig ;;
   answers <- perform_all config cs ;;
   ret (config, answers)) (fresh path contents).

Definition is_set_mock_empty (c : call) : bool :=
  match c with
  | SetMockRawConfig [] => true
  | _ => false
  end.

Definition is_set_mock (c : call) : bool :=
  match c with
  | SetMockRawConfig _ => true
  | _ => false
  end.

End Process.
Export Process.

(** ** Vocabulary of the statements *)

Definition log_events (s : state) (evs : list event) : state :=
  {| configPath := configPath s; file := file s;
     hasWarnedAboutConfig := hasWarnedAboutConfig s;
     mockConfig := mockConfig s; trace := trace s ++ evs |}.

(** [writes m o ev]: whatever the state, [m] ends with outcome [o] and its
    only effect is to log [ev path], [path] being the config path. *)
Definition writes {A} (m : M A) (o : outcome A) (ev : jsstring -> list event) : Prop :=
  forall s, m s = (o, log_events s (ev (configPath s))).

(** Events of the diagnostics sink other than the missing-file warning. *)
Definition is_missing_warning (path : jsstring) (e : event) : bool :=
  match e with
  | LogWarning m => str_eqb m (missing_config_warning path)
  | _ => false
  end.

Definition is_diagnostic (e : event) : bool :=
  match e with
  | LogWarning m => str_eqb m binaryName_warning
  | LogError _ | LogErrorExn _ => true
  | _ => false
  end.

Definition is_storage_access (e : event) : bool :=
  match e with
  | ExistsSync | ReadFileSync | WriteFileSync _ => true
  | _ => false
  end.

Definition missing_warnings (s : state) : nat :=
  List.length (filter (is_missing_warning (configPath s)) (trace s)).

(** The product the validation looks at, [fileParsed.version.product]
    after the merge. *)
Definition merged_product (fileParsed : value) : exn + jsval :=
  match get (Some (JObj (merge_defaults fileParsed))) (u "version") with
  | inl e => inl e
  | inr version => get version (u "product")
  end.

(** An addon entry the loop can examine without throwing: it is not
    [null] and its [platform] converts to a string. *)
Definition examinable (addon : value) : bool :=
  match get (Some addon) (u "platform") with
  | inl _ => false
  | inr platform =>
      match toString platform with
      | inl _ => false
      | inr _ => true
      end
  end.

(** The outcome of the validation, spelled out: a [null] version throws;
    an unsupported product ends the process, unless it cannot even be
    printed; a supported one leads to the loop over the addons, which
    throws at the first entry that is not examinable. *)
Definition validate_verdict (fileParsed : object) : outcome value :=
  match get (obj_lookup (u "version") fileParsed) (u "product") with
  | inl e => Throw e
  | inr product =>
      if includes validProducts product then
        if forallb examinable
             (map snd (own_props (obj_lookup (u "addons") fileParsed)))
        then Return (JObj fileParsed)
        else Throw TypeError
      else
        match toString product with
        | inl e => Throw e
        | inr _ => Exit 1
        end
  end.

Definition verdict (fileContents : jsstring) : outcome value :=
  match JSON_parse fileContents with
  | None => Exit 1
  | Some JNull => Throw TypeError
  | Some fileParsed => validate_verdict (merge_defaults fileParsed)
  end.

(** The text [rawConfig] hands over in state [s]: the override when there
    is one, else the contents of the file, else ["{}"]. *)
Definition current_text (s : state) : jsstring :=
  if str_eqb (mockConfig s) [] then
    match file s with
    | Some contents => contents
    | None => u "{}"
    end
  else mockConfig s.

(** The state after [saveConfig] wrote [config]. *)
Definition saved (config : value) (s : state) : state :=
  {| configPath := configPath s; file := Some (JSON_stringify config);
     hasWarnedAboutConfig := hasWarnedAboutConfig s;
     mockConfig := mockConfig s;
     trace := trace s ++ [WriteFileSync (JSON_stringify config)] |}.

(** *** Vocabulary of the round trip *)

(** A number survives serialization when [JSON.stringify] prints a token
    that [JSON.parse] reads back as the same double. *)
Definition number_stable (x : number) : bool :=
  match lex_number (stringify_number x) with
  | Some (k, []) => number_eqb (number_of_tok k) x
  | _ => false
  end.

(** All the numbers inside a value survive serialization. *)
Fixpoint stable (v : value) : bool :=
  match v with
  | JNum x => number_stable x
  | JArr l => forallb stable l
  | JObj o => forallb (fun kv => stable (snd kv)) o
  | _ => true
  end.

(** Fuel that [parse_value] needs to read the value back. *)
Fixpoint size (v : value) : nat :=
  match v with
  | JArr l => S (fold_right (fun x n => S (size x) + n) 0 l)
  | JObj o => S (fold_right (fun kv n => S (size (snd kv)) + n) 0 o)
  | _ => 1
  end.

(** What follows the first element of an array, or the first member of
    an object, in the output of [stringify], up to the text [rest] that
    comes after the closing bracket. *)
Definition elements_tail (n ind : nat) (xs : list value) (rest : jsstring) : jsstring :=
  flat_map (fun q => 44%N :: newline n ++ q) (map (stringify n) xs) ++
  newline ind ++ 93%N :: rest.

Definition member (n : nat) (kv : jsstring * value) : jsstring :=
  quote (fst kv) ++ [58%N; 32%N] ++ stringify n (snd kv).

Definition members_tail (n ind : nat) (xs : object) (rest : jsstring) : jsstring :=
  flat_map (fun q => 44%N :: newline n ++ q) (map (member n) xs) ++
  newline ind ++ 125%N :: rest.

(** What [parse_members] does once the key of a member is read. *)
Definition parse_member_value (f : nat) (acc : object) (k : jsstring) (t2 : jsstring)
  : option (object * jsstring) :=
  match skip_ws t2 with
  | c2 :: t3 =>
      if N.eqb c2 58 then
        match parse_value f t3 with
        | Some (v, t4) =>
            match skip_ws t4 with
            | c4 :: t5 =>
                if N.eqb c4 44 then parse_members f (obj_set k v acc) t5
                else if N.eqb c4 125 then Some (obj_set k v acc, t5)
                else None
            | [] => None
            end
        | None => None
        end
      else None
  | [] => None
  end.

(** Characters that could continue a number token. *)
Definition number_char (c : char) : bool :=
  is_digit c || N.eqb c 46 || N.eqb c 101 || N.eqb c 69.

Definition rest_ok (rest : jsstring) : Prop :=
  match rest with
  | [] => True
  | c :: _ => number_char c = false
  end.

(** Property order: no key twice, and no key listed after one it should
    go before. *)
Fixpoint ordered (o : object) : Prop :=
  match o with
  | [] => True
  | (k, _) :: o' =>
      (forall k', In k' (map fst o') -> k' <> k /\ goes_before k' k = false) /\
      ordered o'
  end.

(** Every object inside the value lists its properties in property
    order. *)
#[warnings="-register-all"]
Inductive wf : value -> Prop :=
| wf_null : wf JNull
| wf_bool b : wf (JBool b)
| wf_num x : wf (JNum x)
| wf_str s : wf (JStr s)
| wf_arr l : Forall wf l -> wf (JArr l)
| wf_obj o : ordered o -> Forall (fun kv => wf (snd kv)) o -> wf (JObj o).

(** [logs m]: [m] is a fixed outcome plus diagnostics. *)
Definition logs {A} (m : M A) : Prop :=
  exists o ev, writes m o ev /\ forall p, forallb is_diagnostic (ev p) = true.

(** [ends m o]: whatever the state, [m] ends with [o], having only logged. *)
Definition ends {A} (m : M A) (o : outcome A) : Prop := exists ev, writes m o ev.

(** The missing-file warning is counted once the flag is up, never before. *)
Definition warned_once (s : state) : Prop :=
  missing_warnings s <= 1 /\
  (hasWarnedAboutConfig s = false -> missing_warnings s = 0).

(** A step that keeps the path, keeps [warned_once], and is silent once
    the flag is up. *)
Definition keeps_once (s s' : state) : Prop :=
  configPath s' = configPath s /\
  (warned_once s -> warned_once s') /\
  (hasWarnedAboutConfig s = true ->
   hasWarnedAboutConfig s' = true /\ missing_warnings s' = missing_warnings s).

Definition default_props : object := own_props (Some defaultConfig).
Definition default_license_props : object := own_props (Some defaultLicenseConfig).

(** The license the merge starts from: the file's, or else the default. *)
Definition license_source (d : value) : value :=
  match obj_lookup (u "license") (own_props (Some d)) with
  | Some v => v
  | None => defaultLicenseConfig
  end.

(** [reads_back v]: [parse_value] reads [v] back from what [stringify]
    wrote, whatever the indentation and the text that follows. *)
Definition reads_back (v : value) : Prop :=
  forall ind rest f,
    rest_ok rest -> size v <= f ->
    parse_value f (stringify ind v ++ rest) = Some (v, rest).

(** [extends B o]: [o] is [B] with other values, index keys listed
    before it in property order and new plain keys after it. *)
Definition extends (B o : object) : Prop :=
  exists A B' C,
    o = A ++ B' ++ C /\
    ordered A /\
    (forall k, In k (map fst A) -> array_index k <> None) /\
    map fst B' = map fst B /\
    (forall k, In k (map fst C) -> array_index k = None /\ ~ In k (map fst B)) /\
    NoDup (map fst C).

(** A base object: no key twice, and no index key. *)
Definition base_ok (B : object) : Prop :=
  NoDup (map fst B) /\ forall k, In k (map fst B) -> array_index k = None.

(** Induction on a value, with the hypothesis for every element and
    every member. *)
Section ValueInduction.

Variable P : value -> Prop.
Hypothesis Hnull : P JNull.
Hypothesis Hbool : forall b, P (JBool b).
Hypothesis Hnum : forall x, P (JNum x).
Hypothesis Hstr : forall s, P (JStr s).
Hypothesis Harr : forall l, Forall P l -> P (JArr l).
Hypothesis Hobj : forall o, Forall (fun kv => P (snd kv)) o -> P (JObj o).

Fixpoint value_induction (v : value) : P v :=
  match v with
  | JNull => Hnull
  | JBool b => Hbool b
  | JNum x => Hnum x
  | JStr s => Hstr s
  | JArr l =>
      Harr l
        ((fix go (l : list value) : Forall P l :=
            match l with
            | [] => Forall_nil P
            | x :: l' => Forall_cons x (value_induction x) (go l')
            end) l)
  | JObj o =>
      Hobj o
        ((fix go (o : object) : Forall (fun kv => P (snd kv)) o :=
            match o with
            | [] => Forall_nil _
            | (k, x) :: o' =>
                Forall_cons (P := fun kv => P (snd kv)) (k, x) (value_induction x) (go o')
            end) o)
  end.

End ValueInduction.

(** *** Vocabulary of the diagnostics *)

(** [a.prop] for an addon entry [a] that is not [null]. *)
Definition addon_prop (a : value) (prop : jsstring) : jsval :=
  obj_lookup prop (own_props (Some a)).

(** [a.platform == name]. *)
Definition platform_is (a : value) (name : jsstring) : bool :=
  match loose_eq_name (addon_prop a (u "platform")) name with
  | inr b => b
  | inl _ => false
  end.

(** The properties the loop asks of an entry, by platform, in the order
    it asks for them; [None] when the platform is none of the three. *)
Definition required_props (a : value) : option (list jsstring) :=
  if platform_is a (u "url") then Some [u "id"; u "url"]
  else if platform_is a (u "amo") then Some [u "id"; u "amoId"; u "version"]
  else if platform_is a (u "github") then
    Some [u "id"; u "repo"; u "version"; u "fileGlob"]
  else None.

(** One error for each of [props] that is missing or falsy. *)
Definition missing_errors (addonKey : jsstring) (a : value) (props : list jsstring)
  : list event :=
  flat_map
    (fun prop =>
       if truthy (addon_prop a prop) then []
       else [LogError (missing_property prop addonKey)])
    props.

Definition platform_text (a : value) : jsstring :=
  match toString (addon_prop a (u "platform")) with
  | inr text => text
  | inl _ => []
  end.

(** What one turn of the loop logs for the entry [a] under [addonKey]. *)
Definition addon_diagnostics (addonKey : jsstring) (a : value) : list event :=
  match required_props a with
  | Some props => missing_errors addonKey a props
  | None =>
      missing_errors addonKey a [u "id"] ++
      [LogError (u "Unknown addon platform " ++ platform_text a)]
  end.

(** An entry with a known platform and all that platform asks for. *)
Definition complete (a : value) : bool :=
  match required_props a with
  | Some props => forallb (fun prop => truthy (addon_prop a prop)) props
  | None => false
  end.

(** The entries of [addons] in the merged record, in property order. *)
(** The diagnostics of the addon loop over the entries [l], in order. *)
Definition diagnostics_of (l : object) : list event :=
  flat_map (fun kv => addon_diagnostics (fst kv) (snd kv)) l.

Definition addon_entries (fileParsed : object) : object :=
  own_props (obj_lookup (u "addons") fileParsed).

(** The advice logged when the parsed file has no truthy [binaryName]. *)
Definition binaryName_advice (fileParsed : value) : list event :=
  if truthy (obj_lookup (u "binaryName") (own_props (Some fileParsed))) then []
  else [LogWarning binaryName_warning].

Definition is_default_key (k : jsstring) : bool :=
  existsb (str_eqb k) (map fst default_props).

(** Text made of JSON white space only, the empty text included. *)
Definition blank (t : jsstring) : bool := forallb is_ws t.

Definition is_write (e : event) : bool :=
  match e with
  | WriteFileSync _ => true
  | _ => false
  end.

(** Calls that change the file: [saveConfig], and the outside world. *)
Definition changes_file (c : call) : bool :=
  match c with
  | SaveConfig | FileChanged _ => true
  | _ => false
  end.

(** [reads_only s s']: from [s] to [s'] the file is the same and nothing
    was written. *)
Definition reads_only (s s' : state) : Prop :=
  file s' = file s /\
  configPath s' = configPath s /\
  exists evs, trace s' = trace s ++ evs /\ forallb (fun e => negb (is_write e)) evs = true.

(** ** The runtime model at work *)

Definition read_number (s : string) : option number :=
  match lex_number (u s) with
  | Some (k, []) => Some (number_of_tok k)
  | _ => None
  end.

Definition print_number (s : string) : option jsstring :=
  option_map Number_toString (read_number s).

(** * Proofs *)

Example read_number_examples :
  read_number "0.1" = Some (S754_finite false 7205759403792794 (-56)) /\
  read_number "1.5" = Some (S754_finite false 6755399441055744 (-52)) /\
  read_number "5e-324" = Some (S754_finite false 1 (-1074)) /\
  read_number "1.7976931348623157e308" = Some (S754_finite false 9007199254740991 971) /\
  read_number "1.7976931348623159e308" = Some (S754_infinity false) /\
  read_number "1e999" = Some (S754_infinity false) /\
  read_number "-0" = Some (S754_zero true) /\
  read_number "01" = None /\ read_number "1." = None /\ read_number ".5" = None.
Proof. repeat split; vm_compute; reflexivity. Qed.

Example print_number_examples :
  print_number "0.1" = Some (u "0.1") /\
  print_number "100" = Some (u "100") /\
  print_number "-2.50" = Some (u "-2.5") /\
  print_number "1e21" = Some (u "1e+21") /\
  print_number "123456789012345678901234567890" = Some (u "1.2345678901234568e+29") /\
  print_number "0.000001" = Some (u "0.000001") /\
  print_number "1e-7" = Some (u "1e-7") /\
  print_number "0.30000000000000004" = Some (u "0.30000000000000004") /\
  print_number "9007199254740993" = Some (u "9007199254740992") /\
  print_number "5e-324" = Some (u "5e-324") /\
  print_number "1.7976931348623157e308" = Some (u "1.7976931348623157e+308") /\
  print_number "-0" = Some (u "0").
Proof. repeat split; vm_compute; reflexivity. Qed.

(** Finite numbers other than the negative zero are read back; Infinity
    and the negative zero are not. *)
Example number_stable_examples :
  option_map number_stable (read_number "0.1") = Some true /\
  option_map number_stable (read_number "-12.75e3") = Some true /\
  option_map number_stable (read_number "1e21") = Some true /\
  option_map number_stable (read_number "0") = Some true /\
  option_map number_stable (read_number "1e999") = Some false /\
  option_map number_stable (read_number "-0") = Some false.
Proof. repeat split; vm_compute; reflexivity. Qed.

Example JSON_parse_examples :
  JSON_parse (js "{'b':[1,true,null,'xA\n'],'10':{},'2':[],'b':'z'}") =
    Some (JObj [(u "2", JArr []); (u "10", JObj []); (u "b", JStr (u "z"))]) /\
  JSON_parse (js " [ ] ") = Some (JArr []) /\
  JSON_parse (js "{") = None /\
  JSON_parse (js "") = None /\
  JSON_parse (js "[1,]") = None /\
  JSON_parse (js "{'a':1,}") = None /\
  JSON_parse (js "{} x") = None /\
  JSON_parse (js "nul") = None /\
  JSON_parse (js "'a\qb'") = None.
Proof. repeat split; vm_compute; reflexivity. Qed.

Example toString_examples :
  toString (JSON_parse (js "[1,[2,3],null,'a',{}]")) = inr (u "1,2,3,,a,[object Object]") /\
  toString (JSON_parse (js "{'toString':1}")) = inl TypeError /\
  toString None = inr (u "undefined") /\
  loose_eq_name (JSON_parse (js "[['url']]")) (u "url") = inr true /\
  loose_eq_name (JSON_parse (js "7")) (u "url") = inr false.
Proof. repeat split; vm_compute; reflexivity. Qed.

(** ** Strings *)

Lemma str_eqb_eq (a b : jsstring) : str_eqb a b = true <-> a = b.
Proof.
  revert b; induction a as [|x a IH]; intros [|y b]; simpl; split;
    try discriminate; try reflexivity.
  - intros H. apply andb_true_iff in H as [Hx Ha].
    apply N.eqb_eq in Hx. apply IH in Ha. congruence.
  - intros H. injection H as -> ->.
    rewrite N.eqb_refl. simpl. now apply IH.
Qed.

Lemma str_eqb_refl (a : jsstring) : str_eqb a a = true.
Proof. now apply str_eqb_eq. Qed.

Lemma str_eqb_neq (a b : jsstring) : str_eqb a b = false <-> a <> b.
Proof.
  split.
  - intros H E. apply str_eqb_eq in E. congruence.
  - intros H. destruct (str_eqb a b) eqn:E; [|reflexivity].
    apply str_eqb_eq in E. contradiction.
Qed.

Lemma str_eqb_sym (a b : jsstring) : str_eqb a b = str_eqb b a.
Proof.
  destruct (str_eqb a b) eqn:E.
  - apply str_eqb_eq in E. subst. symmetry. apply str_eqb_refl.
  - symmetry. apply str_eqb_neq. apply str_eqb_neq in E. congruence.
Qed.

(** ** Computations that only log *)

Lemma log_events_nil (s : state) : log_events s [] = s.
Proof. destruct s. unfold log_events. simpl. now rewrite app_nil_r. Qed.

Lemma log_events_app (s : state) (a b : list event) :
  log_events (log_events s a) b = log_events s (a ++ b).
Proof. unfold log_events. simpl. now rewrite app_assoc. Qed.

Lemma writes_ret {A} (a : A) : writes (ret a) (Return a) (fun _ => []).
Proof. intros s. unfold ret. now rewrite log_events_nil. Qed.

Lemma writes_throw {A} (e : exn) : writes (@throw A e) (Throw e) (fun _ => []).
Proof. intros s. unfold throw. now rewrite log_events_nil. Qed.

Lemma writes_exit {A} (c : Z) : writes (@process_exit A c) (Exit c) (fun _ => []).
Proof. intros s. unfold process_exit. now rewrite log_events_nil. Qed.

Lemma writes_emit (e : event) : writes (emit e) (Return tt) (fun _ => [e]).
Proof. intros s. reflexivity. Qed.

Lemma writes_bind_return {A B} (m : M A) (k : A -> M B) a ev o ev' :
  writes m (Return a) ev -> writes (k a) o ev' ->
  writes (bind m k) o (fun p => ev p ++ ev' p).
Proof.
  intros Hm Hk s. unfold bind. rewrite Hm, Hk. simpl.
  now rewrite log_events_app.
Qed.

Lemma writes_bind_exit {A B} (m : M A) (k : A -> M B) c ev :
  writes m (Exit c) ev -> writes (bind m k) (Exit c) ev.
Proof. intros Hm s. unfold bind. now rewrite Hm. Qed.

Lemma writes_bind_throw {A B} (m : M A) (k : A -> M B) e ev :
  writes m (Throw e) ev -> writes (bind m k) (Throw e) ev.
Proof. intros Hm s. unfold bind. now rewrite Hm. Qed.

Lemma logs_ret {A} (a : A) : logs (ret a).
Proof. exists (Return a), (fun _ => []). split; [apply writes_ret | reflexivity]. Qed.

Lemma logs_lift {A} (r : exn + A) : logs (lift r).
Proof.
  destruct r as [e|a]; simpl.
  - exists (Throw e), (fun _ => []). split; [apply writes_throw | reflexivity].
  - apply logs_ret.
Qed.

Lemma logs_exit {A} (c : Z) : logs (@process_exit A c).
Proof. exists (Exit c), (fun _ => []). split; [apply writes_exit | reflexivity]. Qed.

Lemma logs_emit (e : event) : is_diagnostic e = true -> logs (emit e).
Proof.
  intros H. exists (Return tt), (fun _ => [e]). split; [apply writes_emit|].
  intros _. simpl. now rewrite H.
Qed.

Lemma logs_bind {A B} (m : M A) (k : A -> M B) :
  logs m -> (forall a, logs (k a)) -> logs (bind m k).
Proof.
  intros (o & ev & Hm & Hev) Hk. destruct o as [a|c|e].
  - destruct (Hk a) as (o' & ev' & Hk' & Hev').
    exists o', (fun p => ev p ++ ev' p). split.
    + eapply writes_bind_return; eauto.
    + intros p. rewrite forallb_app, Hev, Hev'. reflexivity.
  - exists (Exit c), ev. split; [now apply writes_bind_exit | assumption].
  - exists (Throw e), ev. split; [now apply writes_bind_throw | assumption].
Qed.

Lemma logs_when (b : bool) (m : M unit) : logs m -> logs (when b m).
Proof. destruct b; simpl; [trivial | intros _; apply logs_ret]. Qed.

Lemma logs_for_each {A} (l : list A) (body : A -> M unit) :
  (forall a, logs (body a)) -> logs (for_each l body).
Proof.
  intros H. induction l as [|x l IH]; simpl.
  - apply logs_ret.
  - apply logs_bind; [apply H | intros _; exact IH].
Qed.

Lemma logs_error (msg : jsstring) : logs (log.error msg).
Proof. now apply logs_emit. Qed.

Create HintDb logs.

#[local] Hint Resolve logs_ret logs_lift logs_exit logs_when logs_for_each
  logs_error : logs.

Ltac logs_steps :=
  repeat first
    [ solve [auto with logs]
    | apply logs_bind; [|intros ?]
    | apply logs_when
    | apply logs_for_each; intros ? ].

Lemma logs_require_prop (addon : jsval) (prop addonKey : jsstring) :
  logs (require_prop addon prop addonKey).
Proof. unfold require_prop. logs_steps. Qed.

#[local] Hint Resolve logs_require_prop : logs.

Lemma logs_check_addon (addons : jsval) (addonKey : jsstring) :
  logs (check_addon addons addonKey).
Proof.
  unfold check_addon. logs_steps.
  match goal with |- logs (if ?b then _ else _) => destruct b end;
    logs_steps.
  match goal with |- logs (if ?b then _ else _) => destruct b end;
    logs_steps.
  match goal with |- logs (if ?b then _ else _) => destruct b end;
    logs_steps.
Qed.

#[local] Hint Resolve logs_check_addon : logs.

Lemma logs_validate (fileParsed : object) : logs (validate fileParsed).
Proof. unfold validate. logs_steps. Qed.

Lemma logs_resolve (fileContents : jsstring) : logs (resolve fileContents).
Proof.
  unfold resolve. apply logs_bind.
  - destruct (JSON_parse fileContents); [apply logs_ret|].
    apply logs_bind.
    + exists (Return tt),
        (fun p => [LogError (u "Error parsing melon config file located at " ++ p)]).
      split; [intros s; reflexivity | reflexivity].
    + intros _. apply logs_bind; [now apply logs_emit | intros _; apply logs_exit].
  - intros d. apply logs_bind; [apply logs_lift | intros binaryName].
    apply logs_bind; [|intros _; apply logs_validate].
    apply logs_when. now apply logs_emit.
Qed.

(** The outcome and the diagnostics of [resolve] can be read off a run in
    a state with an empty trace. *)
Lemma resolve_at (t : jsstring) (s : state) :
  resolve t s =
    (fst (resolve t (fresh (configPath s) None)),
     log_events s (trace (snd (resolve t (fresh (configPath s) None))))).
Proof.
  destruct (logs_resolve t) as (o & ev & Hw & _).
  rewrite !Hw. reflexivity.
Qed.

(** ** [rawConfig] and [setMockRawConfig] *)

Lemma rawConfig_mock (s : state) :
  mockConfig s <> [] -> rawConfig s = (Return (mockConfig s), s).
Proof.
  intros H. unfold rawConfig.
  apply str_eqb_neq in H. now rewrite H.
Qed.

Ltac run_raw :=
  unfold rawConfig, bind, hasConfig, readFileSync, bind, emit, when, log.warning,
    set_hasWarnedAboutConfig, emit, ret, bind, log_events;
  simpl; rewrite <- ?app_assoc; reflexivity.

Lemma rawConfig_file (s : state) (c : jsstring) :
  mockConfig s = [] -> file s = Some c ->
  rawConfig s = (Return c, log_events s [ExistsSync; ReadFileSync]).
Proof. destruct s; simpl; intros -> ->. run_raw. Qed.

Lemma rawConfig_absent_warned (s : state) :
  mockConfig s = [] -> file s = None -> hasWarnedAboutConfig s = true ->
  rawConfig s = (Return (u "{}"), log_events s [ExistsSync]).
Proof. destruct s; simpl; intros -> -> ->. run_raw. Qed.

Lemma rawConfig_absent_first (s : state) :
  mockConfig s = [] -> file s = None -> hasWarnedAboutConfig s = false ->
  rawConfig s =
    (Return (u "{}"),
     {| configPath := configPath s; file := None; hasWarnedAboutConfig := true;
        mockConfig := [];
        trace := trace s ++
                 [ExistsSync; LogWarning (missing_config_warning (configPath s))] |}).
Proof. destruct s; simpl; intros -> -> ->. run_raw. Qed.

(** What a logging computation leaves alone. *)
Lemma logs_frame {A} (m : M A) (s s' : state) (o : outcome A) :
  logs m -> m s = (o, s') ->
  exists evs, s' = log_events s evs /\ forallb is_diagnostic evs = true.
Proof.
  intros (o' & ev & Hw & Hev) H. rewrite Hw in H.
  injection H as _ <-. eauto.
Qed.

Lemma diagnostic_not_missing (path : jsstring) (e : event) :
  is_diagnostic e = true -> is_missing_warning path e = false.
Proof.
  destruct e; simpl; try discriminate; try reflexivity.
  intros H. apply str_eqb_eq in H. subst msg. reflexivity.
Qed.

Lemma diagnostics_not_missing (path : jsstring) (evs : list event) :
  forallb is_diagnostic evs = true -> filter (is_missing_warning path) evs = [].
Proof.
  induction evs as [|e evs IH]; simpl; [reflexivity|].
  intros H. apply andb_true_iff in H as [He Hevs].
  now rewrite (diagnostic_not_missing path e He), IH.
Qed.

Lemma keeps_once_refl (s : state) : keeps_once s s.
Proof. unfold keeps_once. auto. Qed.

Lemma keeps_once_trans (s1 s2 s3 : state) :
  keeps_once s1 s2 -> keeps_once s2 s3 -> keeps_once s1 s3.
Proof.
  intros (P1 & I1 & F1) (P2 & I2 & F2). unfold keeps_once.
  split; [congruence|]. split; [auto|].
  intros Hw. destruct (F1 Hw) as [Hw1 E1]. destruct (F2 Hw1) as [Hw2 E2].
  split; congruence.
Qed.

Lemma missing_warnings_log (s : state) (evs : list event) :
  missing_warnings (log_events s evs) =
  missing_warnings s + List.length (filter (is_missing_warning (configPath s)) evs).
Proof.
  unfold missing_warnings, log_events. simpl.
  now rewrite filter_app, length_app.
Qed.

Lemma keeps_once_log (s : state) (evs : list event) :
  filter (is_missing_warning (configPath s)) evs = [] ->
  keeps_once s (log_events s evs).
Proof.
  intros He. unfold keeps_once, warned_once.
  rewrite missing_warnings_log, He. simpl. rewrite Nat.add_0_r.
  auto.
Qed.

Lemma rawConfig_keeps_once (s s' : state) (o : outcome jsstring) :
  rawConfig s = (o, s') -> keeps_once s s'.
Proof.
  intros H.
  destruct (mockConfig s) as [|c m] eqn:Hm.
  - destruct (file s) as [contents|] eqn:Hf.
    + rewrite (rawConfig_file s _ Hm Hf) in H. injection H as _ <-.
      now apply keeps_once_log.
    + destruct (hasWarnedAboutConfig s) eqn:Hw.
      * rewrite (rawConfig_absent_warned s Hm Hf Hw) in H. injection H as _ <-.
        now apply keeps_once_log.
      * rewrite (rawConfig_absent_first s Hm Hf Hw) in H. injection H as _ <-.
        unfold keeps_once. split; [reflexivity|]. split; [|congruence].
        intros [_ H0]. specialize (H0 Hw).
        unfold warned_once, missing_warnings in *. simpl.
        rewrite filter_app, length_app, H0. simpl.
        rewrite str_eqb_refl. simpl. split; [lia | discriminate].
  - rewrite rawConfig_mock in H by (rewrite Hm; discriminate).
    injection H as _ <-. apply keeps_once_refl.
Qed.

Lemma logs_keeps_once {A} (m : M A) (s s' : state) (o : outcome A) :
  logs m -> m s = (o, s') -> keeps_once s s'.
Proof.
  intros L H. destruct (logs_frame _ _ _ _ L H) as (evs & -> & Hd).
  apply keeps_once_log. now apply diagnostics_not_missing.
Qed.

Lemma getConfig_keeps_once (s s' : state) (o : outcome value) :
  getConfig s = (o, s') -> keeps_once s s'.
Proof.
  unfold getConfig, bind. intros H.
  destruct (rawConfig s) as [[t|c|e] s1] eqn:Hr;
    pose proof (rawConfig_keeps_once _ _ _ Hr) as K1.
  - eapply keeps_once_trans; [exact K1|].
    eapply logs_keeps_once; [apply (logs_resolve t) | exact H].
  - now injection H as _ <-.
  - now injection H as _ <-.
Qed.

Lemma perform_keeps_once (config : value) (c : call) (s s' : state) (o : outcome answer) :
  perform config c s = (o, s') -> keeps_once s s'.
Proof.
  destruct c; simpl; unfold bind; intros H.
  - destruct (getConfig s) as [[v|c|e] s1] eqn:Hg;
      pose proof (getConfig_keeps_once _ _ _ Hg); now injection H as _ <-.
  - destruct (rawConfig s) as [[v|c|e] s1] eqn:Hg;
      pose proof (rawConfig_keeps_once _ _ _ Hg); now injection H as _ <-.
  - injection H as _ <-. unfold keeps_once, warned_once, missing_warnings. simpl. auto.
  - injection H as _ <-. now apply (keeps_once_log s [ExistsSync]).
  - injection H as _ <-.
    unfold keeps_once, warned_once, missing_warnings. simpl.
    rewrite filter_app, length_app. simpl. rewrite !Nat.add_0_r. auto.
  - injection H as _ <-. apply keeps_once_refl.
  - injection H as _ <-. unfold keeps_once, warned_once, missing_warnings. simpl. auto.
Qed.

Lemma perform_all_keeps_once (config : value) (cs : list call) (s s' : state)
    (o : outcome (list answer)) :
  perform_all config cs s = (o, s') -> keeps_once s s'.
Proof.
  revert s s' o. induction cs as [|c cs IH]; simpl; intros s s' o H.
  - injection H as _ <-. apply keeps_once_refl.
  - unfold bind in H.
    destruct (perform config c s) as [[a|c0|e] s1] eqn:Hp;
      pose proof (perform_keeps_once _ _ _ _ _ Hp) as K1.
    + destruct (perform_all config cs s1) as [[l|c0|e] s2] eqn:Hq;
        pose proof (IH _ _ _ Hq) as K2; injection H as _ <-;
        eapply keeps_once_trans; eauto.
    + now injection H as _ <-.
    + now injection H as _ <-.
Qed.

Lemma fresh_warned_once (path : jsstring) (contents : option jsstring) :
  warned_once (fresh path contents).
Proof. unfold warned_once, missing_warnings. simpl. auto. Qed.

Lemma run_keeps_once (path : jsstring) (contents : option jsstring) (cs : list call)
    (o : outcome (value * list answer)) (s' : state) :
  run path contents cs = (o, s') -> keeps_once (fresh path contents) s'.
Proof.
  unfold run, bind. intros H.
  destruct (getConfig (fresh path contents)) as [[v|c|e] s1] eqn:Hg;
    pose proof (getConfig_keeps_once _ _ _ Hg) as K1.
  - destruct (perform_all v cs s1) as [[l|c0|e] s2] eqn:Hq;
      pose proof (perform_all_keeps_once _ _ _ _ _ Hq) as K2; injection H as _ <-;
      eapply keeps_once_trans; eauto.
  - now injection H as _ <-.
  - now injection H as _ <-.
Qed.

(** ** The override and the cached constant *)

Lemma rawConfig_same_mock (s s' : state) (o : outcome jsstring) :
  rawConfig s = (o, s') ->
  mockConfig s' = mockConfig s /\
  (mockConfig s = [] -> exists evs, trace s' = trace s ++ ExistsSync :: evs).
Proof.
  intros H.
  destruct (mockConfig s) as [|c m] eqn:Hm.
  - destruct (file s) as [contents|] eqn:Hf.
    + rewrite (rawConfig_file s _ Hm Hf) in H. injection H as _ <-.
      simpl. split; [assumption | eauto].
    + destruct (hasWarnedAboutConfig s) eqn:Hw.
      * rewrite (rawConfig_absent_warned s Hm Hf Hw) in H. injection H as _ <-.
        simpl. split; [assumption | eauto].
      * rewrite (rawConfig_absent_first s Hm Hf Hw) in H. injection H as _ <-.
        simpl. split; [reflexivity | eauto].
  - rewrite rawConfig_mock in H by (rewrite Hm; discriminate).
    injection H as _ <-. split; [assumption | discriminate].
Qed.

Lemma getConfig_same_mock (s s' : state) (o : outcome value) :
  getConfig s = (o, s') ->
  mockConfig s' = mockConfig s /\
  (mockConfig s = [] -> exists evs, trace s' = trace s ++ ExistsSync :: evs).
Proof.
  unfold getConfig, bind. intros H.
  destruct (rawConfig s) as [[t|c|e] s1] eqn:Hr;
    destruct (rawConfig_same_mock _ _ _ Hr) as [M1 T1].
  - destruct (logs_frame _ _ _ _ (logs_resolve t) H) as (evs & -> & _).
    simpl. split; [assumption|].
    intros Hm. destruct (T1 Hm) as [evs1 ->].
    exists (evs1 ++ evs). now rewrite <- app_assoc.
  - now injection H as _ <-.
  - now injection H as _ <-.
Qed.

Lemma perform_same_mock (config : value) (c : call) (s s' : state) (o : outcome answer) :
  perform config c s = (o, s') ->
  mockConfig s' = match c with SetMockRawConfig x => x | _ => mockConfig s end.
Proof.
  destruct c; simpl; unfold bind; intros H.
  - destruct (getConfig s) as [[v|c|e] s1] eqn:Hg;
      destruct (getConfig_same_mock _ _ _ Hg) as [M1 _]; now injection H as _ <-.
  - destruct (rawConfig s) as [[v|c|e] s1] eqn:Hg;
      destruct (rawConfig_same_mock _ _ _ Hg) as [M1 _]; now injection H as _ <-.
  - now injection H as _ <-.
  - now injection H as _ <-.
  - now injection H as _ <-.
  - now injection H as _ <-.
  - now injection H as _ <-.
Qed.

Lemma perform_all_mock (config : value) (cs : list call) (s s' : state)
    (o : outcome (list answer)) :
  perform_all config cs s = (o, s') ->
  (forallb (fun c => negb (is_set_mock_empty c)) cs = true ->
   mockConfig s <> [] -> mockConfig s' <> []) /\
  (forallb (fun c => negb (is_set_mock c)) cs = true ->
   mockConfig s' = mockConfig s).
Proof.
  revert s s' o. induction cs as [|c cs IH]; simpl; intros s s' o H.
  - injection H as _ <-. auto.
  - unfold bind in H.
    assert (Hstep : forall s1 o1, perform config c s = (o1, s1) ->
      (negb (is_set_mock_empty c) = true -> mockConfig s <> [] -> mockConfig s1 <> []) /\
      (negb (is_set_mock c) = true -> mockConfig s1 = mockConfig s)).
    { intros s1 o1 Hp. pose proof (perform_same_mock _ _ _ _ _ Hp) as E.
      destruct c as [| |[|x0 x]| | | |]; simpl in *; rewrite E;
        split; intros; try discriminate; auto. }
    destruct (perform config c s) as [[a|c0|e] s1] eqn:Hp;
      destruct (Hstep _ _ eq_refl) as [N1 E1].
    + assert (Hrest : (forallb (fun c => negb (is_set_mock_empty c)) cs = true ->
                       mockConfig s1 <> [] -> mockConfig s' <> []) /\
                      (forallb (fun c => negb (is_set_mock c)) cs = true ->
                       mockConfig s' = mockConfig s1)).
      { destruct (perform_all config cs s1) as [[l|c0|e] s2] eqn:Hq;
          destruct (IH _ _ _ Hq) as [N2 E2]; injection H as _ <-; auto. }
      destruct Hrest as [N2 E2]. split; intros Hc.
      * apply andb_true_iff in Hc as [Hc1 Hc2]. auto.
      * apply andb_true_iff in Hc as [Hc1 Hc2]. rewrite E2, E1; auto.
    + injection H as _ <-. split; intros Hc; apply andb_true_iff in Hc as [Hc1 Hc2]; auto.
    + injection H as _ <-. split; intros Hc; apply andb_true_iff in Hc as [Hc1 Hc2]; auto.
Qed.

Lemma perform_all_read_config (config : value) (cs : list call) (s s' : state)
    (answers : list answer) :
  perform_all config cs s = (Return answers, s') ->
  forall i, nth_error cs i = Some ReadConfig -> nth_error answers i = Some (AValue config).
Proof.
  revert s s' answers. induction cs as [|c cs IH]; simpl; intros s s' answers H i Hi.
  - destruct i; discriminate.
  - unfold bind in H.
    destruct (perform config c s) as [[a|c0|e] s1] eqn:Hp; try discriminate.
    destruct (perform_all config cs s1) as [[l|c0|e] s2] eqn:Hq; try discriminate.
    injection H as <- <-.
    destruct i as [|i]; simpl in *.
    + injection Hi as ->. simpl in Hp. now injection Hp as <- _.
    + eapply IH; eauto.
Qed.

(** ** Objects *)

Lemma uint_chars_inj (d d' : Decimal.uint) : uint_chars d = uint_chars d' -> d = d'.
Proof.
  revert d'; induction d; destruct d'; simpl; intros H;
    try discriminate; try reflexivity;
    injection H as H; f_equal; auto.
Qed.

Lemma decimal_inj (n m : N) : decimal n = decimal m -> n = m.
Proof.
  unfold decimal. intros H. apply uint_chars_inj in H.
  now apply DecimalN.Unsigned.to_uint_inj.
Qed.

Lemma obj_lookup_none (k : jsstring) (o : object) :
  ~ In k (map fst o) -> obj_lookup k o = None.
Proof.
  induction o as [|[k' v] o IH]; simpl; [reflexivity|].
  intros H. destruct (str_eqb k k') eqn:E.
  - apply str_eqb_eq in E. subst. exfalso. auto.
  - apply IH. auto.
Qed.

Lemma obj_lookup_in (k : jsstring) (o : object) (v : value) :
  obj_lookup k o = Some v -> In (k, v) o.
Proof.
  induction o as [|[k' v'] o IH]; simpl; [discriminate|].
  destruct (str_eqb k k') eqn:E.
  - apply str_eqb_eq in E. subst. intros H. injection H as ->. now left.
  - intros H. right. auto.
Qed.

Lemma obj_lookup_some (k : jsstring) (o : object) :
  In k (map fst o) -> exists v, obj_lookup k o = Some v.
Proof.
  induction o as [|[k' v] o IH]; simpl; [contradiction|].
  intros [->|H].
  - rewrite str_eqb_refl. eauto.
  - destruct (str_eqb k k'); eauto.
Qed.

Lemma obj_lookup_replace (k k' : jsstring) (v : value) (o : object) :
  obj_lookup k (obj_replace k' v o) =
  if str_eqb k k'
  then match obj_lookup k' o with Some _ => Some v | None => None end
  else obj_lookup k o.
Proof.
  induction o as [|[k0 v0] o IH]; simpl.
  - now destruct (str_eqb k k').
  - destruct (str_eqb k' k0) eqn:E0; simpl.
    + apply str_eqb_eq in E0. subst k0.
      destruct (str_eqb k k') eqn:E; reflexivity.
    + destruct (str_eqb k k0) eqn:E1.
      * apply str_eqb_eq in E1. subst k0.
        rewrite str_eqb_sym in E0. now rewrite E0.
      * exact IH.
Qed.

Lemma obj_lookup_insert (k k' : jsstring) (v : value) (o : object) :
  obj_lookup k' o = None ->
  obj_lookup k (obj_insert k' v o) =
  if str_eqb k k' then Some v else obj_lookup k o.
Proof.
  induction o as [|[k0 v0] o IH]; simpl; intros H.
  - reflexivity.
  - destruct (str_eqb k' k0) eqn:E0; [discriminate|].
    destruct (goes_before k' k0); simpl.
    + reflexivity.
    + destruct (str_eqb k k0) eqn:E1.
      * apply str_eqb_eq in E1. subst k0.
        rewrite str_eqb_sym in E0. now rewrite E0.
      * now apply IH.
Qed.

Lemma obj_lookup_set (k k' : jsstring) (v : value) (o : object) :
  obj_lookup k (obj_set k' v o) =
  if str_eqb k k' then Some v else obj_lookup k o.
Proof.
  unfold obj_set. destruct (obj_lookup k' o) eqn:E.
  - rewrite obj_lookup_replace, E. reflexivity.
  - now apply obj_lookup_insert.
Qed.

Lemma obj_lookup_fold_set (k : jsstring) (ps target : object) :
  NoDup (map fst ps) ->
  obj_lookup k (fold_left set_entry ps target) =
  match obj_lookup k ps with
  | Some v => Some v
  | None => obj_lookup k target
  end.
Proof.
  revert target. induction ps as [|[k1 v1] ps IH]; simpl; intros target Hnd.
  - reflexivity.
  - inversion Hnd as [|? ? Hnot Hnd']; subst.
    rewrite IH by assumption. unfold set_entry at 1. simpl.
    rewrite obj_lookup_set.
    destruct (str_eqb k k1) eqn:E.
    + apply str_eqb_eq in E. subst k1.
      now rewrite (obj_lookup_none _ _ Hnot).
    + reflexivity.
Qed.

Lemma ordered_NoDup (o : object) : ordered o -> NoDup (map fst o).
Proof.
  induction o as [|[k v] o IH]; simpl; intros H.
  - constructor.
  - destruct H as [H1 H2]. constructor; [|auto].
    intros Hin. destruct (H1 _ Hin) as [Hne _]. now apply Hne.
Qed.

Lemma goes_before_irrefl (k : jsstring) : goes_before k k = false.
Proof.
  unfold goes_before. destruct (array_index k); [apply N.ltb_irrefl | reflexivity].
Qed.

(** If [k] goes before [k1], whatever may not go before [k1] may not go
    before [k] either. *)
Lemma goes_before_trans (k k1 k2 : jsstring) :
  goes_before k k1 = true -> goes_before k2 k1 = false -> goes_before k2 k = false.
Proof.
  unfold goes_before.
  destruct (array_index k) as [i|], (array_index k1) as [j|], (array_index k2) as [l|];
    try discriminate; try reflexivity.
  intros H1 H2. apply N.ltb_lt in H1. apply N.ltb_ge in H2. apply N.ltb_ge. lia.
Qed.

Lemma goes_before_asym (k k1 : jsstring) :
  goes_before k k1 = true -> goes_before k1 k = false.
Proof.
  unfold goes_before.
  destruct (array_index k) as [i|], (array_index k1) as [j|];
    try discriminate; try reflexivity.
  intros H1. apply N.ltb_lt in H1. apply N.ltb_ge. lia.
Qed.

Lemma keys_replace (k : jsstring) (v : value) (o : object) :
  map fst (obj_replace k v o) = map fst o.
Proof.
  induction o as [|[k' v'] o IH]; simpl; [reflexivity|].
  destruct (str_eqb k k'); simpl; [reflexivity | now rewrite IH].
Qed.

Lemma ordered_replace (k : jsstring) (v : value) (o : object) :
  ordered o -> ordered (obj_replace k v o).
Proof.
  induction o as [|[k' v'] o IH]; simpl; [trivial|].
  intros [H1 H2]. destruct (str_eqb k k'); simpl.
  - auto.
  - rewrite keys_replace. auto.
Qed.

Lemma keys_insert (k : jsstring) (v : value) (o : object) (x : jsstring) :
  In x (map fst (obj_insert k v o)) <-> x = k \/ In x (map fst o).
Proof.
  induction o as [|[k' v'] o IH]; simpl.
  - intuition.
  - destruct (goes_before k k'); simpl.
    + intuition.
    + rewrite IH. intuition.
Qed.

Lemma ordered_insert (k : jsstring) (v : value) (o : object) :
  ~ In k (map fst o) -> ordered o -> ordered (obj_insert k v o).
Proof.
  induction o as [|[k' v'] o IH]; simpl; intros Hnot Ho.
  - split; [contradiction | trivial].
  - destruct Ho as [H1 H2]. destruct (goes_before k k') eqn:G; simpl.
    + split; [|split; assumption].
      intros x [<-|Hx].
      * split; [intros E; apply Hnot; left; congruence|].
        now apply goes_before_asym.
      * destruct (H1 _ Hx) as [Hne Hgb]. split.
        -- intros E. apply Hnot. right. congruence.
        -- eapply goes_before_trans; eauto.
    + split; [|apply IH; auto].
      intros x Hx. apply keys_insert in Hx as [->|Hx].
      * split; [intros E; apply Hnot; left; congruence | assumption].
      * auto.
Qed.

Lemma ordered_set (k : jsstring) (v : value) (o : object) :
  ordered o -> ordered (obj_set k v o).
Proof.
  intros H. unfold obj_set. destruct (obj_lookup k o) eqn:E.
  - now apply ordered_replace.
  - apply ordered_insert; [|assumption].
    intros Hin. apply obj_lookup_some in Hin as [x Hx]. congruence.
Qed.

Lemma ordered_fold_set (ps target : object) :
  ordered target -> ordered (fold_left set_entry ps target).
Proof.
  revert target. induction ps as [|p ps IH]; simpl; intros target H; [assumption|].
  apply IH. now apply ordered_set.
Qed.

(** A key that goes before nothing is added at the end. *)
Lemma obj_insert_last (k : jsstring) (v : value) (o : object) :
  (forall k', In k' (map fst o) -> goes_before k k' = false) ->
  obj_insert k v o = o ++ [(k, v)].
Proof.
  induction o as [|[k' v'] o IH]; simpl; intros H; [reflexivity|].
  rewrite (H k') by now left. f_equal. apply IH. auto.
Qed.

Lemma ordered_app_last (o : object) (k : jsstring) (v : value) :
  ordered (o ++ [(k, v)]) ->
  ordered o /\ ~ In k (map fst o) /\
  (forall k', In k' (map fst o) -> goes_before k k' = false).
Proof.
  induction o as [|[k' v'] o IH]; simpl.
  - intros _. split; [trivial|]. split; [tauto | contradiction].
  - intros [H1 H2]. destruct (IH H2) as (I1 & I2 & I3).
    assert (Hk : In k (map fst (o ++ [(k, v)]))).
    { rewrite map_app, in_app_iff. right. now left. }
    destruct (H1 _ Hk) as [Hne Hgb].
    split; [split; [|assumption]|split].
    + intros x Hx. apply H1. rewrite map_app, in_app_iff. now left.
    + intros [E|Hin]; [congruence | contradiction].
    + intros x [<-|Hx]; [assumption | auto].
Qed.

(** Setting the properties of an ordered object one after the other, in
    their order, on an empty object builds that object again. *)
Lemma fold_set_ordered (o : object) :
  ordered o -> fold_left set_entry o [] = o.
Proof.
  induction o as [|[k v] o IH] using rev_ind; [reflexivity|].
  intros H. destruct (ordered_app_last _ _ _ H) as (H1 & H2 & H3).
  rewrite fold_left_app. simpl. rewrite (IH H1).
  unfold set_entry, obj_set. simpl.
  rewrite (obj_lookup_none _ _ H2). now apply obj_insert_last.
Qed.

(** ** What [JSON.parse] returns *)

Lemma Forall_replace (P : jsstring * value -> Prop) (Q : value -> Prop)
    (k : jsstring) (v : value) (o : object) :
  (forall k', Q v -> P (k', v)) -> Q v -> Forall P o -> Forall P (obj_replace k v o).
Proof.
  intros HP Hv. induction 1 as [|[k' v'] o Hx Ho IH]; simpl; [constructor|].
  destruct (str_eqb k k'); constructor; auto.
Qed.

Lemma Forall_insert (P : jsstring * value -> Prop) (k : jsstring) (v : value) (o : object) :
  P (k, v) -> Forall P o -> Forall P (obj_insert k v o).
Proof.
  intros Hv. induction 1 as [|[k' v'] o Hx Ho IH]; simpl.
  - constructor; [assumption | constructor].
  - destruct (goes_before k k'); constructor; auto.
Qed.

Lemma wf_set (k : jsstring) (v : value) (o : object) :
  wf v -> Forall (fun kv => wf (snd kv)) o ->
  Forall (fun kv => wf (snd kv)) (obj_set k v o).
Proof.
  intros Hv Ho. unfold obj_set. destruct (obj_lookup k o).
  - apply Forall_replace with (Q := wf); auto.
  - now apply Forall_insert.
Qed.

Lemma wf_fold_set (ps target : object) :
  Forall (fun kv => wf (snd kv)) ps ->
  Forall (fun kv => wf (snd kv)) target ->
  Forall (fun kv => wf (snd kv)) (fold_left set_entry ps target).
Proof.
  revert target. induction ps as [|[k v] ps IH]; simpl; intros target Hps Ht.
  - assumption.
  - inversion Hps; subst. apply IH; [assumption|].
    now apply wf_set.
Qed.

Ltac break_hyp H :=
  repeat match type of H with
         | context [match ?x with _ => _ end] =>
             let E := fresh "E" in destruct x eqn:E; try discriminate
         end.

Lemma parse_wf (f : nat) :
  (forall t v r, parse_value f t = Some (v, r) -> wf v) /\
  (forall acc t o r,
     ordered acc -> Forall (fun kv => wf (snd kv)) acc ->
     parse_members f acc t = Some (o, r) ->
     ordered o /\ Forall (fun kv => wf (snd kv)) o) /\
  (forall t l r, parse_elements f t = Some (l, r) -> Forall wf l).
Proof.
  induction f as [|f (IHv & IHm & IHe)].
  - repeat split; intros; discriminate.
  - split; [|split].
    + intros t v r H. simpl in H.
      unfold parse_literal, parse_number in H.
      break_hyp H; injection H as <- <-; try (constructor; fail).
      * constructor; constructor.
      * match goal with
        | Hm : parse_members _ [] _ = Some _ |- _ =>
            destruct (IHm [] _ _ _ I (Forall_nil _) Hm)
        end.
        now constructor.
      * constructor. constructor.
      * constructor. eapply IHe; eauto.
    + intros acc t o r Hacc Hwf H. simpl in H.
      break_hyp H.
      * eapply IHm; [| |exact H].
        -- now apply ordered_set.
        -- apply wf_set; [eapply IHv; eauto | assumption].
      * injection H as <- <-. split.
        -- now apply ordered_set.
        -- apply wf_set; [eapply IHv; eauto | assumption].
    + intros t l r H. simpl in H.
      break_hyp H.
      * injection H as <- <-. constructor; [eapply IHv; eauto | eapply IHe; eauto].
      * injection H as <- <-. constructor; [eapply IHv; eauto | constructor].
Qed.

Lemma JSON_parse_wf (t : jsstring) (v : value) : JSON_parse t = Some v -> wf v.
Proof.
  unfold JSON_parse. intros H.
  destruct (parse_value (S (List.length t)) t) as [[v' r]|] eqn:E; [|discriminate].
  destruct (skip_ws r); [|discriminate]. injection H as <-.
  eapply (proj1 (parse_wf _)); eauto.
Qed.

Lemma indexed_keys {A} (f : A -> value) (i : N) (l : list A) (k : jsstring) :
  In k (map fst (indexed f i l)) -> exists j, (i <= j)%N /\ k = decimal j.
Proof.
  revert i. induction l as [|x l IH]; simpl; intros i; [contradiction|].
  intros [<-|H].
  - exists i. split; [lia | reflexivity].
  - destruct (IH _ H) as (j & Hj & ->). exists j. split; [lia | reflexivity].
Qed.

Lemma indexed_NoDup {A} (f : A -> value) (i : N) (l : list A) :
  NoDup (map fst (indexed f i l)).
Proof.
  revert i. induction l as [|x l IH]; simpl; intros i; constructor; [|apply IH].
  intros H. apply indexed_keys in H as (j & Hj & E).
  apply decimal_inj in E. lia.
Qed.

Lemma own_props_NoDup (v : value) : wf v -> NoDup (map fst (own_props (Some v))).
Proof.
  intros H. destruct H; simpl; try constructor; try apply indexed_NoDup.
  now apply ordered_NoDup.
Qed.

(** ** The outcome of a resolution *)

Lemma ends_ret {A} (a : A) : ends (ret a) (Return a).
Proof. eexists. apply writes_ret. Qed.

Lemma ends_exit {A} (c : Z) : ends (@process_exit A c) (Exit c).
Proof. eexists. apply writes_exit. Qed.

Lemma ends_emit (e : event) : ends (emit e) (Return tt).
Proof. eexists. apply writes_emit. Qed.

Lemma ends_lift_inr {A} (a : A) : ends (lift (inr a)) (Return a).
Proof. apply ends_ret. Qed.

Lemma ends_lift_inl {A} (e : exn) : ends (@lift A (inl e)) (Throw e).
Proof. eexists. apply writes_throw. Qed.

Lemma ends_bind {A B} (m : M A) (k : A -> M B) (a : A) (o : outcome B) :
  ends m (Return a) -> ends (k a) o -> ends (bind m k) o.
Proof. intros [ev H] [ev' H']. eexists. eapply writes_bind_return; eauto. Qed.

Lemma ends_bind_throw {A B} (m : M A) (k : A -> M B) (e : exn) :
  ends m (Throw e) -> ends (bind m k) (Throw e).
Proof. intros [ev H]. eexists. eapply writes_bind_throw; eauto. Qed.

Lemma ends_bind_exit {A B} (m : M A) (k : A -> M B) (c : Z) :
  ends m (Exit c) -> ends (bind m k) (Exit c).
Proof. intros [ev H]. eexists. eapply writes_bind_exit; eauto. Qed.

Lemma ends_when (b : bool) (m : M unit) :
  ends m (Return tt) -> ends (when b m) (Return tt).
Proof. destruct b; simpl; [trivial | intros _; apply ends_ret]. Qed.

Lemma ends_fun {A} (m : M A) (o o' : outcome A) : ends m o -> ends m o' -> o = o'.
Proof.
  intros [ev H] [ev' H'].
  pose proof (H (fresh [] None)) as E. rewrite H' in E. congruence.
Qed.

Lemma ends_run {A} (m : M A) (o : outcome A) (s : state) :
  ends m o -> exists evs, m s = (o, log_events s evs).
Proof. intros [ev H]. rewrite H. eauto. Qed.

Lemma get_not_null (v : value) (k : jsstring) :
  v <> JNull -> get (Some v) k = inr (obj_lookup k (own_props (Some v))).
Proof. destruct v; simpl; congruence. Qed.

Lemma ends_require_prop (a : value) (prop addonKey : jsstring) :
  a <> JNull -> ends (require_prop (Some a) prop addonKey) (Return tt).
Proof.
  intros H. unfold require_prop. rewrite (get_not_null _ _ H).
  eapply ends_bind; [apply ends_lift_inr|].
  apply ends_when, ends_emit.
Qed.

Lemma examinable_null : examinable JNull = false.
Proof. reflexivity. Qed.

Lemma loose_eq_name_throws (p : jsval) (name : jsstring) :
  toString p = inl TypeError -> loose_eq_name p name = inl TypeError.
Proof.
  destruct p as [v|]; [|discriminate].
  unfold toString, loose_eq_name.
  destruct v as [| [|] | x | str | l | o]; try discriminate.
  - destruct (value_toString (JArr l)); [discriminate | reflexivity].
  - destruct (value_toString (JObj o)); [discriminate | reflexivity].
Qed.

Lemma loose_eq_name_total (p : jsval) (name : jsstring) (x : jsstring) :
  toString p = inr x -> exists b, loose_eq_name p name = inr b.
Proof.
  destruct p as [v|]; [|simpl; eauto].
  unfold toString, loose_eq_name.
  destruct v as [| [|] | y | str | l | o]; eauto.
  - destruct (value_toString (JArr l)); [eauto | discriminate].
  - destruct (value_toString (JObj o)); [eauto | discriminate].
Qed.

Lemma toString_cases (p : jsval) :
  toString p = inl TypeError \/ exists x, toString p = inr x.
Proof.
  unfold toString. destruct p as [v|]; [|eauto].
  destruct (value_toString v); eauto.
Qed.

(** One turn of the loop: it goes on exactly when the entry is
    examinable, and throws a TypeError otherwise. *)
Lemma ends_check_addon (addons : jsval) (addonKey : jsstring) (a : value) :
  get addons addonKey = inr (Some a) ->
  ends (check_addon addons addonKey)
       (if examinable a then Return tt else Throw TypeError).
Proof.
  intros Hget. unfold check_addon. rewrite Hget.
  eapply ends_bind; [apply ends_lift_inr|].
  destruct a as [| b | x | str | l | o] eqn:Ha;
    [ simpl; apply ends_bind_throw; unfold require_prop; simpl;
      apply ends_bind_throw, ends_lift_inl | .. ];
    (assert (Hnn : a <> JNull) by (subst a; discriminate);
     rewrite <- Ha;
     eapply ends_bind; [now apply ends_require_prop|];
     unfold examinable;
     rewrite !(get_not_null _ _ Hnn);
     set (p := obj_lookup (u "platform") (own_props (Some a)));
     destruct (toString_cases p) as [Ht | [xs Ht]];
     [ rewrite Ht;
       eapply ends_bind; [apply ends_lift_inr|];
       rewrite (loose_eq_name_throws _ _ Ht);
       apply ends_bind_throw, ends_lift_inl
     | rewrite Ht;
       eapply ends_bind; [apply ends_lift_inr|];
       destruct (loose_eq_name_total p (u "url") _ Ht) as [b1 ->];
       eapply ends_bind; [apply ends_lift_inr|];
       destruct b1; [now apply ends_require_prop|];
       eapply ends_bind; [apply ends_lift_inr|];
       destruct (loose_eq_name_total p (u "amo") _ Ht) as [b2 ->];
       eapply ends_bind; [apply ends_lift_inr|];
       destruct b2;
       [ eapply ends_bind; now apply ends_require_prop |];
       eapply ends_bind; [apply ends_lift_inr|];
       destruct (loose_eq_name_total p (u "github") _ Ht) as [b3 ->];
       eapply ends_bind; [apply ends_lift_inr|];
       destruct b3;
       [ eapply ends_bind; [now apply ends_require_prop|];
         eapply ends_bind; now apply ends_require_prop |];
       eapply ends_bind; [apply ends_lift_inr|];
       rewrite Ht;
       eapply ends_bind; [apply ends_lift_inr|];
       apply ends_emit ]).
Qed.

Lemma obj_lookup_NoDup (o : object) (k : jsstring) (v : value) :
  NoDup (map fst o) -> In (k, v) o -> obj_lookup k o = Some v.
Proof.
  induction o as [|[k' v'] o IH]; simpl; [contradiction|].
  intros Hnd [E|Hin].
  - injection E as -> ->. now rewrite str_eqb_refl.
  - inversion Hnd as [|? ? Hnot Hnd']; subst.
    destruct (str_eqb k k') eqn:E.
    + apply str_eqb_eq in E. subst k'. exfalso. apply Hnot.
      apply in_map_iff. exists (k, v). auto.
    + auto.
Qed.

(** The loop over the entries [l] of [addons]. *)
Lemma ends_check_addons (addons : jsval) (l : object) :
  (forall k a, In (k, a) l -> get addons k = inr (Some a)) ->
  ends (for_each (map fst l) (check_addon addons))
       (if forallb examinable (map snd l) then Return tt else Throw TypeError).
Proof.
  induction l as [|[k a] l IH]; simpl; intros H.
  - apply ends_ret.
  - pose proof (ends_check_addon addons k a (H _ _ (or_introl eq_refl))) as Hk.
    destruct (examinable a); simpl.
    + eapply ends_bind; [exact Hk|]. apply IH. intros; apply H; now right.
    + now apply ends_bind_throw.
Qed.

Lemma own_props_get (addons : jsval) (k : jsstring) (a : value) :
  NoDup (map fst (own_props addons)) ->
  In (k, a) (own_props addons) -> get addons k = inr (Some a).
Proof.
  intros Hnd Hin. unfold get.
  rewrite (obj_lookup_NoDup _ _ _ Hnd Hin).
  destruct addons as [[| | | | |]|]; try reflexivity; simpl in Hin; contradiction.
Qed.

Lemma wf_lookup (o : object) (k : jsstring) (v : value) :
  Forall (fun kv => wf (snd kv)) o -> obj_lookup k o = Some v -> wf v.
Proof.
  intros Ho H. apply obj_lookup_in in H.
  rewrite Forall_forall in Ho. exact (Ho _ H).
Qed.

Lemma indexed_wf {A} (f : A -> value) (i : N) (l : list A) :
  (forall x, In x l -> wf (f x)) ->
  Forall (fun kv => wf (snd kv)) (indexed f i l).
Proof.
  revert i. induction l as [|x l IH]; simpl; intros i H; constructor.
  - simpl. apply H. now left.
  - apply IH. intros; apply H; now right.
Qed.

Lemma own_props_wf (v : jsval) :
  (forall x, v = Some x -> wf x) -> Forall (fun kv => wf (snd kv)) (own_props v).
Proof.
  intros H. destruct v as [x|]; [|constructor].
  specialize (H x eq_refl). destruct H; simpl; try constructor.
  - apply indexed_wf. intros; constructor.
  - apply indexed_wf. intros x Hx. rewrite Forall_forall in H. auto.
  - assumption.
Qed.

Lemma defaultConfig_wf : wf defaultConfig.
Proof.
  apply (JSON_parse_wf (JSON_stringify defaultConfig)).
  vm_compute. reflexivity.
Qed.

Lemma defaultLicenseConfig_wf : wf defaultLicenseConfig.
Proof.
  apply (JSON_parse_wf (JSON_stringify defaultLicenseConfig)).
  vm_compute. reflexivity.
Qed.

Lemma copy_props_wf (target : object) (src : jsval) :
  (forall x, src = Some x -> wf x) ->
  wf (JObj target) -> wf (JObj (copy_props target src)).
Proof.
  intros Hsrc Ht. inversion Ht as [| | | | |o Ho Hall]; subst.
  constructor.
  - now apply ordered_fold_set.
  - apply wf_fold_set; [now apply own_props_wf | assumption].
Qed.

Lemma spread_wf (a b : jsval) :
  (forall x, a = Some x -> wf x) -> (forall x, b = Some x -> wf x) ->
  wf (JObj (spread [a; b])).
Proof.
  intros Ha Hb. unfold spread. simpl.
  apply copy_props_wf; [assumption|].
  apply copy_props_wf; [assumption|].
  constructor; [exact I | constructor].
Qed.

Lemma merge_defaults_wf (d : value) : wf d -> wf (JObj (merge_defaults d)).
Proof.
  intros Hd. unfold merge_defaults.
  assert (H1 : wf (JObj (spread [Some defaultConfig; Some d]))).
  { apply spread_wf; intros x E; injection E as <-;
      [apply defaultConfig_wf | assumption]. }
  inversion H1 as [| | | | |o Ho Hall]; subst.
  constructor.
  - now apply ordered_set.
  - apply wf_set; [|assumption].
    apply spread_wf.
    + intros x E; injection E as <-. apply defaultLicenseConfig_wf.
    + intros x E. eapply wf_lookup; eauto.
Qed.

Lemma ends_validate (m : object) :
  wf (JObj m) -> ends (validate m) (validate_verdict m).
Proof.
  intros Hm. inversion Hm as [| | | | |o Ho Hall]; subst.
  unfold validate, validate_verdict.
  change (get (Some (JObj m)) (u "version")) with
    (@inr exn jsval (obj_lookup (u "version") m)).
  change (get (Some (JObj m)) (u "addons")) with
    (@inr exn jsval (obj_lookup (u "addons") m)).
  eapply ends_bind; [apply ends_lift_inr|].
  destruct (get (obj_lookup (u "version") m) (u "product")) as [e|product].
  { apply ends_bind_throw, ends_lift_inl. }
  eapply ends_bind; [apply ends_lift_inr|].
  destruct (includes validProducts product); simpl.
  - eapply ends_bind; [apply ends_ret|].
    eapply ends_bind; [apply ends_lift_inr|].
    set (addons := obj_lookup (u "addons") m).
    assert (Hnd : NoDup (map fst (own_props addons))).
    { subst addons. destruct (obj_lookup (u "addons") m) as [x|] eqn:E.
      - apply own_props_NoDup. eapply wf_lookup; eauto.
      - constructor. }
    pose proof (ends_check_addons addons (own_props addons)
                  (fun k a => own_props_get addons k a Hnd)) as Hloop.
    destruct (forallb examinable (map snd (own_props addons))).
    + eapply ends_bind; [exact Hloop | apply ends_ret].
    + now apply ends_bind_throw.
  - destruct (toString product) as [e|p].
    + apply ends_bind_throw, ends_bind_throw, ends_lift_inl.
    + apply ends_bind_exit.
      eapply ends_bind; [apply ends_lift_inr|].
      eapply ends_bind; [apply ends_emit | apply ends_exit].
Qed.

(** [resolve] ends as [verdict] says, and does nothing but log. *)
Lemma ends_resolve (t : jsstring) : ends (resolve t) (verdict t).
Proof.
  unfold resolve, verdict.
  destruct (JSON_parse t) as [d|] eqn:Hp.
  - pose proof (JSON_parse_wf _ _ Hp) as Hd.
    eapply ends_bind; [apply ends_ret|].
    assert (Hgo : d <> JNull ->
                  ends (binaryName <- lift (get (Some d) (u "binaryName"));;
                        when (negb (truthy binaryName)) (log.warning binaryName_warning);;
                        validate (merge_defaults d))
                       (validate_verdict (merge_defaults d))).
    { intros Hnn. rewrite (get_not_null _ _ Hnn).
      eapply ends_bind; [apply ends_lift_inr|].
      eapply ends_bind; [apply ends_when, ends_emit|].
      apply ends_validate. now apply merge_defaults_wf. }
    destruct d; try (apply Hgo; discriminate).
    apply ends_bind_throw, ends_lift_inl.
  - apply ends_bind_exit.
    eapply ends_bind.
    + exists (fun p => [LogError (u "Error parsing melon config file located at " ++ p)]).
      intros s. reflexivity.
    + eapply ends_bind; [apply ends_emit | apply ends_exit].
Qed.

Lemma resolve_verdict (t : jsstring) (s : state) : fst (resolve t s) = verdict t.
Proof.
  destruct (ends_run _ _ s (ends_resolve t)) as [evs ->]. reflexivity.
Qed.

(** ** The merge *)

Lemma spread_over (base : value) (src : jsval) :
  wf base ->
  (exists o, base = JObj o) ->
  spread [Some base; src] = fold_left set_entry (own_props src) (own_props (Some base)).
Proof.
  intros Hb [o ->]. unfold spread, copy_props. simpl.
  inversion Hb; subst. now rewrite fold_set_ordered.
Qed.

Lemma spread_lookup (base : value) (src : jsval) (k : jsstring) :
  wf base -> (exists o, base = JObj o) ->
  (forall x, src = Some x -> wf x) ->
  obj_lookup k (spread [Some base; src]) =
  match obj_lookup k (own_props src) with
  | Some v => Some v
  | None => obj_lookup k (own_props (Some base))
  end.
Proof.
  intros Hb Ho Hs. rewrite spread_over by assumption.
  apply obj_lookup_fold_set.
  destruct src as [x|]; [|constructor].
  apply own_props_NoDup. auto.
Qed.

Lemma merge_defaults_lookup (d : value) (k : jsstring) :
  wf d -> k <> u "license" ->
  obj_lookup k (merge_defaults d) =
  match obj_lookup k (own_props (Some d)) with
  | Some v => Some v
  | None => obj_lookup k default_props
  end.
Proof.
  intros Hd Hk. unfold merge_defaults. cbv zeta.
  rewrite obj_lookup_set.
  apply str_eqb_neq in Hk. rewrite Hk.
  apply spread_lookup; [apply defaultConfig_wf | now eexists |].
  intros x E. now injection E as <-.
Qed.

Lemma merge_defaults_license (d : value) :
  wf d ->
  obj_lookup (u "license") (merge_defaults d) =
    Some (JObj (spread [Some defaultLicenseConfig; Some (license_source d)])) /\
  wf (license_source d).
Proof.
  intros Hd. unfold merge_defaults. cbv zeta.
  rewrite obj_lookup_set, str_eqb_refl.
  assert (E0 : obj_lookup (u "license") (spread [Some defaultConfig; Some d]) =
               match obj_lookup (u "license") (own_props (Some d)) with
               | Some v => Some v
               | None => obj_lookup (u "license") (own_props (Some defaultConfig))
               end).
  { apply spread_lookup; [apply defaultConfig_wf | now eexists |].
    intros x E. now injection E as <-. }
  rewrite E0.
  unfold license_source.
  destruct (obj_lookup (u "license") (own_props (Some d))) as [v|] eqn:E.
  - split; [reflexivity|].
    eapply wf_lookup; [|exact E]. apply own_props_wf.
    intros x Ex. now injection Ex as <-.
  - split; [reflexivity | apply defaultLicenseConfig_wf].
Qed.

Lemma resolve_returns (t : jsstring) (s s' : state) (d config : value) :
  JSON_parse t = Some d ->
  resolve t s = (Return config, s') ->
  config = JObj (merge_defaults d) /\ d <> JNull.
Proof.
  intros Hp H. pose proof (resolve_verdict t s) as V.
  rewrite H in V. simpl in V. unfold verdict in V. rewrite Hp in V.
  assert (Hv : forall m, Return config = validate_verdict m -> config = JObj m).
  { intros m. unfold validate_verdict.
    destruct (get _ _); [discriminate|].
    destruct (includes _ _).
    - destruct (forallb _ _); [|discriminate]. congruence.
    - destruct (toString _); discriminate. }
  destruct d; try discriminate; (split; [now apply Hv | discriminate]).
Qed.

(** ** Reading back what [JSON.stringify] wrote *)

Lemma number_eqb_eq (x y : number) : number_eqb x y = true -> x = y.
Proof.
  destruct x, y; simpl; try discriminate; intros H.
  - apply Bool.eqb_prop in H. congruence.
  - apply Bool.eqb_prop in H. congruence.
  - reflexivity.
  - apply andb_true_iff in H as [H He]. apply andb_true_iff in H as [Hs Hm].
    apply Bool.eqb_prop in Hs. apply Pos.eqb_eq in Hm. apply Z.eqb_eq in He.
    congruence.
Qed.

Lemma rest_ok_digit (c : char) (r : jsstring) :
  rest_ok (c :: r) ->
  is_digit c = false /\ N.eqb c 46 = false /\ N.eqb c 101 = false /\ N.eqb c 69 = false.
Proof.
  simpl. unfold number_char. intros H.
  apply orb_false_iff in H as [H H4]. apply orb_false_iff in H as [H H3].
  apply orb_false_iff in H as [H1 H2]. auto.
Qed.

Lemma span_digits_app (s rest : jsstring) :
  rest_ok rest ->
  span_digits (s ++ rest) = (fst (span_digits s), snd (span_digits s) ++ rest).
Proof.
  intros H. induction s as [|c s IH]; simpl.
  - destruct rest as [|c r]; [reflexivity|].
    destruct (rest_ok_digit _ _ H) as (H1 & _). simpl. now rewrite H1.
  - destruct (is_digit c); [|reflexivity].
    rewrite IH. now destruct (span_digits s).
Qed.

Lemma lex_int_app (s rest : jsstring) (i : list N) (r : jsstring) :
  rest_ok rest -> lex_int s = Some (i, r) -> lex_int (s ++ rest) = Some (i, r ++ rest).
Proof.
  intros H. destruct s as [|c s]; [discriminate|].
  change ((c :: s) ++ rest) with (c :: (s ++ rest)). unfold lex_int.
  destruct (N.eqb c 48).
  - intros E. now injection E as <- <-.
  - destruct (is_digit c) eqn:Hd; [|discriminate].
    intros E. injection E as E.
    change (c :: s ++ rest) with ((c :: s) ++ rest).
    rewrite (span_digits_app _ _ H).
    replace (span_digits (c :: s)) with (i, r) by (symmetry; exact E).
    reflexivity.
Qed.

Lemma lex_frac_app (s rest : jsstring) (f : list N) (r : jsstring) :
  rest_ok rest -> lex_frac s = Some (f, r) -> lex_frac (s ++ rest) = Some (f, r ++ rest).
Proof.
  intros H. destruct s as [|c s]; simpl.
  - intros E. injection E as <- <-.
    destruct rest as [|c r]; [reflexivity|].
    destruct (rest_ok_digit _ _ H) as (_ & H2 & _). simpl. now rewrite H2.
  - destruct (N.eqb c 46).
    + rewrite (span_digits_app s rest H).
      destruct (span_digits s) as [ds r0]. simpl.
      destruct ds; [discriminate|]. intros E. now injection E as <- <-.
    + intros E. now injection E as <- <-.
Qed.

Lemma lex_exp_digits_app (neg : bool) (s rest : jsstring) e (r : jsstring) :
  rest_ok rest -> lex_exp_digits neg s = Some (e, r) ->
  lex_exp_digits neg (s ++ rest) = Some (e, r ++ rest).
Proof.
  intros H. unfold lex_exp_digits. rewrite (span_digits_app s rest H).
  destruct (span_digits s) as [ds r0]. simpl.
  destruct ds; [discriminate|]. intros E. now injection E as <- <-.
Qed.

Lemma lex_exp_app (s rest : jsstring) e (r : jsstring) :
  rest_ok rest -> lex_exp s = Some (e, r) -> lex_exp (s ++ rest) = Some (e, r ++ rest).
Proof.
  intros H. destruct s as [|c s]; simpl.
  - intros E. injection E as <- <-.
    destruct rest as [|c r]; [reflexivity|].
    destruct (rest_ok_digit _ _ H) as (_ & _ & H3 & H4). simpl. now rewrite H3, H4.
  - destruct (N.eqb c 101 || N.eqb c 69).
    + destruct s as [|sg s]; simpl; [discriminate|].
      destruct (N.eqb sg 43); [now apply lex_exp_digits_app|].
      destruct (N.eqb sg 45); [now apply lex_exp_digits_app|].
      apply (lex_exp_digits_app false (sg :: s) rest e r H).
    + intros E. now injection E as <- <-.
Qed.

Lemma lex_number_app (s rest : jsstring) (k : numtok) (r : jsstring) :
  rest_ok rest -> lex_number s = Some (k, r) -> lex_number (s ++ rest) = Some (k, r ++ rest).
Proof.
  intros H. unfold lex_number.
  assert (Hs : lex_sign (s ++ rest) =
               match s with
               | [] => lex_sign rest
               | _ => (fst (lex_sign s), snd (lex_sign s) ++ rest)
               end).
  { destruct s as [|c s]; [reflexivity|]. simpl. now destruct (N.eqb c 45). }
  destruct s as [|c s]; [discriminate|]. rewrite Hs.
  destruct (lex_sign (c :: s)) as [neg t1]. simpl fst. simpl snd.
  destruct (lex_int t1) as [[i t2]|] eqn:Ei; [|discriminate].
  rewrite (lex_int_app _ _ _ _ H Ei).
  destruct (lex_frac t2) as [[f t3]|] eqn:Ef; [|discriminate].
  rewrite (lex_frac_app _ _ _ _ H Ef).
  destruct (lex_exp t3) as [[e t4]|] eqn:Ee; [|discriminate].
  rewrite (lex_exp_app _ _ _ _ H Ee).
  intros E. now injection E as <- <-.
Qed.

(** A number token starts with a minus sign or a digit. *)
Lemma lex_number_head (s : jsstring) (k : numtok) (r : jsstring) :
  lex_number s = Some (k, r) ->
  exists c s', s = c :: s' /\ (c = 45%N \/ is_digit c = true).
Proof.
  unfold lex_number. destruct s as [|c s]; [discriminate|]. simpl.
  intros H. exists c, s. split; [reflexivity|].
  destruct (N.eqb_spec c 45) as [->|Hc]; [now left|]. right.
  simpl in H. destruct (N.eqb c 48) eqn:E0.
  - apply N.eqb_eq in E0. now subst.
  - destruct (is_digit c); [reflexivity | discriminate].
Qed.

Lemma parse_chars_plain (c : char) (t : jsstring) :
  N.eqb c 34 = false -> N.eqb c 92 = false -> N.ltb c 32 = false ->
  parse_chars (c :: t) = cons_fst c (parse_chars t).
Proof. intros H1 H2 H3. simpl. now rewrite H1, H2, H3. Qed.

Lemma hex_val_hex_char (d : N) : (d < 16)%N -> hex_val (hex_char d) = Some d.
Proof.
  intros H. unfold hex_char, hex_val, is_digit.
  destruct (N.ltb_spec d 10) as [Hd|Hd].
  - replace (N.leb 48 (d + 48)) with true by (symmetry; apply N.leb_le; lia).
    replace (N.leb (d + 48) 57) with true by (symmetry; apply N.leb_le; lia).
    simpl. f_equal. lia.
  - replace (N.leb (d + 87) 57) with false by (symmetry; apply N.leb_gt; lia).
    rewrite andb_false_r.
    replace (N.leb 97 (d + 87)) with true by (symmetry; apply N.leb_le; lia).
    replace (N.leb (d + 87) 102) with true by (symmetry; apply N.leb_le; lia).
    simpl. f_equal. lia.
Qed.

Lemma hex_digits (c : N) :
  (c < 65536)%N ->
  ((((c / 4096 mod 16) * 16 + c / 256 mod 16) * 16 + c / 16 mod 16) * 16 + c mod 16 = c)%N.
Proof.
  intros H.
  pose proof (N.Div0.div_mod c 16) as E1.
  pose proof (N.Div0.div_mod (c / 16) 16) as E2.
  rewrite N.Div0.div_div in E2. change (16 * 16)%N with 256%N in E2.
  pose proof (N.Div0.div_mod (c / 256) 16) as E3.
  rewrite N.Div0.div_div in E3. change (256 * 16)%N with 4096%N in E3.
  assert (H4 : (c / 4096 < 16)%N) by (apply N.Div0.div_lt_upper_bound; simpl; lia).
  rewrite (N.mod_small (c / 4096) 16) by assumption.
  lia.
Qed.

Lemma parse_unicode_escape (c : char) (t : jsstring) :
  (c < 65536)%N ->
  parse_chars (unicode_escape c ++ t) = cons_fst c (parse_chars t).
Proof.
  intros H. unfold unicode_escape.
  change (parse_chars ([92; 117; hex_char (c / 4096 mod 16); hex_char (c / 256 mod 16);
                        hex_char (c / 16 mod 16); hex_char (c mod 16)]%N ++ t))
    with (match hex4 (hex_char (c / 4096 mod 16)) (hex_char (c / 256 mod 16))
                     (hex_char (c / 16 mod 16)) (hex_char (c mod 16)) with
          | Some x => cons_fst x (parse_chars t)
          | None => None
          end).
  unfold hex4.
  rewrite !hex_val_hex_char by (apply N.mod_lt; discriminate).
  now rewrite hex_digits.
Qed.

Lemma parse_quote_char (c : char) (t : jsstring) :
  parse_chars (quote_char c ++ t) = cons_fst c (parse_chars t).
Proof.
  unfold quote_char.
  destruct (N.eqb_spec c 8) as [->|H8]; [reflexivity|].
  destruct (N.eqb_spec c 9) as [->|H9]; [reflexivity|].
  destruct (N.eqb_spec c 10) as [->|H10]; [reflexivity|].
  destruct (N.eqb_spec c 12) as [->|H12]; [reflexivity|].
  destruct (N.eqb_spec c 13) as [->|H13]; [reflexivity|].
  destruct (N.eqb_spec c 34) as [->|H34]; [reflexivity|].
  destruct (N.eqb_spec c 92) as [->|H92]; [reflexivity|].
  destruct (N.ltb c 32 || is_lead c || is_trail c) eqn:E.
  - apply parse_unicode_escape.
    unfold is_lead, is_trail in E.
    apply orb_true_iff in E as [E|E]; [apply orb_true_iff in E as [E|E]|].
    + apply N.ltb_lt in E. lia.
    + apply andb_true_iff in E as [_ E]. apply N.leb_le in E. lia.
    + apply andb_true_iff in E as [_ E]. apply N.leb_le in E. lia.
  - apply orb_false_iff in E as [E _]. apply orb_false_iff in E as [E _].
    apply parse_chars_plain; [now apply N.eqb_neq | now apply N.eqb_neq | exact E].
Qed.

Lemma parse_surrogate (c : char) (t : jsstring) :
  is_lead c = true \/ is_trail c = true ->
  parse_chars (c :: t) = cons_fst c (parse_chars t).
Proof.
  intros H.
  assert (Hc : (55296 <= c)%N).
  { unfold is_lead, is_trail in H.
    destruct H as [H|H]; apply andb_true_iff in H as [H _]; apply N.leb_le in H; lia. }
  apply parse_chars_plain.
  - apply N.eqb_neq. lia.
  - apply N.eqb_neq. lia.
  - apply N.ltb_ge. lia.
Qed.

Lemma quote_chars_cons (c d : char) (s2 : jsstring) :
  quote_chars (c :: d :: s2) =
  if is_lead c && is_trail d then c :: d :: quote_chars s2
  else quote_char c ++ quote_chars (d :: s2).
Proof. reflexivity. Qed.

Lemma parse_quote_chars_len (n : nat) (s rest : jsstring) :
  List.length s <= n ->
  parse_chars (quote_chars s ++ 34%N :: rest) = Some (s, rest).
Proof.
  revert s. induction n as [|n IH]; intros s Hn.
  - destruct s; [reflexivity | simpl in Hn; lia].
  - destruct s as [|c [|d s2]].
    + reflexivity.
    + simpl quote_chars. rewrite parse_quote_char. reflexivity.
    + simpl in Hn. rewrite quote_chars_cons.
      destruct (is_lead c && is_trail d) eqn:E.
      * apply andb_true_iff in E as [E1 E2].
        change ((c :: d :: quote_chars s2) ++ 34%N :: rest)
          with (c :: d :: (quote_chars s2 ++ 34%N :: rest)).
        rewrite (parse_surrogate c) by now left.
        rewrite (parse_surrogate d) by now right.
        rewrite IH by lia. reflexivity.
      * rewrite <- app_assoc, parse_quote_char.
        rewrite (IH (d :: s2)) by (simpl; lia). reflexivity.
Qed.

Lemma parse_quote_chars (s rest : jsstring) :
  parse_chars (quote_chars s ++ 34%N :: rest) = Some (s, rest).
Proof. now apply (parse_quote_chars_len (List.length s)). Qed.

Lemma skip_ws_idem (t : jsstring) : skip_ws (skip_ws t) = skip_ws t.
Proof.
  induction t as [|c t IH]; [reflexivity|]. simpl.
  destruct (is_ws c) eqn:E; [exact IH|]. simpl. now rewrite E.
Qed.

Lemma skip_ws_newline (n : nat) (t : jsstring) : skip_ws (newline n ++ t) = skip_ws t.
Proof. unfold newline. simpl. induction n as [|n IH]; [reflexivity | exact IH]. Qed.

Lemma parse_value_skip (f : nat) (t : jsstring) :
  parse_value f t = parse_value f (skip_ws t).
Proof. destruct f; [reflexivity|]. simpl. now rewrite skip_ws_idem. Qed.

Lemma parse_value_newline (f n : nat) (t : jsstring) :
  parse_value f (newline n ++ t) = parse_value f t.
Proof.
  rewrite parse_value_skip, skip_ws_newline. symmetry. apply parse_value_skip.
Qed.

Lemma parse_value_space (f : nat) (t : jsstring) :
  parse_value f (32%N :: t) = parse_value f t.
Proof.
  rewrite parse_value_skip. change (skip_ws (32%N :: t)) with (skip_ws t).
  symmetry. apply parse_value_skip.
Qed.

Lemma parse_value_string (f : nat) (t1 : jsstring) :
  parse_value (S f) (34%N :: t1) =
  match parse_chars t1 with
  | Some (s, r) => Some (JStr s, r)
  | None => None
  end.
Proof. reflexivity. Qed.

Lemma parse_value_array (f : nat) (t1 : jsstring) :
  parse_value (S f) (91%N :: t1) =
  match skip_ws t1 with
  | c' :: t2 =>
      if N.eqb c' 93 then Some (JArr [], t2)
      else match parse_elements f t1 with
           | Some (l, r) => Some (JArr l, r)
           | None => None
           end
  | [] => None
  end.
Proof. reflexivity. Qed.

Lemma parse_value_object (f : nat) (t1 : jsstring) :
  parse_value (S f) (123%N :: t1) =
  match skip_ws t1 with
  | c' :: t2 =>
      if N.eqb c' 125 then Some (JObj [], t2)
      else match parse_members f [] t1 with
           | Some (o, r) => Some (JObj o, r)
           | None => None
           end
  | [] => None
  end.
Proof. reflexivity. Qed.

Lemma parse_value_number (f : nat) (c : char) (t1 : jsstring) :
  c = 45%N \/ is_digit c = true ->
  parse_value (S f) (c :: t1) = parse_number (c :: t1).
Proof.
  intros [->|H]; [reflexivity|].
  unfold is_digit in H. apply andb_true_iff in H as [H1 H2].
  apply N.leb_le in H1. apply N.leb_le in H2.
  cbn [parse_value skip_ws]. unfold is_ws.
  repeat match goal with
         | |- context [N.eqb c ?k] =>
             replace (N.eqb c k) with false by (symmetry; apply N.eqb_neq; lia)
         end.
  cbn [orb]. cbv beta iota.
  repeat match goal with
         | |- context [N.eqb c ?k] =>
             replace (N.eqb c k) with false by (symmetry; apply N.eqb_neq; lia)
         end.
  reflexivity.
Qed.

Lemma parse_elements_eq (f : nat) (t : jsstring) :
  parse_elements (S f) t =
  match parse_value f t with
  | Some (v, t1) =>
      match skip_ws t1 with
      | c :: t2 =>
          if N.eqb c 44 then
            match parse_elements f t2 with
            | Some (l, r) => Some (v :: l, r)
            | None => None
            end
          else if N.eqb c 93 then Some ([v], t2)
          else None
      | [] => None
      end
  | None => None
  end.
Proof. reflexivity. Qed.

Lemma parse_members_eq (f : nat) (acc : object) (t : jsstring) :
  parse_members (S f) acc t =
  match skip_ws t with
  | c :: t1 =>
      if N.eqb c 34 then
        match parse_chars t1 with
        | Some (k, t2) => parse_member_value f acc k t2
        | None => None
        end
      else None
  | [] => None
  end.
Proof. reflexivity. Qed.

Lemma stringify_head (ind : nat) (v : value) :
  stable v = true ->
  exists c t, stringify ind v = c :: t /\ is_ws c = false /\
              N.eqb c 93 = false /\ N.eqb c 125 = false /\
              (forall x, v = JNum x -> c = 45%N \/ is_digit c = true).
Proof.
  intros Hs. destruct v as [| [|] | x | str | l | o].
  - eexists. eexists. split; [reflexivity|]. repeat split; discriminate.
  - eexists. eexists. split; [reflexivity|]. repeat split; discriminate.
  - eexists. eexists. split; [reflexivity|]. repeat split; discriminate.
  - simpl in Hs. unfold number_stable in Hs. simpl.
    destruct (lex_number (stringify_number x)) as [[k r]|] eqn:E; [|discriminate].
    destruct (lex_number_head _ _ _ E) as (c & s' & -> & Hc).
    exists c, s'. split; [reflexivity|].
    assert (Hr : (c = 45 \/ 48 <= c <= 57)%N).
    { destruct Hc as [->|Hc]; [now left|]. right.
      unfold is_digit in Hc. apply andb_true_iff in Hc as [H1 H2].
      apply N.leb_le in H1. apply N.leb_le in H2. lia. }
    unfold is_ws.
    repeat match goal with
           | |- context [N.eqb c ?k] =>
               replace (N.eqb c k) with false by (symmetry; apply N.eqb_neq; lia)
           end.
    repeat split; auto.
  - eexists. eexists. split; [reflexivity|]. repeat split; discriminate.
  - destruct l; eexists; eexists; (split; [reflexivity|]); repeat split; discriminate.
  - destruct o; eexists; eexists; (split; [reflexivity|]); repeat split; discriminate.
Qed.

Lemma stringify_arr (ind : nat) (x : value) (xs : list value) (rest : jsstring) :
  stringify ind (JArr (x :: xs)) ++ rest =
  91%N :: newline (2 + ind) ++ stringify (2 + ind) x ++ elements_tail (2 + ind) ind xs rest.
Proof.
  unfold elements_tail. cbn [stringify map join_lines].
  rewrite <- !app_comm_cons, <- !app_assoc. reflexivity.
Qed.

Lemma elements_tail_cons (n ind : nat) (y : value) (ys : list value) (rest : jsstring) :
  elements_tail n ind (y :: ys) rest =
  44%N :: newline n ++ stringify n y ++ elements_tail n ind ys rest.
Proof.
  unfold elements_tail. cbn [map flat_map].
  rewrite <- !app_comm_cons, <- !app_assoc. reflexivity.
Qed.

Lemma stringify_obj (ind : nat) (kx : jsstring * value) (xs : object) (rest : jsstring) :
  stringify ind (JObj (kx :: xs)) ++ rest =
  123%N :: newline (2 + ind) ++ quote (fst kx) ++ [58%N; 32%N] ++
  stringify (2 + ind) (snd kx) ++ members_tail (2 + ind) ind xs rest.
Proof.
  unfold members_tail. cbn [stringify map join_lines]. unfold member.
  rewrite <- !app_comm_cons, <- !app_assoc. reflexivity.
Qed.

Lemma members_tail_cons (n ind : nat) (ky : jsstring * value) (ys : object)
    (rest : jsstring) :
  members_tail n ind (ky :: ys) rest =
  44%N :: newline n ++ quote (fst ky) ++ [58%N; 32%N] ++
  stringify n (snd ky) ++ members_tail n ind ys rest.
Proof.
  unfold members_tail. cbn [map flat_map]. unfold member.
  rewrite <- !app_comm_cons, <- !app_assoc. reflexivity.
Qed.

Lemma rest_ok_elements_tail (n ind : nat) (xs : list value) (rest : jsstring) :
  rest_ok (elements_tail n ind xs rest).
Proof. destruct xs; reflexivity. Qed.

Lemma rest_ok_members_tail (n ind : nat) (xs : object) (rest : jsstring) :
  rest_ok (members_tail n ind xs rest).
Proof. destruct xs; reflexivity. Qed.

Lemma skip_ws_head (c : char) (t : jsstring) : is_ws c = false -> skip_ws (c :: t) = c :: t.
Proof. intros H. simpl. now rewrite H. Qed.

Lemma parse_stringify_elements (n ind : nat) (rest : jsstring) (xs : list value) :
  forall (x : value) (f : nat),
    reads_back x -> Forall reads_back xs ->
    S (size x) + fold_right (fun y a => S (size y) + a) 0 xs <= f ->
    parse_elements f (newline n ++ stringify n x ++ elements_tail n ind xs rest) =
    Some (x :: xs, rest).
Proof.
  induction xs as [|y ys IH]; intros x f Hx Hxs Hf.
  - destruct f as [|f1]; [simpl in Hf; lia|].
    rewrite parse_elements_eq, parse_value_newline.
    rewrite (Hx n _ f1 (rest_ok_elements_tail n ind [] rest)) by (simpl in Hf; lia).
    unfold elements_tail. cbn [map flat_map app].
    rewrite skip_ws_newline. reflexivity.
  - destruct f as [|f1]; [simpl in Hf; lia|].
    rewrite parse_elements_eq, parse_value_newline.
    rewrite (Hx n _ f1 (rest_ok_elements_tail n ind (y :: ys) rest))
      by (simpl in Hf; lia).
    rewrite elements_tail_cons.
    rewrite skip_ws_head by reflexivity. cbv beta iota.
    change (N.eqb 44 44) with true. cbv beta iota.
    inversion Hxs as [|? ? Hy Hys]; subst.
    rewrite (IH y f1 Hy Hys) by (simpl in Hf; simpl; lia).
    reflexivity.
Qed.

Lemma parse_stringify_members (n ind : nat) (rest : jsstring) (xs : object) :
  forall (kx : jsstring * value) (acc : object) (f : nat),
    reads_back (snd kx) -> Forall (fun kv => reads_back (snd kv)) xs ->
    S (size (snd kx)) + fold_right (fun kv a => S (size (snd kv)) + a) 0 xs <= f ->
    parse_members f acc
      (newline n ++ quote (fst kx) ++ [58%N; 32%N] ++ stringify n (snd kx) ++
       members_tail n ind xs rest) =
    Some (fold_left set_entry (kx :: xs) acc, rest).
Proof.
  induction xs as [|ky ys IH]; intros kx acc f Hx Hxs Hf.
  - destruct f as [|f1]; [simpl in Hf; lia|].
    rewrite parse_members_eq, skip_ws_newline.
    unfold quote. rewrite <- app_comm_cons, <- app_assoc.
    rewrite skip_ws_head by reflexivity. cbv beta iota.
    change (N.eqb 34 34) with true. cbv beta iota.
    change ([34%N] ++ [58%N; 32%N] ++ stringify n (snd kx) ++ members_tail n ind [] rest)
      with (34%N :: 58%N :: 32%N :: stringify n (snd kx) ++ members_tail n ind [] rest).
    rewrite parse_quote_chars. unfold parse_member_value.
    rewrite skip_ws_head by reflexivity. cbv beta iota.
    change (N.eqb 58 58) with true. cbv beta iota.
    rewrite parse_value_space.
    rewrite (Hx n _ f1 (rest_ok_members_tail n ind [] rest)) by (simpl in Hf; lia).
    unfold members_tail. cbn [map flat_map app].
    rewrite skip_ws_newline. reflexivity.
  - destruct f as [|f1]; [simpl in Hf; lia|].
    rewrite parse_members_eq, skip_ws_newline.
    unfold quote at 1. rewrite <- app_comm_cons, <- app_assoc.
    rewrite skip_ws_head by reflexivity. cbv beta iota.
    change (N.eqb 34 34) with true. cbv beta iota.
    change ([34%N] ++ [58%N; 32%N] ++ stringify n (snd kx) ++
            members_tail n ind (ky :: ys) rest)
      with (34%N :: 58%N :: 32%N :: stringify n (snd kx) ++
            members_tail n ind (ky :: ys) rest).
    rewrite parse_quote_chars. unfold parse_member_value.
    rewrite skip_ws_head by reflexivity. cbv beta iota.
    change (N.eqb 58 58) with true. cbv beta iota.
    rewrite parse_value_space.
    rewrite (Hx n _ f1 (rest_ok_members_tail n ind (ky :: ys) rest))
      by (simpl in Hf; lia).
    rewrite members_tail_cons.
    rewrite skip_ws_head by reflexivity. cbv beta iota.
    change (N.eqb 44 44) with true. cbv beta iota.
    inversion Hxs as [|? ? Hy Hys]; subst.
    rewrite (IH ky _ f1 Hy Hys) by (simpl in Hf; simpl; lia).
    reflexivity.
Qed.

Lemma Forall_reads_back (l : list value) :
  Forall (fun v => wf v -> stable v = true -> reads_back v) l ->
  Forall wf l -> forallb stable l = true -> Forall reads_back l.
Proof.
  induction 1 as [|x l Hx Hl IH]; intros Hw Hs; constructor.
  - inversion Hw; subst. simpl in Hs. apply andb_true_iff in Hs as [Hs _]. auto.
  - inversion Hw; subst. simpl in Hs. apply andb_true_iff in Hs as [_ Hs]. auto.
Qed.

Lemma Forall_reads_back_members (o : object) :
  Forall (fun kv => wf (snd kv) -> stable (snd kv) = true -> reads_back (snd kv)) o ->
  Forall (fun kv => wf (snd kv)) o ->
  forallb (fun kv => stable (snd kv)) o = true ->
  Forall (fun kv => reads_back (snd kv)) o.
Proof.
  induction 1 as [|x l Hx Hl IH]; intros Hw Hs; constructor.
  - inversion Hw; subst. simpl in Hs. apply andb_true_iff in Hs as [Hs _]. auto.
  - inversion Hw; subst. simpl in Hs. apply andb_true_iff in Hs as [_ Hs]. auto.
Qed.

Lemma skip_ws_stringify (n ind : nat) (x : value) (rest : jsstring) :
  stable x = true ->
  exists c t,
    skip_ws (newline n ++ stringify ind x ++ rest) = c :: t /\
    N.eqb c 93 = false /\ N.eqb c 125 = false.
Proof.
  intros Hs. destruct (stringify_head ind x Hs) as (c & t & E & Hws & H93 & H125 & _).
  exists c, (t ++ rest). rewrite skip_ws_newline, E. simpl app.
  rewrite skip_ws_head by assumption. auto.
Qed.

(** [JSON.parse] reads back what [JSON.stringify] wrote, for a value
    whose objects are in property order and whose numbers are stable. *)
Lemma parse_stringify (v : value) : wf v -> stable v = true -> reads_back v.
Proof.
  induction v as [| b | x | s | l IH | o IH] using value_induction;
    intros Hw Hs ind rest f Hrest Hf.
  - destruct f as [|f1]; [simpl in Hf; lia | reflexivity].
  - destruct f as [|f1]; [simpl in Hf; lia|]. destruct b; reflexivity.
  - destruct f as [|f1]; [simpl in Hf; lia|].
    destruct (stringify_head ind (JNum x) Hs) as (c & t & E & _ & _ & _ & Hc).
    rewrite E. simpl app. rewrite (parse_value_number f1 c _ (Hc x eq_refl)).
    change (c :: t ++ rest) with ((c :: t) ++ rest). rewrite <- E.
    simpl in Hs. unfold number_stable in Hs. simpl stringify.
    destruct (lex_number (stringify_number x)) as [[k r]|] eqn:El; [|discriminate].
    destruct r; [|discriminate]. apply number_eqb_eq in Hs.
    unfold parse_number. rewrite (lex_number_app _ _ _ _ Hrest El).
    simpl. now rewrite Hs.
  - destruct f as [|f1]; [simpl in Hf; lia|].
    simpl stringify. unfold quote. rewrite <- app_comm_cons, <- app_assoc.
    rewrite parse_value_string. simpl app. now rewrite parse_quote_chars.
  - inversion Hw as [| | | |l' Hl|]; subst.
    assert (Hsl : forallb stable l = true) by exact Hs.
    pose proof (Forall_reads_back l IH Hl Hsl) as Hrb.
    destruct l as [|x xs].
    + destruct f as [|f1]; [simpl in Hf; lia | reflexivity].
    + destruct f as [|f1]; [simpl in Hf; lia|].
      rewrite stringify_arr, parse_value_array.
      simpl in Hsl. apply andb_true_iff in Hsl as [Hsx _].
      destruct (skip_ws_stringify (2 + ind) (2 + ind) x
                  (elements_tail (2 + ind) ind xs rest) Hsx) as (c & t & E & H93 & _).
      rewrite E. cbv beta iota. rewrite H93.
      inversion Hrb; subst.
      rewrite parse_stringify_elements; auto.
      simpl in Hf. simpl. lia.
  - inversion Hw as [| | | | |o' Ho Hall]; subst.
    assert (Hso : forallb (fun kv => stable (snd kv)) o = true) by exact Hs.
    pose proof (Forall_reads_back_members o IH Hall Hso) as Hrb.
    destruct o as [|kx xs].
    + destruct f as [|f1]; [simpl in Hf; lia | reflexivity].
    + destruct f as [|f1]; [simpl in Hf; lia|].
      rewrite stringify_obj, parse_value_object.
      rewrite skip_ws_newline.
      replace (skip_ws (quote (fst kx) ++ [58%N; 32%N] ++ stringify (2 + ind) (snd kx) ++
                        members_tail (2 + ind) ind xs rest))
        with (34%N :: (quote_chars (fst kx) ++ [34%N]) ++ [58%N; 32%N] ++
              stringify (2 + ind) (snd kx) ++ members_tail (2 + ind) ind xs rest)
        by reflexivity.
      cbv beta iota. change (N.eqb 34 125) with false. cbv beta iota.
      inversion Hrb; subst.
      rewrite parse_stringify_members; auto.
      * now rewrite (fold_set_ordered _ Ho).
      * simpl in Hf. simpl. lia.
Qed.

Lemma flat_map_length (sep : jsstring) (ps : list jsstring) :
  fold_right (fun p a => S (List.length p) + a) 0 ps <=
  List.length (flat_map (fun q => 44%N :: sep ++ q) ps).
Proof.
  induction ps as [|q qs IH]; [apply Nat.le_refl|].
  cbn [fold_right flat_map]. rewrite length_app. cbn [List.length].
  rewrite length_app.
  assert (G : forall a b c d, a <= b -> S c + a <= S (d + c) + b) by (intros; lia).
  apply G. exact IH.
Qed.

Lemma join_lines_length (n : nat) (parts : list jsstring) :
  fold_right (fun p a => S (List.length p) + a) 0 parts <= List.length (join_lines n parts).
Proof.
  destruct parts as [|p ps]; [apply Nat.le_refl|].
  unfold join_lines. cbn [fold_right]. rewrite !length_app.
  pose proof (flat_map_length (newline n) ps) as H.
  unfold newline at 1. cbn [List.length].
  assert (G : forall a b c d, a <= b -> S c + a <= S d + (c + b)) by (intros; lia).
  apply G. exact H.
Qed.

Lemma sizes_le {A} (g : A -> jsstring) (sz : A -> nat) (l : list A) :
  Forall (fun x => sz x <= List.length (g x)) l ->
  fold_right (fun x a => S (sz x) + a) 0 l <=
  fold_right (fun p a => S (List.length p) + a) 0 (map g l).
Proof.
  induction 1 as [|x l Hx Hl IH]; [apply Nat.le_refl|].
  cbn [fold_right map]. apply Nat.add_le_mono; [now apply le_n_S | exact IH].
Qed.

Lemma stringify_length (v : value) :
  stable v = true -> forall ind, size v <= List.length (stringify ind v).
Proof.
  induction v as [| b | x | s | l IH | o IH] using value_induction; intros Hs ind.
  - simpl. lia.
  - destruct b; simpl; lia.
  - destruct (stringify_head ind (JNum x) Hs) as (c & t & E & _).
    rewrite E. simpl. lia.
  - simpl. lia.
  - destruct l as [|x xs]; [simpl; lia|].
    cbn [stringify size]. cbn [List.length]. rewrite !length_app.
    apply le_n_S.
    eapply Nat.le_trans; [|apply Nat.le_add_r].
    eapply Nat.le_trans; [|apply (join_lines_length (2 + ind))].
    apply sizes_le.
    assert (Hsl : forallb stable (x :: xs) = true) by exact Hs.
    revert IH Hsl. generalize (x :: xs). intros l' IH.
    induction IH as [|y ys Hy Hys IHl]; intros Hsl; constructor.
    + simpl in Hsl. apply andb_true_iff in Hsl as [H1 _]. auto.
    + simpl in Hsl. apply andb_true_iff in Hsl as [_ H2]. auto.
  - destruct o as [|kx xs]; [simpl; lia|].
    cbn [stringify size]. cbn [List.length]. rewrite !length_app.
    apply le_n_S.
    eapply Nat.le_trans; [|apply Nat.le_add_r].
    eapply Nat.le_trans; [|apply (join_lines_length (2 + ind))].
    apply (sizes_le (fun kv => quote (fst kv) ++ [58%N; 32%N] ++
                               stringify (2 + ind) (snd kv))
                    (fun kv => size (snd kv))).
    assert (Hso : forallb (fun kv => stable (snd kv)) (kx :: xs) = true) by exact Hs.
    revert IH Hso. generalize (kx :: xs). intros o' IH.
    induction IH as [|y ys Hy Hys IHl]; intros Hso; constructor.
    + simpl in Hso. apply andb_true_iff in Hso as [H1 _].
      rewrite !length_app. specialize (Hy H1 (2 + ind)).
      eapply Nat.le_trans; [exact Hy|].
      rewrite Nat.add_assoc. apply Nat.le_add_l.
    + simpl in Hso. apply andb_true_iff in Hso as [_ H2]. auto.
Qed.

Lemma JSON_parse_stringify (v : value) :
  wf v -> stable v = true -> JSON_parse (JSON_stringify v) = Some v.
Proof.
  intros Hw Hs. unfold JSON_parse, JSON_stringify.
  pose proof (parse_stringify v Hw Hs 0 [] (S (List.length (stringify 0 v))) I) as H.
  rewrite app_nil_r in H. rewrite H; [reflexivity|].
  pose proof (stringify_length v Hs 0). lia.
Qed.

(** ** Merging twice *)

Lemma key_in_dec (k : jsstring) (o : object) : {In k (map fst o)} + {~ In k (map fst o)}.
Proof. apply in_dec. apply list_eq_dec. apply N.eq_dec. Qed.

Lemma obj_lookup_app (k : jsstring) (P Q : object) :
  obj_lookup k (P ++ Q) =
  match obj_lookup k P with
  | Some v => Some v
  | None => obj_lookup k Q
  end.
Proof.
  induction P as [|[p vp] P IH]; simpl; [reflexivity|].
  destruct (str_eqb k p); [reflexivity | exact IH].
Qed.

Lemma obj_replace_app_l (k : jsstring) (v : value) (P Q : object) :
  In k (map fst P) -> obj_replace k v (P ++ Q) = obj_replace k v P ++ Q.
Proof.
  induction P as [|[p vp] P IH]; simpl; [contradiction|].
  intros H. destruct (str_eqb k p) eqn:E; [reflexivity|].
  simpl. f_equal. apply IH. destruct H as [->|H]; [|assumption].
  now rewrite str_eqb_refl in E.
Qed.

Lemma obj_replace_app_r (k : jsstring) (v : value) (P Q : object) :
  ~ In k (map fst P) -> obj_replace k v (P ++ Q) = P ++ obj_replace k v Q.
Proof.
  induction P as [|[p vp] P IH]; simpl; [reflexivity|].
  intros H. destruct (str_eqb k p) eqn:E.
  - apply str_eqb_eq in E. subst. exfalso. auto.
  - f_equal. apply IH. auto.
Qed.

Lemma obj_insert_app (k : jsstring) (v : value) (P Q : object) :
  (forall kq vq Q', Q = (kq, vq) :: Q' -> goes_before k kq = true) ->
  obj_insert k v (P ++ Q) = obj_insert k v P ++ Q.
Proof.
  intros H. induction P as [|[p vp] P IH]; simpl.
  - destruct Q as [|[kq vq] Q']; [reflexivity|].
    simpl. now rewrite (H kq vq Q' eq_refl).
  - destruct (goes_before k p); [reflexivity|].
    simpl. now rewrite IH.
Qed.

Lemma goes_before_plain (k k' : jsstring) : array_index k = None -> goes_before k k' = false.
Proof. unfold goes_before. now intros ->. Qed.

Lemma goes_before_index_plain (k k' : jsstring) :
  array_index k <> None -> array_index k' = None -> goes_before k k' = true.
Proof.
  unfold goes_before. intros H ->. destruct (array_index k); [reflexivity | contradiction].
Qed.

Lemma obj_insert_plain (k : jsstring) (v : value) (o : object) :
  array_index k = None -> obj_insert k v o = o ++ [(k, v)].
Proof. intros H. apply obj_insert_last. intros; now apply goes_before_plain. Qed.

Lemma obj_set_absent (k : jsstring) (v : value) (o : object) :
  ~ In k (map fst o) -> obj_set k v o = obj_insert k v o.
Proof. intros H. unfold obj_set. now rewrite (obj_lookup_none _ _ H). Qed.

Lemma obj_set_present (k : jsstring) (v : value) (o : object) :
  In k (map fst o) -> obj_set k v o = obj_replace k v o.
Proof.
  intros H. unfold obj_set. destruct (obj_lookup_some _ _ H) as [x ->]. reflexivity.
Qed.

Lemma obj_set_same (k : jsstring) (v : value) (o : object) :
  obj_lookup k o = Some v -> obj_set k v o = o.
Proof.
  intros H. unfold obj_set. rewrite H.
  induction o as [|[p vp] o IH]; simpl in *; [discriminate|].
  destruct (str_eqb k p); [congruence|]. f_equal. auto.
Qed.

Lemma NoDup_snoc {A} (l : list A) (a : A) : NoDup l -> ~ In a l -> NoDup (l ++ [a]).
Proof.
  induction 1 as [|x l Hx Hl IH]; simpl; intros Ha.
  - constructor; [tauto | constructor].
  - constructor.
    + rewrite in_app_iff. simpl. intuition congruence.
    + apply IH. tauto.
Qed.

Lemma extends_refl (B : object) : extends B B.
Proof.
  exists [], B, []. rewrite app_nil_r. simpl.
  repeat split; try contradiction; try constructor.
Qed.

Lemma extends_set (B o : object) (k : jsstring) (v : value) :
  base_ok B -> extends B o -> extends B (obj_set k v o).
Proof.
  intros [HndB HplainB] (A & B' & C & -> & HA & HidxA & HB' & HC & HndC).
  assert (HplainB' : forall x, In x (map fst B') -> array_index x = None).
  { intros x Hx. rewrite HB' in Hx. auto. }
  destruct (array_index k) as [i|] eqn:Hk.
  - (* an index key *)
    assert (HnB : ~ In k (map fst B')).
    { intros H. apply HplainB' in H. congruence. }
    assert (HnC : ~ In k (map fst C)).
    { intros H. apply HC in H as [H _]. congruence. }
    destruct (key_in_dec k A) as [Hin|Hnin].
    + exists (obj_replace k v A), B', C.
      rewrite obj_set_present by (rewrite map_app, in_app_iff; now left).
      rewrite obj_replace_app_l by assumption.
      repeat split; auto.
      * now apply ordered_replace.
      * intros x Hx. rewrite keys_replace in Hx. auto.
      * apply HC; assumption.
      * apply HC; assumption.
    + exists (obj_insert k v A), B', C.
      rewrite obj_set_absent
        by (rewrite !map_app, !in_app_iff; intros [H|[H|H]]; contradiction).
      rewrite obj_insert_app.
      * repeat split; auto.
        -- now apply ordered_insert.
        -- intros x Hx. apply keys_insert in Hx as [->|Hx]; [congruence | auto].
        -- apply HC; assumption.
        -- apply HC; assumption.
      * intros kq vq Q' E. apply goes_before_index_plain; [congruence|].
        assert (Hq : In kq (map fst (B' ++ C))).
        { rewrite E. now left. }
        rewrite map_app, in_app_iff in Hq. destruct Hq as [Hq|Hq]; [auto|].
        now apply HC.
  - (* a plain key *)
    assert (HnA : ~ In k (map fst A)).
    { intros H. apply HidxA in H. contradiction. }
    destruct (key_in_dec k B') as [HinB|HninB].
    + exists A, (obj_replace k v B'), C.
      rewrite obj_set_present
        by (rewrite !map_app, !in_app_iff; right; now left).
      rewrite obj_replace_app_r by assumption.
      rewrite obj_replace_app_l by assumption.
      repeat split; auto.
      * now rewrite keys_replace.
      * apply HC; assumption.
      * apply HC; assumption.
    + destruct (key_in_dec k C) as [HinC|HninC].
      * exists A, B', (obj_replace k v C).
        rewrite obj_set_present
          by (rewrite !map_app, !in_app_iff; right; now right).
        rewrite obj_replace_app_r by assumption.
        rewrite obj_replace_app_r by assumption.
        repeat split; auto.
        -- rewrite keys_replace in H. now apply HC.
        -- rewrite keys_replace in H. now apply HC.
        -- now rewrite keys_replace.
      * exists A, B', (C ++ [(k, v)]).
        rewrite obj_set_absent
          by (rewrite !map_app, !in_app_iff; intros [H|[H|H]]; contradiction).
        rewrite obj_insert_plain by assumption.
        rewrite <- !app_assoc.
        repeat split; auto.
        -- rewrite map_app, in_app_iff in H. destruct H as [H|[<-|[]]]; [now apply HC | assumption].
        -- rewrite map_app, in_app_iff in H. destruct H as [H|[<-|[]]]; [now apply HC|].
           now rewrite <- HB'.
        -- rewrite map_app. simpl. now apply NoDup_snoc.
Qed.

Lemma extends_fold_set (B o ps : object) :
  base_ok B -> extends B o -> extends B (fold_left set_entry ps o).
Proof.
  intros HB. revert o. induction ps as [|[k v] ps IH]; simpl; intros o Ho; [assumption|].
  apply IH. now apply extends_set.
Qed.

(** Index keys in order, set on an object without index keys, come first. *)
Lemma fold_set_index (A B : object) :
  ordered A ->
  (forall k, In k (map fst A) -> array_index k <> None) ->
  (forall k, In k (map fst B) -> array_index k = None) ->
  fold_left set_entry A B = A ++ B.
Proof.
  induction A as [|[k v] A IH] using rev_ind; intros HA Hidx Hplain; [reflexivity|].
  destruct (ordered_app_last _ _ _ HA) as (HA' & Hnin & Hlast).
  rewrite fold_left_app. simpl.
  rewrite IH; auto.
  - unfold set_entry. simpl.
    assert (Hk : array_index k <> None).
    { apply Hidx. rewrite map_app, in_app_iff. right. now left. }
    rewrite obj_set_absent.
    + rewrite obj_insert_app.
      * rewrite (obj_insert_last _ _ _ Hlast). reflexivity.
      * intros kq vq Q' ->. apply goes_before_index_plain; [assumption|].
        apply Hplain. now left.
    + rewrite map_app, in_app_iff. intros [H|H]; [contradiction|].
      apply Hplain in H. contradiction.
  - intros x Hx. apply Hidx. rewrite map_app, in_app_iff. now left.
Qed.

(** New values for the keys of [B], in the order of [B], take their places. *)
Lemma fold_set_same_keys (B' : object) :
  forall (B P : object),
    map fst B' = map fst B -> NoDup (map fst B) ->
    (forall k, In k (map fst P) -> ~ In k (map fst B)) ->
    fold_left set_entry B' (P ++ B) = P ++ B'.
Proof.
  induction B' as [|[k v] B' IH]; intros B P Hk Hnd Hdis.
  - destruct B; [reflexivity | discriminate].
  - destruct B as [|[k0 v0] B]; [discriminate|].
    simpl in Hk. injection Hk as <- Hk.
    inversion Hnd as [|? ? Hnot Hnd']; subst.
    simpl. unfold set_entry at 2. simpl.
    assert (HnP : ~ In k (map fst P)).
    { intros H. apply (Hdis _ H). now left. }
    rewrite obj_set_present by (rewrite map_app, in_app_iff; right; now left).
    rewrite obj_replace_app_r by assumption.
    simpl. rewrite str_eqb_refl.
    change (P ++ (k, v) :: B) with (P ++ [(k, v)] ++ B).
    rewrite app_assoc. rewrite (IH B (P ++ [(k, v)]) Hk Hnd').
    + now rewrite <- app_assoc.
    + intros x Hx Hin. rewrite map_app, in_app_iff in Hx.
      destruct Hx as [Hx|[<-|[]]]; [|contradiction].
      apply (Hdis _ Hx). now right.
Qed.

(** New plain keys are added at the end, in their order. *)
Lemma fold_set_new_plain (C : object) :
  forall P : object,
    (forall k, In k (map fst C) -> array_index k = None /\ ~ In k (map fst P)) ->
    NoDup (map fst C) ->
    fold_left set_entry C P = P ++ C.
Proof.
  induction C as [|[k v] C IH]; intros P HC Hnd; simpl.
  - now rewrite app_nil_r.
  - inversion Hnd as [|? ? Hnot Hnd']; subst.
    destruct (HC k (or_introl eq_refl)) as [Hk HnP].
    unfold set_entry at 2. simpl.
    rewrite obj_set_absent by assumption.
    rewrite obj_insert_plain by assumption.
    rewrite IH; auto.
    + now rewrite <- app_assoc.
    + intros x Hx. destruct (HC x (or_intror Hx)) as [Hpx HnPx].
      split; [assumption|].
      rewrite map_app, in_app_iff. intros [H|[<-|[]]]; contradiction.
Qed.

Lemma fold_set_extends (B o : object) :
  base_ok B -> extends B o -> fold_left set_entry o B = o.
Proof.
  intros [HndB HplainB] (A & B' & C & -> & HA & HidxA & HB' & HC & HndC).
  rewrite !fold_left_app.
  rewrite (fold_set_index A B HA HidxA HplainB).
  rewrite (fold_set_same_keys B' B A HB' HndB).
  - rewrite fold_set_new_plain; [now rewrite <- app_assoc | | assumption].
    intros k Hk. destruct (HC k Hk) as [Hp Hn]. split; [assumption|].
    rewrite map_app, in_app_iff. intros [H|H].
    + apply HidxA in H. contradiction.
    + rewrite HB' in H. contradiction.
  - intros k Hk Hin. apply HidxA in Hk. apply HplainB in Hin. contradiction.
Qed.

Lemma plain_keys (o : object) :
  forallb (fun kv => match array_index (fst kv) with None => true | Some _ => false end) o
    = true ->
  forall k, In k (map fst o) -> array_index k = None.
Proof.
  intros H k Hk. apply in_map_iff in Hk as ([k' v] & <- & Hin).
  rewrite forallb_forall in H. specialize (H _ Hin). simpl in *.
  now destruct (array_index k').
Qed.

Lemma default_props_base : base_ok default_props.
Proof.
  split.
  - apply ordered_NoDup. pose proof defaultConfig_wf as H.
    now inversion H.
  - apply plain_keys. vm_compute. reflexivity.
Qed.

Lemma default_license_props_base : base_ok default_license_props.
Proof.
  split.
  - apply ordered_NoDup. pose proof defaultLicenseConfig_wf as H.
    now inversion H.
  - apply plain_keys. vm_compute. reflexivity.
Qed.

(** Spreading over a base what was already spread over it changes
    nothing. *)
Lemma spread_idem (base : value) (B : object) (src : jsval) :
  base = JObj B -> wf base -> base_ok B ->
  spread [Some base; Some (JObj (spread [Some base; src]))] = spread [Some base; src].
Proof.
  intros -> Hw HB.
  rewrite (spread_over (JObj B) (Some (JObj (spread [Some (JObj B); src]))))
    by (assumption || now eexists).
  simpl own_props at 1 2.
  apply fold_set_extends; [assumption|].
  rewrite spread_over by (assumption || now eexists).
  apply extends_fold_set; [assumption | apply extends_refl].
Qed.

(** Merging the defaults into a record that already went through the
    merge gives the same record. *)
Lemma merge_defaults_idem (d : value) :
  merge_defaults (JObj (merge_defaults d)) = merge_defaults d.
Proof.
  set (pre := spread [Some defaultConfig; Some d]).
  set (L := spread [Some defaultLicenseConfig; obj_lookup (u "license") pre]).
  assert (Hm : merge_defaults d = obj_set (u "license") (JObj L) pre) by reflexivity.
  assert (Hext : extends default_props (merge_defaults d)).
  { rewrite Hm. apply extends_set; [apply default_props_base|].
    subst pre. rewrite spread_over by (apply defaultConfig_wf || now eexists).
    apply extends_fold_set; [apply default_props_base | apply extends_refl]. }
  assert (Hpre : spread [Some defaultConfig; Some (JObj (merge_defaults d))] =
                 merge_defaults d).
  { rewrite spread_over by (apply defaultConfig_wf || now eexists).
    apply fold_set_extends; [apply default_props_base | exact Hext]. }
  assert (Hlic : obj_lookup (u "license") (merge_defaults d) = Some (JObj L)).
  { rewrite Hm, obj_lookup_set. now rewrite str_eqb_refl. }
  unfold merge_defaults at 1. cbv zeta. rewrite Hpre, Hlic.
  subst L.
  rewrite (spread_idem defaultLicenseConfig default_license_props)
    by (reflexivity || apply defaultLicenseConfig_wf || apply default_license_props_base).
  now apply obj_set_same.
Qed.

(** * Properties of the resolver *)

(** C4.  Any text that decodes to the empty object resolves to a Config
    equal to [defaultConfig], whose [license] is [defaultLicenseConfig];
    the only diagnostic is the advice about [binaryName]. *)
Theorem resolve_empty_document (t : jsstring) (s : state) :
  JSON_parse t = Some (JObj []) ->
  resolve t s = (Return defaultConfig, log_events s [LogWarning binaryName_warning]) /\
  get (Some defaultConfig) (u "license") = inr (Some defaultLicenseConfig).
Proof.
  intros H. unfold resolve. rewrite H. split; reflexivity.
Qed.

Lemma resolve_empty_document_witness :
  resolve (js "{}") (fresh (u "/project/gluon.json") None) =
    (Return defaultConfig,
     log_events (fresh (u "/project/gluon.json") None) [LogWarning binaryName_warning]) /\
  get (Some defaultConfig) (u "license") = inr (Some defaultLicenseConfig).
Proof. apply resolve_empty_document. reflexivity. Defined.

(** C5.  On [{"addons":{"foo":{"platform":"amo","id":"x"}}}] resolution
    logs exactly two addon errors, for [amoId] and for [version], both
    naming [foo]; it returns a Config, and the [foo] entry of its [addons]
    is the object of the input, with nothing filled in. *)
Theorem resolve_incomplete_amo_addon (s : state) :
  exists config addons,
    resolve (js "{'addons':{'foo':{'platform':'amo','id':'x'}}}") s =
      (Return config,
       log_events s
         [LogWarning binaryName_warning;
          LogError (missing_property (u "amoId") (u "foo"));
          LogError (missing_property (u "version") (u "foo"))]) /\
    get (Some config) (u "addons") = inr (Some addons) /\
    get (Some addons) (u "foo") =
      inr (JSON_parse (js "{'platform':'amo','id':'x'}")) /\
    JSON_parse (js "{'platform':'amo','id':'x'}") =
      Some (JObj [(u "platform", JStr (u "amo")); (u "id", JStr (u "x"))]).
Proof.
  eexists. eexists. split; [|split; [|split]].
  - rewrite resolve_at. vm_compute. reflexivity.
  - vm_compute. reflexivity.
  - vm_compute. reflexivity.
  - vm_compute. reflexivity.
Qed.

(** C7.  With no override and no file, [rawConfig] answers [{}]; it logs
    the missing-file warning only if the flag was still down, and raises
    the flag.  In a whole run of the process, whatever the calls, the
    warning is logged at most once. *)
Theorem missing_file_warning_once (s : state) :
  mockConfig s = [] -> file s = None ->
  (exists s',
     rawConfig s = (Return (u "{}"), s') /\
     hasWarnedAboutConfig s' = true /\
     trace s' = trace s ++ ExistsSync ::
       (if hasWarnedAboutConfig s then []
        else [LogWarning (missing_config_warning (configPath s))])) /\
  (forall config cs o s',
     hasWarnedAboutConfig s = true ->
     perform_all config cs s = (o, s') ->
     hasWarnedAboutConfig s' = true /\ missing_warnings s' = missing_warnings s) /\
  (forall path contents cs o s',
     run path contents cs = (o, s') -> missing_warnings s' <= 1).
Proof.
  intros Hm Hf. split; [|split].
  - destruct (hasWarnedAboutConfig s) eqn:Hw.
    + rewrite (rawConfig_absent_warned s Hm Hf Hw). eexists. split; [reflexivity|].
      simpl. auto.
    + rewrite (rawConfig_absent_first s Hm Hf Hw). eexists. split; [reflexivity|].
      simpl. auto.
  - intros config cs o s' Hw H.
    destruct (perform_all_keeps_once _ _ _ _ _ H) as (_ & _ & F). auto.
  - intros path contents cs o s' H.
    destruct (run_keeps_once _ _ _ _ _ H) as (_ & I & _).
    apply I, fresh_warned_once.
Qed.

Lemma missing_file_warning_once_witness :
  let s := fresh (u "/project/gluon.json") None in
  (exists s',
     rawConfig s = (Return (u "{}"), s') /\
     hasWarnedAboutConfig s' = true /\
     trace s' = trace s ++ ExistsSync ::
       (if hasWarnedAboutConfig s then []
        else [LogWarning (missing_config_warning (configPath s))])) /\
  (forall config cs o s',
     hasWarnedAboutConfig s = true ->
     perform_all config cs s = (o, s') ->
     hasWarnedAboutConfig s' = true /\ missing_warnings s' = missing_warnings s) /\
  (forall path contents cs o s',
     run path contents cs = (o, s') -> missing_warnings s' <= 1) /\
  missing_warnings
    (snd (run (u "/project/gluon.json") None [RawConfig; GetConfig; RawConfig])) = 1.
Proof.
  intros s.
  destruct (missing_file_warning_once s eq_refl eq_refl) as (H1 & H2 & H3).
  split; [exact H1|]. split; [exact H2|]. split; [exact H3|].
  vm_compute. reflexivity.
Defined.

(** C10.  [setMockRawConfig('')] leaves [mockConfig] at its initial value,
    whatever it held before, and touches nothing else.  The next
    [rawConfig] then checks whether the file exists and answers its
    contents, or [{}] when there is none. *)
Theorem setMockRawConfig_empty_clears (s : state) :
  exists s1 s2 evs,
    setMockRawConfig [] s = (Return tt, s1) /\
    s1 = {| configPath := configPath s; file := file s;
            hasWarnedAboutConfig := hasWarnedAboutConfig s;
            mockConfig := mockConfig (fresh (configPath s) (file s));
            trace := trace s |} /\
    rawConfig s1 =
      (Return (match file s with Some contents => contents | None => u "{}" end), s2) /\
    trace s2 = trace s ++ ExistsSync :: evs.
Proof.
  set (s1 := {| configPath := configPath s; file := file s;
                hasWarnedAboutConfig := hasWarnedAboutConfig s;
                mockConfig := []; trace := trace s |}).
  assert (H : exists s2 evs,
             rawConfig s1 =
               (Return (match file s1 with Some contents => contents | None => u "{}" end),
                s2) /\
             trace s2 = trace s1 ++ ExistsSync :: evs).
  { destruct (file s1) as [contents|] eqn:Hf.
    - rewrite (rawConfig_file s1 contents eq_refl Hf).
      eexists. eexists. split; reflexivity.
    - destruct (hasWarnedAboutConfig s1) eqn:Hw.
      + rewrite (rawConfig_absent_warned s1 eq_refl Hf Hw).
        eexists. eexists. split; reflexivity.
      + rewrite (rawConfig_absent_first s1 eq_refl Hf Hw).
        eexists. eexists. split; reflexivity. }
  destruct H as (s2 & evs & H1 & H2).
  exists s1, s2, evs. repeat split; assumption.
Qed.

(** C8, as the code has it.  After [setMockRawConfig(x)] with [x] not
    empty, and any calls among which none is [setMockRawConfig('')], an
    override is still installed: [rawConfig] answers it verbatim and does
    nothing else, so the file is not looked at.  If no later call was a
    [setMockRawConfig] at all, that override is [x]. *)
Theorem override_stays_until_cleared (config : value) (x : jsstring)
    (cs : list call) (s s' : state) (o : outcome (list answer)) :
  x <> [] ->
  forallb (fun c => negb (is_set_mock_empty c)) cs = true ->
  perform_all config (SetMockRawConfig x :: cs) s = (o, s') ->
  mockConfig s' <> [] /\
  rawConfig s' = (Return (mockConfig s'), s') /\
  (forallb (fun c => negb (is_set_mock c)) cs = true -> mockConfig s' = x).
Proof.
  intros Hx Hcs H. simpl in H. unfold bind in H. simpl in H.
  set (s1 := {| configPath := configPath s; file := file s;
                hasWarnedAboutConfig := hasWarnedAboutConfig s;
                mockConfig := x; trace := trace s |}) in *.
  assert (Hrest : (mockConfig s1 <> [] -> mockConfig s' <> []) /\
                  (forallb (fun c => negb (is_set_mock c)) cs = true ->
                   mockConfig s' = mockConfig s1)).
  { destruct (perform_all config cs s1) as [[l|c0|e] s2] eqn:Hq;
      destruct (perform_all_mock _ _ _ _ _ Hq) as [N E]; injection H as _ <-; auto. }
  destruct Hrest as [N E].
  assert (Hne : mockConfig s' <> []) by (apply N; exact Hx).
  split; [exact Hne|]. split; [now apply rawConfig_mock | exact E].
Qed.

Lemma override_stays_until_cleared_witness :
  let s := fresh (u "/project/gluon.json") None in
  exists s',
    perform_all JNull [SetMockRawConfig (js "{'name':'x'}"); RawConfig; GetConfig] s =
      (Return [AUnit; AText (js "{'name':'x'}");
               AValue (JObj (merge_defaults (JObj [(u "name", JStr (u "x"))])))], s') /\
    mockConfig s' <> [] /\
    rawConfig s' = (Return (mockConfig s'), s') /\
    mockConfig s' = js "{'name':'x'}".
Proof.
  eexists. split; [vm_compute; reflexivity|].
  pose proof (override_stays_until_cleared JNull (js "{'name':'x'}")
                [RawConfig; GetConfig] (fresh (u "/project/gluon.json") None)) as H.
  specialize (H _ _ ltac:(discriminate) eq_refl eq_refl).
  destruct H as (H1 & H2 & H3). split; [exact H1|]. split; [exact H2|].
  exact (H3 eq_refl).
Defined.

(** C8 as stated fails: an override does not last for the rest of the
    process.  After [setMockRawConfig("x")] and [setMockRawConfig("")],
    [rawConfig] checks the file again and, there being none, answers [{}]. *)
Lemma override_not_permanent :
  exists s',
    perform_all JNull
      [SetMockRawConfig (u "x"); SetMockRawConfig []; RawConfig]
      (fresh (u "/project/gluon.json") None) =
      (Return [AUnit; AUnit; AText (u "{}")], s') /\
    trace s' =
      [ExistsSync; LogWarning (missing_config_warning (u "/project/gluon.json"))].
Proof. eexists. split; vm_compute; reflexivity. Qed.

Lemma getConfig_verdict (s : state) : fst (getConfig s) = verdict (current_text s).
Proof.
  unfold getConfig, bind, current_text.
  destruct (str_eqb (mockConfig s) []) eqn:E.
  - apply str_eqb_eq in E.
    destruct (file s) as [c|] eqn:Hf.
    + rewrite (rawConfig_file s c E Hf). apply resolve_verdict.
    + destruct (hasWarnedAboutConfig s) eqn:Hw.
      * rewrite (rawConfig_absent_warned s E Hf Hw). apply resolve_verdict.
      * rewrite (rawConfig_absent_first s E Hf Hw). apply resolve_verdict.
  - assert (Hm : mockConfig s <> []).
    { intros H. rewrite H in E. discriminate. }
    rewrite (rawConfig_mock s Hm). apply resolve_verdict.
Qed.

Lemma perform_all_app (config : value) (cs1 cs2 : list call) (s s' : state)
    (answers : list answer) :
  perform_all config (cs1 ++ cs2) s = (Return answers, s') ->
  exists answers1 s1 answers2,
    perform_all config cs1 s = (Return answers1, s1) /\
    perform_all config cs2 s1 = (Return answers2, s') /\
    answers = answers1 ++ answers2 /\
    List.length answers1 = List.length cs1.
Proof.
  revert s s' answers. induction cs1 as [|c cs1 IH]; intros s s' answers H.
  - exists [], s, answers. auto.
  - simpl in H. unfold bind in H.
    destruct (perform config c s) as [[a|c0|e] s1] eqn:Hp; try discriminate.
    destruct (perform_all config (cs1 ++ cs2) s1) as [[l|c0|e] s2] eqn:Hq;
      try discriminate.
    injection H as <- <-.
    destruct (IH _ _ _ Hq) as (a1 & s1' & a2 & H1 & H2 & -> & Hl).
    exists (a :: a1), s1', a2. simpl. unfold bind. rewrite Hp, H1.
    simpl. auto.
Qed.

Lemma perform_all_cons (config : value) (c : call) (cs : list call) (s s' : state)
    (answers : list answer) :
  perform_all config (c :: cs) s = (Return answers, s') ->
  exists a s1 l,
    perform config c s = (Return a, s1) /\
    perform_all config cs s1 = (Return l, s') /\ answers = a :: l.
Proof.
  simpl. unfold bind. intros H.
  destruct (perform config c s) as [[a|c0|e] s1] eqn:Hp; try discriminate.
  destruct (perform_all config cs s1) as [[l|c0|e] s2] eqn:Hq; try discriminate.
  injection H as <- <-. eauto 6.
Qed.

(** C3, as the code has it.  When the module loads, [getConfig] is run in
    the fresh state on the text then current, and its result is the
    constant [config] for the rest of the run.  Wherever it stands among
    the calls, and whatever was called or written before, a read of
    [config] answers that record and changes nothing, and [saveConfig]
    writes that record and does nothing else: neither looks at the
    storage.  [getConfig] itself keeps nothing: each call resolves the
    text current at that moment, and without an override it starts by
    checking that the file exists. *)
Theorem config_constant_cached (path : jsstring) (contents : option jsstring)
    (cs : list call) (config : value) (answers : list answer) (s' : state) :
  run path contents cs = (Return (config, answers), s') ->
  exists s0,
    getConfig (fresh path contents) = (Return config, s0) /\
    Return config = verdict (current_text (fresh path contents)) /\
    perform_all config cs s0 = (Return answers, s') /\
    forall cs1 c cs2, cs = cs1 ++ c :: cs2 ->
      exists answers1 s1 a s2,
        perform_all config cs1 s0 = (Return answers1, s1) /\
        perform config c s1 = (Return a, s2) /\
        nth_error answers (List.length cs1) = Some a /\
        match c with
        | ReadConfig => a = AValue config /\ s2 = s1
        | SaveConfig => a = AUnit /\ s2 = saved config s1
        | GetConfig =>
            exists v, a = AValue v /\
                      Return v = verdict (current_text s1) /\
                      (mockConfig s1 = [] ->
                       exists evs, trace s2 = trace s1 ++ ExistsSync :: evs)
        | _ => True
        end.
Proof.
  unfold run, bind. intros H.
  destruct (getConfig (fresh path contents)) as [[v|c0|e] s0] eqn:Hg; try discriminate.
  destruct (perform_all v cs s0) as [[l|c0|e] s9] eqn:Hq; try discriminate.
  injection H as <- <- <-.
  exists s0. split; [reflexivity|]. split.
  { rewrite <- getConfig_verdict, Hg. reflexivity. }
  split; [exact Hq|].
  intros cs1 c cs2 ->.
  destruct (perform_all_app _ _ _ _ _ _ Hq) as (a1 & s1 & a2 & H1 & H2 & -> & Hl).
  destruct (perform_all_cons _ _ _ _ _ _ H2) as (a & s2 & l2 & Hp & _ & ->).
  exists a1, s1, a, s2. split; [exact H1|]. split; [exact Hp|]. split.
  { rewrite <- Hl, nth_error_app2, Nat.sub_diag by lia. reflexivity. }
  destruct c; try exact I.
  - simpl in Hp. unfold bind in Hp.
    destruct (getConfig s1) as [[w|c0|e] s3] eqn:Hg1; try discriminate.
    injection Hp as <- <-. exists w. split; [reflexivity|]. split.
    + rewrite <- getConfig_verdict, Hg1. reflexivity.
    + intros Hm. destruct (getConfig_same_mock _ _ _ Hg1) as [_ T]. exact (T Hm).
  - simpl in Hp. unfold bind, saveConfig, bind, emit, ret in Hp.
    injection Hp as <- <-. split; reflexivity.
  - simpl in Hp. unfold ret in Hp. injection Hp as <- <-. split; reflexivity.
Qed.

Lemma config_constant_cached_witness :
  exists config answers s' s0,
    run (u "/project/gluon.json") (Some (js "{'name':'a'}"))
      [FileChanged (Some (js "{'name':'b'}")); ReadConfig] =
      (Return (config, answers), s') /\
    getConfig (fresh (u "/project/gluon.json") (Some (js "{'name':'a'}"))) =
      (Return config, s0) /\
    nth_error answers 1 = Some (AValue config).
Proof.
  destruct (run (u "/project/gluon.json") (Some (js "{'name':'a'}"))
              [FileChanged (Some (js "{'name':'b'}")); ReadConfig])
    as [[[config answers]|c|e] s'] eqn:H; try (vm_compute in H; discriminate).
  destruct (config_constant_cached _ _ _ _ _ _ H) as (s0 & Hg & _ & _ & Hdec).
  destruct (Hdec [FileChanged (Some (js "{'name':'b'}"))] ReadConfig [] eq_refl)
    as (a1 & s1 & a & s2 & _ & _ & Hn & Ha & _).
  exists config, answers, s', s0. split; [reflexivity|]. split; [exact Hg|].
  rewrite <- Ha. exact Hn.
Defined.

(** C3 as stated fails: [getConfig] is not memoized.  The file is changed
    after the module was loaded; the next [getConfig] reads it again and
    returns a record that differs from the cached one. *)
Lemma getConfig_not_memoized :
  exists config again s',
    run (u "/project/gluon.json") (Some (js "{'name':'a'}"))
      [FileChanged (Some (js "{'name':'b'}")); GetConfig; ReadConfig] =
      (Return (config, [AUnit; AValue again; AValue config]), s') /\
    again <> config /\
    filter is_storage_access (trace s') =
      [ExistsSync; ReadFileSync; ExistsSync; ReadFileSync].
Proof.
  eexists. eexists. eexists. split; [vm_compute; reflexivity|].
  split; [discriminate | vm_compute; reflexivity].
Qed.

(** C9.  A document whose [version] is a record without [product] ends
    the process with exit code 1: the merge takes the document's
    [version] whole, although the default one has a supported product. *)
Theorem version_without_product_is_fatal (t : jsstring) (d : value) (fs : object)
    (s : state) :
  JSON_parse t = Some d ->
  obj_lookup (u "version") (own_props (Some d)) = Some (JObj fs) ->
  obj_lookup (u "product") fs = None ->
  (exists evs, resolve t s = (Exit 1, log_events s evs)) /\
  obj_lookup (u "version") (merge_defaults d) = Some (JObj fs) /\
  includes validProducts
    (obj_lookup (u "product") (own_props (obj_lookup (u "version") default_props))) = true.
Proof.
  intros Hp Hv Hprod.
  pose proof (JSON_parse_wf _ _ Hp) as Hd.
  assert (Hm : obj_lookup (u "version") (merge_defaults d) = Some (JObj fs)).
  { rewrite merge_defaults_lookup by (assumption || discriminate). now rewrite Hv. }
  split; [|split; [exact Hm | reflexivity]].
  destruct (ends_run _ _ s (ends_resolve t)) as [evs E].
  exists evs. rewrite E. f_equal.
  unfold verdict. rewrite Hp.
  assert (Hvv : validate_verdict (merge_defaults d) = Exit 1).
  { unfold validate_verdict. rewrite Hm. simpl. rewrite Hprod. reflexivity. }
  destruct d; try exact Hvv. discriminate.
Qed.

Lemma version_without_product_is_fatal_witness :
  let t := js "{'version':{'version':'1.0'}}" in
  let s := fresh (u "/project/gluon.json") (Some t) in
  (exists evs, resolve t s = (Exit 1, log_events s evs)) /\
  obj_lookup (u "version") (merge_defaults (JObj [(u "version", JObj [(u "version", JStr (u "1.0"))])])) =
    Some (JObj [(u "version", JStr (u "1.0"))]) /\
  includes validProducts
    (obj_lookup (u "product") (own_props (obj_lookup (u "version") default_props))) = true.
Proof.
  apply (version_without_product_is_fatal
           (js "{'version':{'version':'1.0'}}")
           (JObj [(u "version", JObj [(u "version", JStr (u "1.0"))])])
           [(u "version", JStr (u "1.0"))]);
    vm_compute; reflexivity.
Defined.

(** C2.  Whatever the document, a resolution that returns gives each
    top-level key other than [license] the document's value when it has
    one and the default's otherwise, whole; [license] is the document's
    license (or the default one) spread over [defaultLicenseConfig], key
    by key; a license that only gives [licenseType] keeps the default
    [ignoredFiles]. *)
Theorem merge_is_shallow (t : jsstring) (s s' : state) (d config : value) :
  JSON_parse t = Some d ->
  resolve t s = (Return config, s') ->
  exists o lic,
    config = JObj o /\
    (forall k, k <> u "license" ->
       obj_lookup k o =
       match obj_lookup k (own_props (Some d)) with
       | Some v => Some v
       | None => obj_lookup k default_props
       end) /\
    obj_lookup (u "license") o = Some (JObj lic) /\
    (forall k,
       obj_lookup k lic =
       match obj_lookup k (own_props (Some (license_source d))) with
       | Some v => Some v
       | None => obj_lookup k default_license_props
       end) /\
    (forall x,
       obj_lookup (u "license") (own_props (Some d)) =
         Some (JObj [(u "licenseType", x)]) ->
       lic = [(u "ignoredFiles", JArr [JStr (u ".*\.json")]); (u "licenseType", x)]).
Proof.
  intros Hp H.
  pose proof (JSON_parse_wf _ _ Hp) as Hd.
  destruct (resolve_returns _ _ _ _ _ Hp H) as [-> Hnn].
  destruct (merge_defaults_license d Hd) as [Hl Hsrc].
  eexists. eexists. split; [reflexivity|]. split; [|split; [exact Hl|split]].
  - intros k Hk. now apply merge_defaults_lookup.
  - intros k. apply spread_lookup.
    + apply defaultLicenseConfig_wf.
    + now eexists.
    + intros x E. now injection E as <-.
  - intros x Hx. unfold license_source. rewrite Hx. reflexivity.
Qed.

Lemma merge_is_shallow_witness :
  let t := js "{'name':'x','license':{'licenseType':'unknown'},'addons':{'a':{'id':'i'}}}" in
  let s := fresh (u "/project/gluon.json") (Some t) in
  exists d o lic,
    JSON_parse t = Some d /\
    fst (resolve t s) = Return (JObj o) /\
    (forall k, k <> u "license" ->
       obj_lookup k o =
       match obj_lookup k (own_props (Some d)) with
       | Some v => Some v
       | None => obj_lookup k default_props
       end) /\
    obj_lookup (u "license") o = Some (JObj lic) /\
    lic = [(u "ignoredFiles", JArr [JStr (u ".*\.json")]);
           (u "licenseType", JStr (u "unknown"))].
Proof.
  intros t s.
  destruct (JSON_parse t) as [d|] eqn:Hp; [|vm_compute in Hp; discriminate].
  destruct (resolve t s) as [[config|c|e] s'] eqn:Hr;
    try (vm_compute in Hr; discriminate).
  destruct (merge_is_shallow t s s' d config Hp Hr) as (o & lic & -> & H1 & H2 & _ & H4).
  exists d, o, lic. repeat split; try assumption.
  apply (H4 (JStr (u "unknown"))).
  vm_compute in Hp. injection Hp as <-. vm_compute. reflexivity.
Defined.

Lemma get_throws (v : jsval) (k : jsstring) (e : exn) : get v k = inl e -> e = TypeError.
Proof. destruct v as [[| | | | |]|]; simpl; congruence. Qed.

Lemma toString_throws (v : jsval) (e : exn) : toString v = inl e -> e = TypeError.
Proof.
  unfold toString. destruct v as [x|]; [|discriminate].
  destruct (value_toString x); congruence.
Qed.

Lemma verdict_null (t : jsstring) : JSON_parse t = Some JNull -> verdict t = Throw TypeError.
Proof. unfold verdict. now intros ->. Qed.

Lemma verdict_parsed (t : jsstring) (d : value) :
  JSON_parse t = Some d -> d <> JNull -> verdict t = validate_verdict (merge_defaults d).
Proof. unfold verdict. intros -> H. destruct d; try reflexivity; contradiction. Qed.

Lemma merged_product_null : merged_product JNull = inr (Some (JStr (product_name Firefox))).
Proof. reflexivity. Qed.

Lemma forallb_false_ex {A} (f : A -> bool) (l : list A) :
  forallb f l = false <-> exists x, In x l /\ f x = false.
Proof.
  induction l as [|y l IH]; simpl.
  - split; [discriminate | intros (x & [] & _)].
  - rewrite andb_false_iff, IH. split.
    + intros [H | (x & Hin & Hx)]; eauto.
    + intros (x & [-> | Hin] & Hx); eauto.
Qed.

Lemma null_or_not (d : value) : d = JNull \/ d <> JNull.
Proof. destruct d; (now left) || (right; discriminate). Qed.

Lemma examinable_false (a : value) :
  examinable a = false <->
  a = JNull \/ toString (addon_prop a (u "platform")) = inl TypeError.
Proof.
  destruct (null_or_not a) as [->|Hnn].
  - split; [now left | reflexivity].
  - unfold examinable. rewrite (get_not_null a (u "platform") Hnn).
    fold (addon_prop a (u "platform")).
    destruct (toString (addon_prop a (u "platform"))) as [e|text] eqn:Ht.
    + apply toString_throws in Ht as ->. split; auto.
    + split; [discriminate | intros [H|H]; [contradiction | discriminate]].
Qed.

Lemma merged_version_null (d : value) :
  wf d ->
  (exists e, merged_product d = inl e) <->
  obj_lookup (u "version") (own_props (Some d)) = Some JNull.
Proof.
  intros Hd. unfold merged_product.
  change (get (Some (JObj (merge_defaults d))) (u "version"))
    with (inr exn (obj_lookup (u "version") (merge_defaults d))).
  cbv iota beta.
  rewrite merge_defaults_lookup by (assumption || discriminate).
  destruct (obj_lookup (u "version") (own_props (Some d))) as [[| | | | |]|];
    simpl; split; try (intros [e H]); try intros H; try discriminate; eauto.
Qed.

(** C1, as the code has it.  Text that is not JSON ends the process with
    exit code 1.  The process is ended by [resolve] only with code 1, and
    only when the text is not JSON or the merged [version.product] is not
    a supported product; an unsupported product never gives a Config, and
    ends the process unless it cannot be printed for the message.  A
    document other than [null] with a supported product resolves to a
    Config as soon as every entry of [addons] is examinable, that is, not
    [null] and with a [platform] that converts to a string, whichever
    fields it lacks.  Resolution throws, and then a TypeError, exactly on
    decoded JSON that is [null], or whose [version] is [null], or whose
    unsupported product does not convert to a string, or that has, with a
    supported product, an addon entry that is [null] or whose platform
    does not convert to a string. *)
Theorem resolve_outcomes (t : jsstring) (s : state) :
  (JSON_parse t = None -> fst (resolve t s) = Exit 1) /\
  (forall code, fst (resolve t s) = Exit code ->
     code = 1%Z /\
     (JSON_parse t = None \/
      exists d product,
        JSON_parse t = Some d /\ merged_product d = inr product /\
        includes validProducts product = false)) /\
  (forall d product,
     JSON_parse t = Some d -> merged_product d = inr product ->
     includes validProducts product = false ->
     (forall config, fst (resolve t s) <> Return config) /\
     fst (resolve t s) =
       match toString product with
       | inr _ => Exit 1
       | inl _ => Throw TypeError
       end) /\
  (forall d product,
     JSON_parse t = Some d -> d <> JNull ->
     merged_product d = inr product -> includes validProducts product = true ->
     forallb examinable
       (map snd (own_props (obj_lookup (u "addons") (merge_defaults d)))) = true ->
     fst (resolve t s) = Return (JObj (merge_defaults d))) /\
  (forall e,
     fst (resolve t s) = Throw e <->
     e = TypeError /\
     exists d,
       JSON_parse t = Some d /\
       (d = JNull \/
        obj_lookup (u "version") (own_props (Some d)) = Some JNull \/
        (exists product,
           merged_product d = inr product /\
           includes validProducts product = false /\
           toString product = inl TypeError) \/
        (exists product addonKey addon,
           merged_product d = inr product /\
           includes validProducts product = true /\
           In (addonKey, addon) (addon_entries (merge_defaults d)) /\
           (addon = JNull \/
            toString (addon_prop addon (u "platform")) = inl TypeError)))).
Proof.
  rewrite resolve_verdict.
  assert (Hmp : forall d, merged_product d =
                          get (obj_lookup (u "version") (merge_defaults d)) (u "product"))
    by reflexivity.
  assert (Hunsupported : forall d product,
            JSON_parse t = Some d -> merged_product d = inr product ->
            includes validProducts product = false ->
            verdict t = match toString product with
                        | inr _ => Exit 1
                        | inl _ => Throw TypeError
                        end).
  { intros d product Hp Hm Hi.
    assert (Hnn : d <> JNull).
    { intros ->. rewrite merged_product_null in Hm. injection Hm as <-. discriminate. }
    rewrite (verdict_parsed t d Hp Hnn). unfold validate_verdict.
    rewrite <- Hmp, Hm, Hi.
    destruct (toString product) as [e|text] eqn:Ht; [|reflexivity].
    now apply toString_throws in Ht as ->. }
  split; [|split; [|split; [|split]]].
  - unfold verdict. intros ->. reflexivity.
  - unfold verdict. intros code H. destruct (JSON_parse t) as [d|] eqn:Hp.
    + assert (Hv : validate_verdict (merge_defaults d) = Exit code).
      { destruct d; try exact H; discriminate. }
      unfold validate_verdict in Hv. rewrite <- Hmp in Hv.
      destruct (merged_product d) as [e|product] eqn:Hm; [discriminate|].
      destruct (includes validProducts product) eqn:Hi.
      * destruct (forallb _ _); discriminate.
      * destruct (toString product); [discriminate|].
        injection Hv as <-. split; [reflexivity|]. right. eauto.
    + injection H as <-. auto.
  - intros d product Hp Hm Hi.
    rewrite (Hunsupported d product Hp Hm Hi).
    split; [|reflexivity].
    intros config. destruct (toString product); discriminate.
  - intros d product Hp Hnn Hm Hi Hall.
    rewrite (verdict_parsed t d Hp Hnn). unfold validate_verdict.
    rewrite <- Hmp, Hm, Hi, Hall. reflexivity.
  - intros e. split.
    + intros H. destruct (JSON_parse t) as [d|] eqn:Hp;
        [|unfold verdict in H; rewrite Hp in H; discriminate].
      destruct (null_or_not d) as [->|Hnn].
      { rewrite verdict_null in H by assumption. injection H as <-.
        split; [reflexivity|]. exists JNull. auto. }
      rewrite (verdict_parsed t d Hp Hnn) in H. unfold validate_verdict in H.
      rewrite <- Hmp in H.
      destruct (merged_product d) as [e'|product] eqn:Hm.
      * injection H as <-. split.
        { rewrite Hmp in Hm. eapply get_throws; eauto. }
        exists d. split; [reflexivity|]. right. left.
        apply merged_version_null; [apply (JSON_parse_wf _ _ Hp) | eauto].
      * destruct (includes validProducts product) eqn:Hi.
        { destruct (forallb _ _) eqn:Hall; [discriminate|]. injection H as <-.
          split; [reflexivity|]. exists d. split; [reflexivity|]. right. right. right.
          apply forallb_false_ex in Hall as (a & Hin & Ha).
          apply in_map_iff in Hin as ([k a'] & E & Hin). simpl in E. subst a'.
          apply examinable_false in Ha.
          exists product, k, a. auto. }
        { destruct (toString product) as [e'|text] eqn:Ht; [|discriminate].
          injection H as <-. pose proof (toString_throws _ _ Ht) as ->.
          split; [reflexivity|]. exists d. split; [reflexivity|]. right. right. left.
          exists product. auto. }
    + intros (-> & d & Hp & H).
      destruct (null_or_not d) as [->|Hnn]; [now apply verdict_null|].
      rewrite (verdict_parsed t d Hp Hnn).
      destruct H as [H | [H | [(product & Hm & Hi & Ht) | (product & k & a & Hm & Hi & Hin & Ha)]]].
      * contradiction.
      * apply (merged_version_null d (JSON_parse_wf _ _ Hp)) in H as [e' He].
        unfold validate_verdict. rewrite <- Hmp, He.
        rewrite Hmp in He. now apply get_throws in He as ->.
      * unfold validate_verdict. now rewrite <- Hmp, Hm, Hi, Ht.
      * unfold validate_verdict. rewrite <- Hmp, Hm, Hi.
        assert (Hall : forallb examinable
                         (map snd (own_props (obj_lookup (u "addons") (merge_defaults d))))
                       = false).
        { apply forallb_false_ex. exists a. split.
          - apply in_map_iff. exists (k, a). auto.
          - now apply examinable_false. }
        now rewrite Hall.
Qed.

Lemma resolve_outcomes_witness :
  let t := js "{'addons':{'a':{},'b':{'platform':'amo'},'c':{'platform':'nope','id':0}}}" in
  let s := fresh (u "/project/gluon.json") (Some t) in
  (exists d,
     JSON_parse t = Some d /\
     fst (resolve t s) = Return (JObj (merge_defaults d)) /\
     List.length (filter is_diagnostic (trace (snd (resolve t s)))) = 8) /\
  fst (resolve (js "{'version':{'product':'chrome'}}") s) = Exit 1 /\
  fst (resolve (js "{'version':null}") s) = Throw TypeError /\
  fst (resolve (js "{'addons':{'a':{'platform':{'toString':0}}}}") s) = Throw TypeError.
Proof.
  intros t s. split; [|split; [|split]].
  - destruct (JSON_parse t) as [d|] eqn:Hp; [|vm_compute in Hp; discriminate].
    exists d. split; [reflexivity|]. split.
    + apply (proj1 (proj2 (proj2 (proj2 (resolve_outcomes t s)))) d
               (Some (JStr (u "firefox"))) Hp);
        vm_compute in Hp; injection Hp as <-;
        try discriminate; vm_compute; reflexivity.
    + vm_compute. reflexivity.
  - set (t1 := js "{'version':{'product':'chrome'}}").
    destruct (JSON_parse t1) as [d|] eqn:Hp; [|vm_compute in Hp; discriminate].
    destruct (proj1 (proj2 (proj2 (resolve_outcomes t1 s))) d (Some (JStr (u "chrome"))) Hp)
      as [_ H];
      [vm_compute in Hp; injection Hp as <-; vm_compute; reflexivity ..|].
    exact H.
  - set (t2 := js "{'version':null}").
    destruct (JSON_parse t2) as [d|] eqn:Hp; [|vm_compute in Hp; discriminate].
    apply (proj2 (proj2 (proj2 (proj2 (resolve_outcomes t2 s)))) TypeError).
    split; [reflexivity|]. exists d. split; [exact Hp|]. right. left.
    vm_compute in Hp. injection Hp as <-. reflexivity.
  - set (t3 := js "{'addons':{'a':{'platform':{'toString':0}}}}").
    destruct (JSON_parse t3) as [d|] eqn:Hp; [|vm_compute in Hp; discriminate].
    apply (proj2 (proj2 (proj2 (proj2 (resolve_outcomes t3 s)))) TypeError).
    split; [reflexivity|]. exists d. split; [exact Hp|]. right. right. right.
    vm_compute in Hp. injection Hp as <-.
    exists (Some (JStr (u "firefox"))), (u "a"),
      (JObj [(u "platform", JObj [(u "toString", JNum (S754_zero false))])]).
    split; [reflexivity|]. split; [reflexivity|]. split; [left; reflexivity|].
    right. reflexivity.
Defined.

(** C1 as stated fails: [{"addons":{"foo":null}}] is valid JSON and its
    merged product is supported, yet no Config is returned; reading
    [addon.id] on the [null] entry throws a TypeError. *)
Lemma null_addon_throws :
  let t := js "{'addons':{'foo':null}}" in
  exists d,
    JSON_parse t = Some d /\
    merged_product d = inr (Some (JStr (u "firefox"))) /\
    includes validProducts (Some (JStr (u "firefox"))) = true /\
    forall s, fst (resolve t s) = Throw TypeError /\
              trace (snd (resolve t s)) = trace s ++ [LogWarning binaryName_warning].
Proof.
  eexists. split; [vm_compute; reflexivity|].
  split; [vm_compute; reflexivity|]. split; [reflexivity|].
  intros s. rewrite resolve_at. split; vm_compute; reflexivity.
Qed.

(** C6, as the code has it.  When a resolution returns a Config in which
    every number survives serialization (it is finite and not the negative
    zero), [JSON.parse] reads the Config back from what [saveConfig]
    writes, and resolving that text returns the same Config. *)
Theorem resolve_saved_config (t : jsstring) (s s' : state) (config : value) :
  resolve t s = (Return config, s') ->
  stable config = true ->
  JSON_parse (JSON_stringify config) = Some config /\
  forall s2, exists evs,
    resolve (JSON_stringify config) s2 = (Return config, log_events s2 evs).
Proof.
  intros H Hs.
  pose proof (resolve_verdict t s) as V. rewrite H in V. simpl in V.
  destruct (JSON_parse t) as [d|] eqn:Hp;
    [|unfold verdict in V; rewrite Hp in V; discriminate].
  destruct (resolve_returns _ _ _ _ _ Hp H) as [-> Hnn].
  pose proof (merge_defaults_wf d (JSON_parse_wf _ _ Hp)) as Hw.
  pose proof (JSON_parse_stringify _ Hw Hs) as Hrt.
  split; [exact Hrt|].
  intros s2.
  destruct (ends_run _ _ s2 (ends_resolve (JSON_stringify (JObj (merge_defaults d)))))
    as [evs E].
  exists evs. rewrite E. f_equal.
  unfold verdict in *. rewrite Hrt. rewrite Hp in V.
  rewrite merge_defaults_idem.
  destruct d; try (symmetry; exact V); contradiction.
Qed.

Lemma resolve_saved_config_witness :
  let t := js "{'name':'x','version':{'product':'firefox-esr','version':'115.0.2'},'updates':[1.5,-2,1e21,0.1,true,null],'2':{},'addons':{'a':{'platform':'url'}}}" in
  let s := fresh (u "/project/gluon.json") (Some t) in
  exists config,
    fst (resolve t s) = Return config /\
    JSON_parse (JSON_stringify config) = Some config /\
    fst (resolve (JSON_stringify config) s) = Return config.
Proof.
  intros t s.
  destruct (resolve t s) as [[config|c|e] s'] eqn:Hr;
    try (vm_compute in Hr; discriminate).
  exists config. split; [reflexivity|].
  assert (Hs : stable config = true).
  { vm_compute in Hr. injection Hr as <- _. vm_compute. reflexivity. }
  destruct (resolve_saved_config t s s' config Hr Hs) as [H1 H2].
  split; [exact H1|].
  destruct (H2 s) as [evs ->]. reflexivity.
Defined.

(** C6 as stated fails: [{"name":1e999}] resolves to a Config whose [name]
    is Infinity; [saveConfig] writes it as [null], and resolving the saved
    text gives a Config whose [name] is [null]. *)
Lemma overflowing_number_not_restored :
  let t := js "{'name':1e999}" in
  let s := fresh (u "/project/gluon.json") (Some t) in
  exists o o',
    fst (resolve t s) = Return (JObj o) /\
    fst (resolve (JSON_stringify (JObj o)) s) = Return (JObj o') /\
    obj_lookup (u "name") o = Some (JNum (S754_infinity false)) /\
    obj_lookup (u "name") o' = Some JNull /\
    JObj o <> JObj o'.
Proof.
  eexists. eexists. split; [vm_compute; reflexivity|].
  split; [vm_compute; reflexivity|].
  split; [vm_compute; reflexivity|].
  split; [vm_compute; reflexivity|].
  discriminate.
Qed.

(** * Lemmas on the diagnostics *)

(** ** Exact logs *)

Lemma writes_ext {A} (m : M A) (o : outcome A) (ev ev' : jsstring -> list event) :
  writes m o ev -> (forall p, ev p = ev' p) -> writes m o ev'.
Proof. intros H E s. rewrite H. now rewrite E. Qed.

Lemma writes_bind_pure {A B} (r : exn + A) (a : A) (k : A -> M B) (o : outcome B) ev :
  r = inr a -> writes (k a) o ev -> writes (bind (lift r) k) o ev.
Proof. intros -> H s. unfold bind, lift, ret. apply H. Qed.

Lemma writes_bind_pure_throw {A B} (r : exn + A) (e : exn) (k : A -> M B) :
  r = inl e -> writes (bind (lift r) k) (Throw e) (fun _ => []).
Proof. intros -> s. unfold bind, lift, throw. now rewrite log_events_nil. Qed.

Lemma writes_require_prop (a : value) (prop addonKey : jsstring) :
  a <> JNull ->
  writes (require_prop (Some a) prop addonKey) (Return tt)
    (fun _ => missing_errors addonKey a [prop]).
Proof.
  intros Hnn. unfold require_prop.
  eapply writes_bind_pure; [now apply get_not_null|].
  unfold missing_errors, addon_prop. cbn [flat_map]. cbv beta.
  destruct (truthy (obj_lookup prop (own_props (Some a)))); cbn [negb when app].
  - apply writes_ret.
  - apply writes_emit.
Qed.

Lemma examinable_cases (a : value) :
  examinable a = true ->
  a <> JNull /\
  (exists text, toString (addon_prop a (u "platform")) = inr text) /\
  forall name, loose_eq_name (addon_prop a (u "platform")) name = inr (platform_is a name).
Proof.
  intros H. assert (Hnn : a <> JNull) by (intros ->; discriminate).
  unfold examinable in H. rewrite (get_not_null _ _ Hnn) in H.
  fold (addon_prop a (u "platform")) in H.
  destruct (toString (addon_prop a (u "platform"))) as [e|text] eqn:Ht; [discriminate|].
  split; [assumption|]. split; [eauto|].
  intros name. unfold platform_is.
  destruct (loose_eq_name_total _ name _ Ht) as [b ->]. reflexivity.
Qed.

Lemma missing_errors_app (addonKey : jsstring) (a : value) (ps qs : list jsstring) :
  missing_errors addonKey a (ps ++ qs) =
  missing_errors addonKey a ps ++ missing_errors addonKey a qs.
Proof. unfold missing_errors. apply flat_map_app. Qed.

(** One turn of the loop on an examinable entry logs [addon_diagnostics]. *)
Lemma writes_check_addon (addons : jsval) (addonKey : jsstring) (a : value) :
  get addons addonKey = inr (Some a) ->
  examinable a = true ->
  writes (check_addon addons addonKey) (Return tt) (fun _ => addon_diagnostics addonKey a).
Proof.
  intros Hget Hex.
  destruct (examinable_cases a Hex) as (Hnn & [text Ht] & Hloose).
  pose proof (get_not_null a (u "platform") Hnn) as Hp.
  fold (addon_prop a (u "platform")) in Hp.
  unfold check_addon.
  eapply writes_bind_pure; [exact Hget|].
  unfold addon_diagnostics, required_props.
  assert (Hstep : forall name (k : bool -> M unit) o ev,
             writes (k (platform_is a name)) o ev ->
             writes (platform <- lift (get (Some a) (u "platform"));;
                     b <- lift (loose_eq_name platform name);; k b) o ev).
  { intros name k o ev H.
    eapply writes_bind_pure; [exact Hp|].
    eapply writes_bind_pure; [apply Hloose | exact H]. }
  destruct (platform_is a (u "url")) eqn:B1.
  { eapply writes_ext.
    - eapply writes_bind_return; [now apply writes_require_prop|].
      apply Hstep. rewrite B1. now apply writes_require_prop.
    - intros p. cbv beta. now rewrite <- missing_errors_app. }
  destruct (platform_is a (u "amo")) eqn:B2.
  { eapply writes_ext.
    - eapply writes_bind_return; [now apply writes_require_prop|].
      apply Hstep. rewrite B1. apply Hstep. rewrite B2.
      eapply writes_bind_return; now apply writes_require_prop.
    - intros p. cbv beta. now rewrite <- !missing_errors_app. }
  destruct (platform_is a (u "github")) eqn:B3.
  { eapply writes_ext.
    - eapply writes_bind_return; [now apply writes_require_prop|].
      apply Hstep. rewrite B1. apply Hstep. rewrite B2. apply Hstep. rewrite B3.
      eapply writes_bind_return; [now apply writes_require_prop|].
      eapply writes_bind_return; now apply writes_require_prop.
    - intros p. cbv beta. now rewrite <- !missing_errors_app. }
  eapply writes_bind_return; [now apply writes_require_prop|].
  apply Hstep. rewrite B1. apply Hstep. rewrite B2. apply Hstep. rewrite B3.
  eapply writes_bind_pure; [exact Hp|].
  eapply writes_bind_pure; [exact Ht|].
  unfold platform_text. rewrite Ht. apply writes_emit.
Qed.


Lemma writes_check_addons (addons : jsval) (l : object) :
  (forall k a, In (k, a) l -> get addons k = inr (Some a)) ->
  forallb examinable (map snd l) = true ->
  writes (for_each (map fst l) (check_addon addons)) (Return tt)
    (fun _ => diagnostics_of l).
Proof.
  induction l as [|[k a] l IH]; simpl; intros H Hex.
  - apply writes_ret.
  - apply andb_true_iff in Hex as [Ha Hl].
    eapply writes_bind_return.
    + apply writes_check_addon; [apply H; now left | exact Ha].
    + apply IH; [intros; apply H; now right | exact Hl].
Qed.

Lemma writes_validate_returns (m : object) (product : jsval) :
  wf (JObj m) ->
  get (obj_lookup (u "version") m) (u "product") = inr product ->
  includes validProducts product = true ->
  forallb examinable (map snd (addon_entries m)) = true ->
  writes (validate m) (Return (JObj m)) (fun _ => diagnostics_of (addon_entries m)).
Proof.
  intros Hm Hprod Hi Hex. unfold validate.
  eapply writes_bind_pure; [reflexivity|].
  eapply writes_bind_pure; [exact Hprod|].
  rewrite Hi. cbn [negb when].
  eapply writes_ext.
  - eapply writes_bind_return; [apply writes_ret|].
    eapply writes_bind_pure; [reflexivity|].
    eapply writes_bind_return; [|apply writes_ret].
    apply (writes_check_addons _ (addon_entries m)); [|exact Hex].
    intros k a. apply own_props_get. unfold addon_entries.
    inversion Hm as [| | | | |o Ho Hall]; subst.
    change (own_props (Some (JObj m))) with m.
    destruct (obj_lookup (u "addons") m) as [x|] eqn:E; [|constructor].
    apply own_props_NoDup. eapply wf_lookup; eauto.
  - intros p. cbv beta. simpl. now rewrite app_nil_r.
Qed.

Lemma writes_validate_invalid (m : object) (product : jsval) (text : jsstring) :
  get (obj_lookup (u "version") m) (u "product") = inr product ->
  includes validProducts product = false ->
  toString product = inr text ->
  writes (validate m) (Exit 1)
    (fun _ => [LogError (text ++ u " is not a valid product")]).
Proof.
  intros Hprod Hi Ht. unfold validate.
  eapply writes_bind_pure; [reflexivity|].
  eapply writes_bind_pure; [exact Hprod|].
  rewrite Hi. cbn [negb when].
  apply writes_bind_exit.
  eapply writes_bind_pure; [exact Ht|].
  eapply writes_ext.
  - eapply writes_bind_return; [apply writes_emit | apply writes_exit].
  - intros p. reflexivity.
Qed.

Lemma writes_validate_throws (m : object) (e : exn) :
  get (obj_lookup (u "version") m) (u "product") = inl e ->
  writes (validate m) (Throw e) (fun _ => []).
Proof.
  intros H. unfold validate.
  eapply writes_bind_pure; [reflexivity|].
  now apply writes_bind_pure_throw.
Qed.

(** A document that is not [null]: the advice about [binaryName], then
    the validation of the merged record. *)
Lemma resolve_parsed (t : jsstring) (d : value) (s : state) (o : outcome value) ev :
  JSON_parse t = Some d -> d <> JNull ->
  writes (validate (merge_defaults d)) o ev ->
  resolve t s = (o, log_events s (binaryName_advice d ++ ev (configPath s))).
Proof.
  intros Hp Hnn Hv. unfold resolve. rewrite Hp.
  assert (Hw : writes
                 (binaryName <- lift (get (Some d) (u "binaryName"));;
                  when (negb (truthy binaryName)) (log.warning binaryName_warning);;
                  validate (merge_defaults d))
                 o (fun p => binaryName_advice d ++ ev p)).
  { eapply writes_bind_pure; [now apply get_not_null|].
    eapply writes_bind_return; [|exact Hv].
    unfold binaryName_advice.
    destruct (truthy (obj_lookup (u "binaryName") (own_props (Some d))));
      cbn [negb when]; [apply writes_ret | apply writes_emit]. }
  unfold bind at 1. unfold ret at 1. apply Hw.
Qed.

Lemma validate_verdict_returns (m : object) (config : value) :
  validate_verdict m = Return config ->
  config = JObj m /\
  exists product,
    get (obj_lookup (u "version") m) (u "product") = inr product /\
    includes validProducts product = true /\
    forallb examinable (map snd (addon_entries m)) = true.
Proof.
  unfold validate_verdict, addon_entries.
  destruct (get _ _) as [e|product]; [discriminate|].
  destruct (includes validProducts product) eqn:Hi.
  - destruct (forallb _ _) eqn:Hex; [|discriminate].
    intros E. injection E as <-. split; [reflexivity|]. eauto.
  - destruct (toString product); discriminate.
Qed.

(** What a resolution that returns has established and logged. *)
Lemma resolve_returned (t : jsstring) (d config : value) (s s' : state) :
  JSON_parse t = Some d ->
  resolve t s = (Return config, s') ->
  d <> JNull /\ config = JObj (merge_defaults d) /\
  forallb examinable (map snd (addon_entries (merge_defaults d))) = true /\
  s' = log_events s
         (binaryName_advice d ++ diagnostics_of (addon_entries (merge_defaults d))).
Proof.
  intros Hp H.
  pose proof (resolve_verdict t s) as V. rewrite H in V. simpl in V.
  unfold verdict in V. rewrite Hp in V.
  assert (Hnn : d <> JNull) by (intros ->; discriminate).
  assert (Hv : validate_verdict (merge_defaults d) = Return config).
  { destruct d; try (symmetry; exact V). contradiction. }
  destruct (validate_verdict_returns _ _ Hv) as (-> & product & Hprod & Hi & Hex).
  pose proof (merge_defaults_wf d (JSON_parse_wf _ _ Hp)) as Hw.
  pose proof (resolve_parsed t d s _ _ Hp Hnn
                (writes_validate_returns _ product Hw Hprod Hi Hex)) as R.
  rewrite R in H. injection H as <-. auto.
Qed.

Lemma missing_errors_nil (addonKey : jsstring) (a : value) (props : list jsstring) :
  missing_errors addonKey a props = [] <->
  forallb (fun prop => truthy (addon_prop a prop)) props = true.
Proof.
  unfold missing_errors. induction props as [|p ps IH]; simpl; [tauto|].
  destruct (truthy (addon_prop a p)); simpl.
  - exact IH.
  - split; discriminate.
Qed.

Lemma addon_diagnostics_nil (addonKey : jsstring) (a : value) :
  addon_diagnostics addonKey a = [] <-> complete a = true.
Proof.
  unfold addon_diagnostics, complete.
  destruct (required_props a) as [props|].
  - apply missing_errors_nil.
  - split; [|discriminate]. intros H. apply app_eq_nil in H as [_ H]. discriminate.
Qed.

Lemma diagnostics_of_nil (l : object) :
  diagnostics_of l = [] <-> forallb complete (map snd l) = true.
Proof.
  unfold diagnostics_of. induction l as [|[k a] l IH]; simpl; [tauto|].
  split.
  - intros H. apply app_eq_nil in H as [H1 H2].
    apply andb_true_iff. split; [now apply (addon_diagnostics_nil k) | now apply IH].
  - intros H. apply andb_true_iff in H as [H1 H2].
    apply (addon_diagnostics_nil k) in H1. apply IH in H2. now rewrite H1, H2.
Qed.

Lemma log_events_same (s : state) (evs : list event) : log_events s evs = s -> evs = [].
Proof.
  intros H. apply (f_equal trace) in H. simpl in H.
  rewrite <- (app_nil_r (trace s)) in H at 2. now apply app_inv_head in H.
Qed.

(** ** The merged record *)

Lemma merge_defaults_extends (d : value) : extends default_props (merge_defaults d).
Proof.
  unfold merge_defaults. cbv zeta.
  apply extends_set; [apply default_props_base|].
  rewrite spread_over by (apply defaultConfig_wf || now eexists).
  apply extends_fold_set; [apply default_props_base | apply extends_refl].
Qed.

Lemma license_extends (d : value) :
  exists lic,
    obj_lookup (u "license") (merge_defaults d) = Some (JObj lic) /\
    extends default_license_props lic /\
    lic = fold_left set_entry
            (own_props (obj_lookup (u "license") (spread [Some defaultConfig; Some d])))
            default_license_props.
Proof.
  eexists. split; [|split].
  - unfold merge_defaults. cbv zeta. rewrite obj_lookup_set, str_eqb_refl. reflexivity.
  - rewrite spread_over by (apply defaultLicenseConfig_wf || now eexists).
    apply extends_fold_set; [apply default_license_props_base | apply extends_refl].
  - apply spread_over; [apply defaultLicenseConfig_wf | now eexists].
Qed.

Lemma existsb_str_eqb (k : jsstring) (l : list jsstring) :
  existsb (str_eqb k) l = true <-> In k l.
Proof.
  rewrite existsb_exists. split.
  - intros (x & Hx & E). apply str_eqb_eq in E. now subst.
  - intros H. exists k. split; [assumption | apply str_eqb_refl].
Qed.

Lemma filter_all {A} (f : A -> bool) (l : list A) :
  (forall x, In x l -> f x = true) -> filter f l = l.
Proof.
  induction l as [|x l IH]; simpl; intros H; [reflexivity|].
  rewrite (H x) by now left. f_equal. apply IH. auto.
Qed.

Lemma filter_none {A} (f : A -> bool) (l : list A) :
  (forall x, In x l -> f x = false) -> filter f l = [].
Proof.
  induction l as [|x l IH]; simpl; intros H; [reflexivity|].
  rewrite (H x) by now left. apply IH. auto.
Qed.

Lemma extends_keys (B o : object) :
  base_ok B -> extends B o ->
  filter (fun k => existsb (str_eqb k) (map fst B)) (map fst o) = map fst B.
Proof.
  intros [HndB HplainB] (A & B' & C & -> & HA & HidxA & HB' & HC & HndC).
  rewrite !map_app, !filter_app.
  rewrite (filter_none _ (map fst A)), (filter_all _ (map fst B')), (filter_none _ (map fst C)).
  - rewrite app_nil_r. exact HB'.
  - intros k Hk. destruct (existsb (str_eqb k) (map fst B)) eqn:E; [|reflexivity].
    apply existsb_str_eqb in E. destruct (HC k Hk) as [_ Hn]. contradiction.
  - intros k Hk. apply existsb_str_eqb. now rewrite <- HB'.
  - intros k Hk. destruct (existsb (str_eqb k) (map fst B)) eqn:E; [|reflexivity].
    apply existsb_str_eqb in E. apply HplainB in E. apply HidxA in Hk. contradiction.
Qed.

Lemma extends_has (B o : object) (k : jsstring) :
  extends B o -> In k (map fst B) -> obj_lookup k o <> None.
Proof.
  intros (A & B' & C & -> & _ & _ & HB' & _) Hk.
  assert (Hin : In k (map fst (A ++ B' ++ C))).
  { rewrite !map_app, !in_app_iff. right. left. now rewrite HB'. }
  destruct (obj_lookup_some _ _ Hin) as [v ->]. discriminate.
Qed.

(** ** Blank text *)

Lemma skip_ws_blank (t : jsstring) : blank t = true -> skip_ws t = [].
Proof.
  unfold blank. induction t as [|c t IH]; simpl; [reflexivity|].
  intros H. apply andb_true_iff in H as [Hc Ht]. rewrite Hc. auto.
Qed.

Lemma JSON_parse_blank (t : jsstring) : blank t = true -> JSON_parse t = None.
Proof.
  intros H. unfold JSON_parse.
  rewrite parse_value_skip, (skip_ws_blank t H). reflexivity.
Qed.

Lemma resolve_unparsed (t : jsstring) (s : state) :
  JSON_parse t = None ->
  resolve t s =
    (Exit 1,
     log_events s
       [LogError (u "Error parsing melon config file located at " ++ configPath s);
        LogErrorExn SyntaxError]).
Proof.
  intros H. unfold resolve. rewrite H.
  unfold bind, log.error, log.error_exn, emit, process_exit, log_events. simpl.
  now rewrite <- app_assoc.
Qed.

(** ** Reading without writing *)

Lemma reads_only_refl (s : state) : reads_only s s.
Proof.
  split; [reflexivity|]. split; [reflexivity|].
  exists []. now rewrite app_nil_r.
Qed.

Lemma reads_only_trans (s1 s2 s3 : state) :
  reads_only s1 s2 -> reads_only s2 s3 -> reads_only s1 s3.
Proof.
  intros (F1 & P1 & e1 & T1 & W1) (F2 & P2 & e2 & T2 & W2).
  split; [congruence|]. split; [congruence|].
  exists (e1 ++ e2). rewrite T2, T1, app_assoc, forallb_app, W1, W2. auto.
Qed.

Lemma reads_only_log (s : state) (evs : list event) :
  forallb (fun e => negb (is_write e)) evs = true -> reads_only s (log_events s evs).
Proof. intros H. split; [reflexivity|]. split; [reflexivity|]. exists evs. auto. Qed.

Lemma diagnostics_not_writes (evs : list event) :
  forallb is_diagnostic evs = true -> forallb (fun e => negb (is_write e)) evs = true.
Proof.
  induction evs as [|e evs IH]; simpl; [reflexivity|].
  intros H. apply andb_true_iff in H as [He Hevs]. rewrite (IH Hevs).
  destruct e; try reflexivity. discriminate.
Qed.

Lemma rawConfig_reads_only (s s' : state) (o : outcome jsstring) :
  rawConfig s = (o, s') -> reads_only s s'.
Proof.
  intros H.
  destruct (mockConfig s) as [|c m] eqn:Hm.
  - destruct (file s) as [contents|] eqn:Hf.
    + rewrite (rawConfig_file s _ Hm Hf) in H. injection H as _ <-.
      now apply reads_only_log.
    + destruct (hasWarnedAboutConfig s) eqn:Hw.
      * rewrite (rawConfig_absent_warned s Hm Hf Hw) in H. injection H as _ <-.
        now apply reads_only_log.
      * rewrite (rawConfig_absent_first s Hm Hf Hw) in H. injection H as _ <-.
        split; [simpl; congruence|]. split; [reflexivity|].
        eexists. split; reflexivity.
  - rewrite rawConfig_mock in H by (rewrite Hm; discriminate).
    injection H as _ <-. apply reads_only_refl.
Qed.

Lemma getConfig_reads_only (s s' : state) (o : outcome value) :
  getConfig s = (o, s') -> reads_only s s'.
Proof.
  unfold getConfig, bind. intros H.
  destruct (rawConfig s) as [[t|c|e] s1] eqn:Hr;
    pose proof (rawConfig_reads_only _ _ _ Hr) as K1.
  - eapply reads_only_trans; [exact K1|].
    destruct (logs_frame _ _ _ _ (logs_resolve t) H) as (evs & -> & Hd).
    apply reads_only_log. now apply diagnostics_not_writes.
  - now injection H as _ <-.
  - now injection H as _ <-.
Qed.

Lemma perform_reads_only (config : value) (c : call) (s s' : state) (o : outcome answer) :
  changes_file c = false -> perform config c s = (o, s') -> reads_only s s'.
Proof.
  destruct c; simpl; try discriminate; unfold bind; intros _ H.
  - destruct (getConfig s) as [[v|c|e] s1] eqn:Hg;
      pose proof (getConfig_reads_only _ _ _ Hg); now injection H as _ <-.
  - destruct (rawConfig s) as [[v|c|e] s1] eqn:Hg;
      pose proof (rawConfig_reads_only _ _ _ Hg); now injection H as _ <-.
  - injection H as _ <-. split; [reflexivity|]. split; [reflexivity|].
    exists []. simpl. now rewrite app_nil_r.
  - injection H as _ <-. now apply (reads_only_log s [ExistsSync]).
  - injection H as _ <-. apply reads_only_refl.
Qed.

(** * Further properties of the module *)

Lemma load_without_file (path : jsstring) :
  exists s1,
    getConfig (fresh path None) = (Return defaultConfig, s1) /\
    hasWarnedAboutConfig s1 = true /\ missing_warnings s1 = 1.
Proof.
  unfold getConfig, bind.
  rewrite (rawConfig_absent_first (fresh path None) eq_refl eq_refl eq_refl), resolve_at.
  eexists. split; [vm_compute fst; reflexivity|]. split; [reflexivity|].
  unfold missing_warnings. simpl. now rewrite str_eqb_refl.
Qed.

(** X1.  With no override and no file, [getConfig] returns
    [defaultConfig], whether or not the missing file was reported before,
    and the flag is up afterwards. *)
Theorem getConfig_without_file (s : state) :
  mockConfig s = [] -> file s = None ->
  exists s',
    getConfig s = (Return defaultConfig, s') /\
    hasWarnedAboutConfig s' = true /\
    trace s' = trace s ++ ExistsSync ::
      (if hasWarnedAboutConfig s then []
       else [LogWarning (missing_config_warning (configPath s))]) ++
      [LogWarning binaryName_warning].
Proof.
  intros Hm Hf. unfold getConfig, bind.
  destruct (hasWarnedAboutConfig s) eqn:Hw.
  - rewrite (rawConfig_absent_warned s Hm Hf Hw), resolve_at.
    eexists. split; [vm_compute fst; reflexivity|].
    split; [exact Hw|]. simpl. now rewrite <- app_assoc.
  - rewrite (rawConfig_absent_first s Hm Hf Hw), resolve_at.
    eexists. split; [vm_compute fst; reflexivity|].
    split; [reflexivity|]. simpl. now rewrite <- app_assoc.
Qed.

Lemma getConfig_without_file_witness :
  let s := fresh (u "/project/gluon.json") None in
  exists s',
    getConfig s = (Return defaultConfig, s') /\
    hasWarnedAboutConfig s' = true /\
    trace s' = trace s ++ ExistsSync ::
      (if hasWarnedAboutConfig s then []
       else [LogWarning (missing_config_warning (configPath s))]) ++
      [LogWarning binaryName_warning].
Proof.
  apply (getConfig_without_file (fresh (u "/project/gluon.json") None)); reflexivity.
Defined.

(** X2.  With no override, a file that exists but holds only white space
    (or nothing) is fatal: [getConfig] reads it, logs the two parse
    errors and ends the process with code 1; the missing-file warning is
    not involved. *)
Theorem getConfig_blank_file (s : state) (contents : jsstring) :
  mockConfig s = [] -> file s = Some contents -> blank contents = true ->
  getConfig s =
    (Exit 1,
     log_events s
       [ExistsSync; ReadFileSync;
        LogError (u "Error parsing melon config file located at " ++ configPath s);
        LogErrorExn SyntaxError]).
Proof.
  intros Hm Hf Hb. unfold getConfig, bind.
  rewrite (rawConfig_file s _ Hm Hf).
  rewrite (resolve_unparsed _ _ (JSON_parse_blank _ Hb)).
  now rewrite log_events_app.
Qed.

Lemma getConfig_blank_file_witness :
  let s := fresh (u "/project/gluon.json") (Some (u "  ")) in
  getConfig s =
    (Exit 1,
     log_events s
       [ExistsSync; ReadFileSync;
        LogError (u "Error parsing melon config file located at " ++ configPath s);
        LogErrorExn SyntaxError]).
Proof.
  apply (getConfig_blank_file (fresh (u "/project/gluon.json") (Some (u "  "))) (u "  "));
    reflexivity.
Defined.

(** X3.  A document without properties of its own resolves to
    [defaultConfig] with the advice about [binaryName] as only diagnostic,
    be it [{}], [[]], an empty string, a number or a boolean; the one
    exception is [null], on which resolution throws a TypeError before
    logging anything. *)
Theorem resolve_without_properties (t : jsstring) (d : value) (s : state) :
  JSON_parse t = Some d -> own_props (Some d) = [] ->
  resolve t s =
    match d with
    | JNull => (Throw TypeError, s)
    | _ => (Return defaultConfig, log_events s [LogWarning binaryName_warning])
    end.
Proof.
  intros Hp Hown.
  assert (Hnull : resolve t s = (Throw TypeError, s) \/ d <> JNull).
  { destruct d; try (right; discriminate). left.
    unfold resolve. now rewrite Hp. }
  assert (Hgo : d <> JNull ->
                resolve t s =
                  (Return defaultConfig, log_events s [LogWarning binaryName_warning])).
  { intros Hnn.
    assert (Hm : merge_defaults d = default_props).
    { assert (E : spread [Some defaultConfig; Some d] = default_props).
      { change (spread [Some defaultConfig; Some d])
          with (copy_props (spread [Some defaultConfig]) (Some d)).
        unfold copy_props at 1. rewrite Hown. reflexivity. }
      unfold merge_defaults. cbv zeta. rewrite E. reflexivity. }
    assert (Hw : writes (validate (merge_defaults d)) (Return defaultConfig) (fun _ => [])).
    { rewrite Hm.
      apply (writes_validate_returns default_props (Some (JStr (product_name Firefox))));
        try reflexivity.
      apply defaultConfig_wf. }
    rewrite (resolve_parsed t d s _ _ Hp Hnn Hw).
    unfold binaryName_advice. rewrite Hown. reflexivity. }
  destruct d; try (apply Hgo; discriminate).
  destruct Hnull as [H|H]; [exact H | contradiction].
Qed.

Lemma resolve_without_properties_witness :
  let s := fresh (u "/project/gluon.json") None in
  resolve (js "42") s =
    (Return defaultConfig, log_events s [LogWarning binaryName_warning]) /\
  resolve (js "null") s = (Throw TypeError, s).
Proof.
  intros s. split.
  - apply (resolve_without_properties (js "42") (JNum (S754_finite false 5910974510923776 (-47))) s);
      vm_compute; reflexivity.
  - apply (resolve_without_properties (js "null") JNull s); vm_compute; reflexivity.
Defined.

(** X4.  The product check accepts exactly the strings of the enum
    [SupportedProducts]: a value passes if and only if it is a string
    equal to the value of one of the five members, and no two members
    have the same value. *)
Theorem validProducts_is_the_enum (v : jsval) :
  (includes validProducts v = true <->
   exists p : SupportedProducts, v = Some (JStr (product_name p))) /\
  (forall p q : SupportedProducts, product_name p = product_name q -> p = q).
Proof.
  split; [split|].
  - destruct v as [[| | | s | |]|]; cbn [includes]; try discriminate.
    intros H. apply existsb_exists in H as (name & Hin & E).
    apply str_eqb_eq in E. subst name.
    apply in_map_iff in Hin as (p & <- & _). now exists p.
  - intros [p ->]. destruct p; reflexivity.
  - intros p q H. destruct p, q; try reflexivity; discriminate.
Qed.

Lemma writes_validate_unprintable (m : object) (product : jsval) (e : exn) :
  get (obj_lookup (u "version") m) (u "product") = inr product ->
  includes validProducts product = false ->
  toString product = inl e ->
  writes (validate m) (Throw e) (fun _ => []).
Proof.
  intros Hprod Hi Ht. unfold validate.
  eapply writes_bind_pure; [reflexivity|].
  eapply writes_bind_pure; [exact Hprod|].
  rewrite Hi. cbn [negb when].
  apply writes_bind_throw.
  now apply writes_bind_pure_throw.
Qed.

(** X5.  When the merged [version.product] is not a supported product,
    no addon is looked at.  If the product converts to a string,
    resolution logs the advice about [binaryName] if due, then one error
    naming the product as the template literal prints it, and ends the
    process with code 1.  If it does not (an object with a [toString]
    property of its own), building the message throws a TypeError, with
    only the advice logged. *)
Theorem unsupported_product (t : jsstring) (d : value) (product : jsval) (s : state) :
  JSON_parse t = Some d ->
  merged_product d = inr product ->
  includes validProducts product = false ->
  resolve t s =
    match toString product with
    | inr text =>
        (Exit 1,
         log_events s
           (binaryName_advice d ++ [LogError (text ++ u " is not a valid product")]))
    | inl _ => (Throw TypeError, log_events s (binaryName_advice d))
    end.
Proof.
  intros Hp Hprod Hi.
  assert (Hnn : d <> JNull).
  { intros ->. rewrite merged_product_null in Hprod. injection Hprod as <-. discriminate. }
  destruct (toString product) as [e|text] eqn:Ht.
  - pose proof (toString_throws _ _ Ht) as ->.
    rewrite (resolve_parsed t d s (Throw TypeError) (fun _ => []) Hp Hnn).
    + now rewrite app_nil_r.
    + now apply (writes_validate_unprintable _ product).
  - apply (resolve_parsed t d s (Exit 1)
             (fun _ => [LogError (text ++ u " is not a valid product")]) Hp Hnn).
    now apply (writes_validate_invalid _ product).
Qed.

Lemma unsupported_product_witness :
  let s := fresh (u "/project/gluon.json") None in
  resolve (js "{'binaryName':'x','version':{'product':'chrome'},'addons':{'a':{}}}") s =
    (Exit 1, log_events s [LogError (u "chrome is not a valid product")]) /\
  resolve (js "{'version':{'product':{'toString':1}}}") s =
    (Throw TypeError, log_events s [LogWarning binaryName_warning]).
Proof.
  intros s. split.
  - set (t := js "{'binaryName':'x','version':{'product':'chrome'},'addons':{'a':{}}}").
    destruct (JSON_parse t) as [d|] eqn:Hp; [|vm_compute in Hp; discriminate].
    rewrite (unsupported_product t d (Some (JStr (u "chrome"))) s Hp);
      vm_compute in Hp; injection Hp as <-; vm_compute; reflexivity.
  - set (t := js "{'version':{'product':{'toString':1}}}").
    destruct (JSON_parse t) as [d|] eqn:Hp; [|vm_compute in Hp; discriminate].
    rewrite (unsupported_product t d
               (Some (JObj [(u "toString", JNum (S754_finite false 4503599627370496 (-52)))]))
               s Hp);
      vm_compute in Hp; injection Hp as <-; vm_compute; reflexivity.
Defined.

(** X6.  A document whose [version] is [null] makes resolution throw a
    TypeError when it reads [version.product]; only the advice about
    [binaryName] has been logged by then. *)
Theorem null_version_throws (t : jsstring) (d : value) (s : state) :
  JSON_parse t = Some d ->
  obj_lookup (u "version") (own_props (Some d)) = Some JNull ->
  resolve t s = (Throw TypeError, log_events s (binaryName_advice d)).
Proof.
  intros Hp Hv.
  assert (Hnn : d <> JNull) by (intros ->; discriminate).
  pose proof (JSON_parse_wf _ _ Hp) as Hd.
  assert (Hm : obj_lookup (u "version") (merge_defaults d) = Some JNull).
  { rewrite merge_defaults_lookup by (assumption || discriminate). now rewrite Hv. }
  rewrite (resolve_parsed t d s (Throw TypeError) (fun _ => []) Hp Hnn).
  - now rewrite app_nil_r.
  - apply writes_validate_throws. now rewrite Hm.
Qed.

Lemma null_version_throws_witness :
  let t := js "{'version':null,'binaryName':'x'}" in
  let s := fresh (u "/project/gluon.json") None in
  resolve t s = (Throw TypeError, s).
Proof.
  intros t s.
  destruct (JSON_parse t) as [d|] eqn:Hp; [|vm_compute in Hp; discriminate].
  rewrite (null_version_throws t d s Hp);
    vm_compute in Hp; injection Hp as <-; vm_compute; reflexivity.
Defined.

Lemma loose_eq_unprintable (p : jsval) (name : jsstring) (e : exn) :
  toString p = inl e -> loose_eq_name p name = inl TypeError.
Proof.
  destruct p as [[| [|] | n | s0 | l | o]|]; intros H; try discriminate H;
    unfold toString in H; unfold loose_eq_name;
    destruct (value_toString _); (discriminate H || reflexivity).
Qed.

Lemma writes_check_addon_throws (addons : jsval) (addonKey : jsstring) (a : value) (e : exn) :
  get addons addonKey = inr (Some a) ->
  a <> JNull ->
  toString (addon_prop a (u "platform")) = inl e ->
  writes (check_addon addons addonKey) (Throw TypeError)
    (fun _ => missing_errors addonKey a [u "id"]).
Proof.
  intros Hget Hnn Ht. unfold check_addon.
  eapply writes_bind_pure; [exact Hget|].
  eapply writes_ext.
  - eapply writes_bind_return; [now apply writes_require_prop|].
    eapply writes_bind_pure; [now apply get_not_null|].
    apply writes_bind_pure_throw.
    exact (loose_eq_unprintable _ _ _ Ht).
  - intros p. cbv beta. now rewrite app_nil_r.
Qed.

Lemma examinable_true (a : value) (text : jsstring) :
  a <> JNull -> toString (addon_prop a (u "platform")) = inr text -> examinable a = true.
Proof.
  intros Hnn Ht. destruct (examinable a) eqn:E; [reflexivity|].
  apply examinable_false in E as [E|E]; [contradiction | congruence].
Qed.

Lemma complete_printable (a : value) :
  complete a = true -> exists text, toString (addon_prop a (u "platform")) = inr text.
Proof.
  intros H. destruct (toString (addon_prop a (u "platform"))) as [e|text] eqn:Ht; [|eauto].
  unfold complete, required_props, platform_is in H.
  rewrite !(loose_eq_unprintable _ _ _ Ht) in H. discriminate.
Qed.

(** X7.  One turn of the addon loop, on an entry that is not [null].  If
    its platform converts to a string, the turn returns after logging
    one error for each missing or falsy property among those the platform
    asks for ([id] and [url] for url; [id], [amoId], [version] for amo;
    [id], [repo], [version], [fileGlob] for github), in that order; for
    any other platform it checks [id] and reports the platform as
    unknown.  If the platform does not convert to a string (an object with
    a [toString] property of its own), the turn logs the error about [id]
    if due and throws a TypeError at the first comparison.  The turn
    returns with nothing logged exactly when the platform is one of the
    three and all it asks for is there. *)
Theorem check_addon_logs (addons : jsval) (addonKey : jsstring) (a : value) (s : state) :
  get addons addonKey = inr (Some a) ->
  a <> JNull ->
  check_addon addons addonKey s =
    match toString (addon_prop a (u "platform")) with
    | inr _ => (Return tt, log_events s (addon_diagnostics addonKey a))
    | inl _ => (Throw TypeError, log_events s (missing_errors addonKey a [u "id"]))
    end /\
  (check_addon addons addonKey s = (Return tt, s) <-> complete a = true).
Proof.
  intros Hget Hnn.
  assert (H : check_addon addons addonKey s =
              match toString (addon_prop a (u "platform")) with
              | inr _ => (Return tt, log_events s (addon_diagnostics addonKey a))
              | inl _ => (Throw TypeError, log_events s (missing_errors addonKey a [u "id"]))
              end).
  { destruct (toString (addon_prop a (u "platform"))) as [e|text] eqn:Ht.
    - apply (writes_check_addon_throws addons addonKey a e Hget Hnn Ht).
    - apply (writes_check_addon addons addonKey a Hget (examinable_true a text Hnn Ht)). }
  split; [exact H|]. rewrite H. split.
  - destruct (toString (addon_prop a (u "platform"))); [discriminate|].
    intros E. injection E as E. apply log_events_same in E.
    now apply (addon_diagnostics_nil addonKey a).
  - intros Hc. destruct (complete_printable a Hc) as [text ->].
    apply (addon_diagnostics_nil addonKey a) in Hc. rewrite Hc.
    now rewrite log_events_nil.
Qed.

Lemma check_addon_logs_witness :
  let a := JObj [(u "platform", JStr (u "url")); (u "id", JStr (u "i"));
                 (u "url", JStr (u "https://example.org/a.xpi"))] in
  let b := JObj [(u "platform", JStr (u "github")); (u "repo", JStr (u "o/r"))] in
  let c := JObj [(u "platform", JObj [(u "toString", JBool true)])] in
  let addons := Some (JObj [(u "a", a); (u "b", b); (u "c", c)]) in
  let s := fresh (u "/project/gluon.json") None in
  check_addon addons (u "a") s = (Return tt, s) /\
  check_addon addons (u "b") s =
    (Return tt,
     log_events s
       [LogError (missing_property (u "id") (u "b"));
        LogError (missing_property (u "version") (u "b"));
        LogError (missing_property (u "fileGlob") (u "b"))]) /\
  check_addon addons (u "c") s =
    (Throw TypeError, log_events s [LogError (missing_property (u "id") (u "c"))]).
Proof.
  intros a b c addons s. split; [|split].
  - apply (check_addon_logs addons (u "a") a s eq_refl); [discriminate | reflexivity].
  - destruct (check_addon_logs addons (u "b") b s eq_refl) as [H _]; [discriminate|].
    rewrite H. reflexivity.
  - destruct (check_addon_logs addons (u "c") c s eq_refl) as [H _]; [discriminate|].
    rewrite H. reflexivity.
Defined.

(** X8.  A resolution that returns has logged, after what was there, the
    advice about [binaryName] if due and then the diagnostics of each
    entry of the merged [addons], entry after entry in property order
    (index keys first, ascending, then the others as written). *)
Theorem resolve_logs_in_order (t : jsstring) (d config : value) (s s' : state) :
  JSON_parse t = Some d ->
  resolve t s = (Return config, s') ->
  trace s' =
    trace s ++ binaryName_advice d ++
    diagnostics_of (addon_entries (merge_defaults d)).
Proof.
  intros Hp H.
  destruct (resolve_returned t d config s s' Hp H) as (_ & _ & _ & ->).
  reflexivity.
Qed.

Lemma resolve_logs_in_order_witness :
  let t := js "{'binaryName':'x','addons':{'b':{'platform':'url','id':'i'},'10':{'platform':'amo','id':'j','amoId':'k'},'2':{'id':'l'}}}" in
  let s := fresh (u "/project/gluon.json") None in
  trace (snd (resolve t s)) =
    [LogError (u "Unknown addon platform undefined");
     LogError (missing_property (u "version") (u "10"));
     LogError (missing_property (u "url") (u "b"))].
Proof.
  intros t s.
  destruct (JSON_parse t) as [d|] eqn:Hp; [|vm_compute in Hp; discriminate].
  destruct (resolve t s) as [[config|c|e] s'] eqn:Hr;
    try (vm_compute in Hr; discriminate).
  simpl snd. rewrite (resolve_logs_in_order t d config s s' Hp Hr).
  vm_compute in Hp. injection Hp as <-. vm_compute. reflexivity.
Defined.

(** X9.  A resolution that returns has logged nothing if and only if the
    file gives a truthy [binaryName] and every entry of the merged
    [addons] is complete. *)
Theorem resolve_is_silent (t : jsstring) (d config : value) (s s' : state) :
  JSON_parse t = Some d ->
  resolve t s = (Return config, s') ->
  (s' = s <->
   truthy (obj_lookup (u "binaryName") (own_props (Some d))) = true /\
   forallb complete (map snd (addon_entries (merge_defaults d))) = true).
Proof.
  intros Hp H.
  destruct (resolve_returned t d config s s' Hp H) as (_ & _ & _ & ->).
  unfold binaryName_advice. split.
  - intros E. apply log_events_same in E.
    apply app_eq_nil in E as [E1 E2].
    apply diagnostics_of_nil in E2. split; [|exact E2].
    destruct (truthy _); [reflexivity | discriminate].
  - intros [Hb Hc]. rewrite Hb. apply diagnostics_of_nil in Hc. rewrite Hc.
    apply log_events_nil.
Qed.

Lemma resolve_is_silent_witness :
  let t := js "{'binaryName':'zen','addons':{'a':{'platform':'amo','id':'i','amoId':'k','version':'1'}}}" in
  let s := fresh (u "/project/gluon.json") None in
  snd (resolve t s) = s.
Proof.
  intros t s.
  destruct (JSON_parse t) as [d|] eqn:Hp; [|vm_compute in Hp; discriminate].
  destruct (resolve t s) as [[config|c|e] s'] eqn:Hr;
    try (vm_compute in Hr; discriminate).
  simpl snd. apply (resolve_is_silent t d config s s' Hp Hr).
  vm_compute in Hp. injection Hp as <-. split; vm_compute; reflexivity.
Defined.

(** X10.  Whatever the document, the [license] of the merged record is an
    object that has both [ignoredFiles] and [licenseType]; it is exactly
    the default license when the document's [license] brings no property
    of its own (absent, [null], a number, a boolean, [""], [[]] or [{}]). *)
Theorem license_is_complete (d : value) :
  exists lic,
    obj_lookup (u "license") (merge_defaults d) = Some (JObj lic) /\
    obj_lookup (u "ignoredFiles") lic <> None /\
    obj_lookup (u "licenseType") lic <> None /\
    (own_props (obj_lookup (u "license") (spread [Some defaultConfig; Some d])) = [] ->
     JObj lic = defaultLicenseConfig).
Proof.
  destruct (license_extends d) as (lic & Hl & Hext & Heq).
  exists lic. split; [exact Hl|].
  split; [apply (extends_has _ _ _ Hext); simpl; auto|].
  split; [apply (extends_has _ _ _ Hext); simpl; auto|].
  intros H. rewrite Heq, H. reflexivity.
Qed.

(** X11.  Whatever the document, and in whatever order it lists its
    keys, the nine keys of [defaultConfig] appear in the merged record,
    each once, in the order of [defaultConfig]: [name], [vendor], [appId],
    [binaryName], [version], [buildOptions], [addons], [brands],
    [license]. *)
Theorem default_keys_in_order (d : value) :
  filter is_default_key (map fst (merge_defaults d)) =
    [u "name"; u "vendor"; u "appId"; u "binaryName"; u "version";
     u "buildOptions"; u "addons"; u "brands"; u "license"].
Proof.
  unfold is_default_key.
  rewrite (extends_keys default_props (merge_defaults d) default_props_base
             (merge_defaults_extends d)).
  reflexivity.
Qed.

(** X12.  Calls other than [saveConfig] never write: over any sequence of
    [getConfig], [rawConfig], [setMockRawConfig], [hasConfig] and reads
    of [config], however it ends, the file is left as it was and no
    [writeFileSync] is performed. *)
Theorem calls_never_write (config : value) (cs : list call) (s s' : state)
    (o : outcome (list answer)) :
  forallb (fun c => negb (changes_file c)) cs = true ->
  perform_all config cs s = (o, s') ->
  reads_only s s'.
Proof.
  revert s s' o. induction cs as [|c cs IH]; simpl; intros s s' o Hcs H.
  - injection H as _ <-. apply reads_only_refl.
  - apply andb_true_iff in Hcs as [Hc Hcs]. apply negb_true_iff in Hc.
    unfold bind in H.
    destruct (perform config c s) as [[a|c0|e] s1] eqn:Hp;
      pose proof (perform_reads_only _ _ _ _ _ Hc Hp) as K1.
    + destruct (perform_all config cs s1) as [[l|c0|e] s2] eqn:Hq;
        pose proof (IH _ _ _ Hcs Hq) as K2; injection H as _ <-;
        eapply reads_only_trans; eauto.
    + now injection H as _ <-.
    + now injection H as _ <-.
Qed.

Lemma calls_never_write_witness :
  let s := fresh (u "/project/gluon.json") (Some (js "{'name':'a'}")) in
  let cs := [GetConfig; SetMockRawConfig (js "{"); RawConfig; HasConfig; GetConfig] in
  reads_only s (snd (perform_all JNull cs s)) /\
  fst (perform_all JNull cs s) = Exit 1.
Proof.
  intros s cs. split; [|vm_compute; reflexivity].
  destruct (perform_all JNull cs s) as [o s'] eqn:H.
  exact (calls_never_write JNull cs s s' o eq_refl H).
Defined.

(** X13.  With an override installed, [getConfig] depends on nothing but
    the override: it ends as the resolution of the override does, its
    only effects are diagnostics, and the file is neither checked nor
    read, whatever it holds. *)
Theorem getConfig_with_override (s1 s2 : state) :
  mockConfig s1 <> [] -> mockConfig s2 = mockConfig s1 ->
  fst (getConfig s1) = fst (getConfig s2) /\
  fst (getConfig s1) = verdict (mockConfig s1) /\
  exists evs,
    snd (getConfig s1) = log_events s1 evs /\ forallb is_diagnostic evs = true.
Proof.
  intros Hm E.
  assert (H1 : getConfig s1 = resolve (mockConfig s1) s1).
  { unfold getConfig, bind. now rewrite (rawConfig_mock s1 Hm). }
  assert (H2 : getConfig s2 = resolve (mockConfig s1) s2).
  { unfold getConfig, bind. rewrite rawConfig_mock by congruence. now rewrite E. }
  rewrite H1, H2, !resolve_verdict. split; [reflexivity|]. split; [reflexivity|].
  destruct (resolve (mockConfig s1) s1) as [o s'] eqn:Hr.
  destruct (logs_frame _ _ _ _ (logs_resolve _) Hr) as (evs & -> & Hd).
  exists evs. split; [reflexivity | exact Hd].
Qed.

Lemma getConfig_with_override_witness :
  let s1 := snd (setMockRawConfig (js "{'name':'x'}") (fresh (u "/project/gluon.json") None)) in
  let s2 := snd (setMockRawConfig (js "{'name':'x'}")
                   (fresh (u "/project/gluon.json") (Some (js "{'name':'y'}")))) in
  fst (getConfig s1) = fst (getConfig s2) /\
  fst (getConfig s1) = verdict (js "{'name':'x'}").
Proof.
  intros s1 s2.
  destruct (getConfig_with_override s1 s2 ltac:(discriminate) eq_refl) as (H1 & H2 & _).
  split; [exact H1 | exact H2].
Defined.

(** X14.  [saveConfig] and then [getConfig]: when the record saved came
    out of a resolution and all its numbers survive serialization, and no
    override is installed, [getConfig] finds the file, reads it and
    returns that record again. *)
Theorem save_then_getConfig (t : jsstring) (s0 s0' s : state) (config : value) :
  resolve t s0 = (Return config, s0') ->
  stable config = true ->
  mockConfig s = [] ->
  exists s1 evs,
    saveConfig config s = (Return tt, s1) /\
    file s1 = Some (JSON_stringify config) /\
    getConfig s1 = (Return config, log_events s1 (ExistsSync :: ReadFileSync :: evs)) /\
    forallb is_diagnostic evs = true.
Proof.
  intros H Hs Hm.
  pose proof (resolve_verdict t s0) as V. rewrite H in V. simpl in V.
  destruct (JSON_parse t) as [d|] eqn:Hp;
    [|unfold verdict in V; rewrite Hp in V; discriminate].
  destruct (resolve_returns _ _ _ _ _ Hp H) as [-> Hnn].
  pose proof (merge_defaults_wf d (JSON_parse_wf _ _ Hp)) as Hw.
  pose proof (JSON_parse_stringify _ Hw Hs) as Hrt.
  set (config := JObj (merge_defaults d)) in *.
  assert (Hv : verdict (JSON_stringify config) = Return config).
  { unfold verdict in *. rewrite Hrt. rewrite Hp in V. subst config.
    rewrite merge_defaults_idem.
    destruct d; try (symmetry; exact V); contradiction. }
  destruct (saveConfig config s) as [o1 s1] eqn:Hsave.
  assert (Hs1 : o1 = Return tt /\ file s1 = Some (JSON_stringify config) /\
                mockConfig s1 = []).
  { unfold saveConfig, bind, emit in Hsave. injection Hsave as <- <-. simpl. auto. }
  destruct Hs1 as (-> & Hf1 & Hm1).
  destruct (resolve (JSON_stringify config) (log_events s1 [ExistsSync; ReadFileSync]))
    as [o s2] eqn:Hr.
  pose proof (resolve_verdict (JSON_stringify config)
                (log_events s1 [ExistsSync; ReadFileSync])) as V2.
  rewrite Hr, Hv in V2. simpl in V2. subst o.
  destruct (logs_frame _ _ _ _ (logs_resolve _) Hr) as (evs & -> & Hd).
  exists s1, evs. split; [reflexivity|]. split; [exact Hf1|]. split; [|exact Hd].
  unfold getConfig, bind. rewrite (rawConfig_file s1 _ Hm1 Hf1), Hr.
  now rewrite log_events_app.
Qed.

Lemma save_then_getConfig_witness :
  let t := js "{'name':'x','binaryName':'zen','ratio':0.25}" in
  let s0 := fresh (u "/project/gluon.json") None in
  exists config s1 evs,
    fst (resolve t s0) = Return config /\
    saveConfig config s0 = (Return tt, s1) /\
    getConfig s1 = (Return config, log_events s1 (ExistsSync :: ReadFileSync :: evs)).
Proof.
  intros t s0.
  destruct (resolve t s0) as [[config|c|e] s0'] eqn:Hr;
    try (vm_compute in Hr; discriminate).
  assert (Hs : stable config = true).
  { vm_compute in Hr. injection Hr as <- _. vm_compute. reflexivity. }
  destruct (save_then_getConfig t s0 s0' s0 config Hr Hs eq_refl)
    as (s1 & evs & H1 & _ & H2 & _).
  exists config, s1, evs. auto.
Defined.

(** X15.  In a process started without the file, the constant [config]
    is [defaultConfig] and the missing-file warning is logged exactly
    once, while the module is loaded, whatever is called afterwards and
    however the run ends. *)
Theorem missing_file_warned_at_load (path : jsstring) (cs : list call)
    (o : outcome (value * list answer)) (s' : state) :
  run path None cs = (o, s') ->
  missing_warnings s' = 1 /\ hasWarnedAboutConfig s' = true /\
  (forall r, o = Return r -> fst r = defaultConfig).
Proof.
  unfold run, bind. intros H.
  destruct (load_without_file path) as (s1 & Hg & Hw & H1).
  rewrite Hg in H.
  destruct (perform_all defaultConfig cs s1) as [[l|c0|e] s2] eqn:Hq;
    destruct (perform_all_keeps_once _ _ _ _ _ Hq) as (_ & _ & F);
    destruct (F Hw) as [Hw2 E2]; injection H as <- <-;
    (split; [congruence|]); (split; [congruence|]);
    intros r Hr; try discriminate.
  now injection Hr as <-.
Qed.

Lemma missing_file_warned_at_load_witness :
  let r := run (u "/project/gluon.json") None
             [RawConfig; SaveConfig; FileChanged None; GetConfig; RawConfig] in
  missing_warnings (snd r) = 1 /\ hasWarnedAboutConfig (snd r) = true.
Proof.
  intros r. destruct r as [o s'] eqn:H.
  destruct (missing_file_warned_at_load _ _ o s' H) as (H1 & H2 & _).
  split; [exact H1 | exact H2].
Defined.

(** X16.  When the merged [addons] has no property of its own (the file
    gives [null], a number, a boolean, [""], [[]] or [{}], or nothing),
    the loop does not run: with a supported product, resolution returns
    the merged record and logs at most the advice about [binaryName]. *)
Theorem resolve_without_addons (t : jsstring) (d : value) (product : jsval) (s : state) :
  JSON_parse t = Some d -> d <> JNull ->
  merged_product d = inr product ->
  includes validProducts product = true ->
  addon_entries (merge_defaults d) = [] ->
  resolve t s = (Return (JObj (merge_defaults d)), log_events s (binaryName_advice d)).
Proof.
  intros Hp Hnn Hprod Hi Ha.
  rewrite (resolve_parsed t d s (Return (JObj (merge_defaults d))) (fun _ => []) Hp Hnn).
  - now rewrite app_nil_r.
  - assert (W : writes (validate (merge_defaults d)) (Return (JObj (merge_defaults d)))
                  (fun _ => diagnostics_of (addon_entries (merge_defaults d)))).
    { apply (writes_validate_returns _ product).
      - apply merge_defaults_wf, (JSON_parse_wf _ _ Hp).
      - exact Hprod.
      - exact Hi.
      - now rewrite Ha. }
    now rewrite Ha in W.
Qed.

Lemma resolve_without_addons_witness :
  let t := js "{'addons':null,'binaryName':'zen'}" in
  let s := fresh (u "/project/gluon.json") None in
  exists config,
    resolve t s = (Return config, s) /\
    get (Some config) (u "addons") = inr (Some JNull).
Proof.
  intros t s.
  destruct (JSON_parse t) as [d|] eqn:Hp; [|vm_compute in Hp; discriminate].
  exists (JObj (merge_defaults d)). split.
  - rewrite (resolve_without_addons t d (Some (JStr (product_name Firefox))) s Hp);
      vm_compute in Hp; injection Hp as <-;
      try discriminate; vm_compute; reflexivity.
  - vm_compute in Hp. injection Hp as <-. vm_compute. reflexivity.
Defined.
